(** * plugable-express: the bootstrap core ([appInit]) and its error pipeline

    A shallow embedding of [app.js] (the command-path registry
    [app.ext.addCommandPath], the two error middlewares, [makeID],
    [statusText], the bootstrap sequence of [appInit]) and of
    [lib/get-server-settings.js] ([getServerSettings]).

    JavaScript objects used as dictionaries are finite maps from property
    names to values; arrays reached through [app.ext] live in a store and are
    named by their location, so that two fields holding the same array would
    be seen to alias; the collaborators whose code is elsewhere (the plugin
    loader, the dependency runner, the source of randomness, the clock) are
    parameters: an environment record for the bootstrap, arguments for the
    error stages. *)

From Stdlib Require Import ZArith Ascii String DecimalString.
From Equations Require Import Equations.
From stdpp Require Import gmap strings list fin_maps.

#[local] Open Scope string_scope.
#[local] Set Warnings "-register-all".

(** ** The command-path registry *)

Module Registry.

Section WithParameters.

(** A [parameters] value is whatever the caller hands to [addCommandPath];
    the registry never looks inside it, it only stores and returns it.  For a
    JavaScript object this value is the reference itself. *)
Context {Ref : Type}.

(** The values that can sit inside [app.ext.commandPaths]: object literals
    [{}] created by the walk, and the arrow functions [() => parameters]
    attached at a terminal node.  A function is an object too, so it carries
    own properties as well. *)
Inductive jsobject : Type :=
| Plain (props : gmap string jsobject)
| Accessor (captured : Ref) (props : gmap string jsobject).

Definition own (o : jsobject) : gmap string jsobject :=
  match o with
  | Plain props => props
  | Accessor _ props => props
  end.

(** [o[key] = v] on an extensible object. *)
Definition setOwn (key : string) (v : jsobject) (o : jsobject) : jsobject :=
  match o with
  | Plain props => Plain (<[key := v]> props)
  | Accessor r props => Accessor r (<[key := v]> props)
  end.

(** The reserved key under which the accessor is stored. *)
Definition parametersKey : string := "_parameters".

(** String-keyed properties that [{}] inherits from [Object.prototype]. *)
Definition objectPrototypeKeys : list string :=
  [ "constructor"; "__proto__"; "hasOwnProperty"; "isPrototypeOf";
    "propertyIsEnumerable"; "toLocaleString"; "toString"; "valueOf";
    "__defineGetter__"; "__defineSetter__"; "__lookupGetter__";
    "__lookupSetter__" ].

(** String-keyed properties a function has besides those: its own [length]
    and [name], and what it inherits from [Function.prototype]. *)
Definition functionKeys : list string :=
  [ "length"; "name"; "apply"; "bind"; "call"; "arguments"; "caller" ].

(** [key in o] holds for own and for inherited properties.  [inherited] is
    the second half: the key is found on the prototype chain, in an object
    that is not part of the command trie. *)
Definition inherited (key : string) (o : jsobject) : bool :=
  match o with
  | Plain _ => bool_decide (key ∈ objectPrototypeKeys)
  | Accessor _ _ =>
      bool_decide (key ∈ objectPrototypeKeys) || bool_decide (key ∈ functionKeys)
  end.

(** Result of the walk of [addCommandPath] below one node: the node as the
    walk leaves it, and whether the accessor was attached ([Attached]) or the
    terminal node already had one ([Occupied]); [Escaped] when a segment
    resolves to an inherited property, so that the walk continues in a
    built-in object outside [app.ext.commandPaths]. *)
Inductive walked : Type :=
| Attached (node : jsobject)
| Occupied (node : jsobject)
| Escaped.

Definition relink (key : string) (parent : jsobject) (w : walked) : walked :=
  match w with
  | Attached child => Attached (setOwn key child parent)
  | Occupied child => Occupied (setOwn key child parent)
  | Escaped => Escaped
  end.

(** The loop [for (const pathBit of commandPath)] followed by the test of
    [frontier._parameters] and the assignment.  A child created by
    [frontier[pathBit] = {}] stays in its parent whatever happens later. *)
Fixpoint walk (commandPath : list string) (parameters : Ref)
    (frontier : jsobject) : walked :=
  match commandPath with
  | [] =>
      match own frontier !! parametersKey with
      | Some _ => Occupied frontier
      | None => Attached (setOwn parametersKey (Accessor parameters ∅) frontier)
      end
  | pathBit :: rest =>
      match own frontier !! pathBit with
      | Some child => relink pathBit frontier (walk rest parameters child)
      | None =>
          if inherited pathBit frontier then Escaped
          else relink pathBit frontier (walk rest parameters (Plain ∅))
      end
  end.

(** The node a walk leaves behind, if it stayed in the trie. *)
Definition nodeAfter (w : walked) : option jsobject :=
  match w with
  | Attached n => Some n
  | Occupied n => Some n
  | Escaped => None
  end.

(** Two values are the same function, or both object literals, whatever
    their own properties. *)
Definition sameHead (o o' : jsobject) : Prop :=
  match o, o' with
  | Plain _, Plain _ => True
  | Accessor r _, Accessor r' _ => r = r'
  | _, _ => False
  end.

(** [commandPath.join('/')] *)
Definition join (commandPath : list string) : string :=
  String.concat "/" commandPath.

Inductive outcome : Type :=
| Returned (commandPaths : jsobject)
| Threw (message : string) (commandPaths : jsobject)
| LeftTrie.

Definition addCommandPath (commandPath : list string) (parameters : Ref)
    (commandPaths : jsobject) : outcome :=
  match walk commandPath parameters commandPaths with
  | Attached root => Returned root
  | Occupied root =>
      Threw ("Non-unique command path: " ++ join commandPath) root
  | Escaped => LeftTrie
  end.

(** What a reader of the registry does: follow the segments from
    [app.ext.commandPaths] and call the accessor found under
    [_parameters]. *)
Fixpoint getParameters (commandPath : list string) (node : jsobject)
    : option Ref :=
  match commandPath with
  | [] =>
      match own node !! parametersKey with
      | Some (Accessor r _) => Some r
      | _ => None
      end
  | pathBit :: rest =>
      match own node !! pathBit with
      | Some child => getParameters rest child
      | None => None
      end
  end.

(** Whether the node reached by the segments has something under
    [_parameters]. *)
Fixpoint occupied (commandPath : list string) (node : jsobject) : bool :=
  match commandPath with
  | [] => bool_decide (is_Some (own node !! parametersKey))
  | pathBit :: rest =>
      match own node !! pathBit with
      | Some child => occupied rest child
      | None => false
      end
  end.

(** The state a call leaves behind, when the walk stayed inside the trie. *)
Definition stateAfter (o : outcome) : option jsobject :=
  match o with
  | Returned root => Some root
  | Threw _ root => Some root
  | LeftTrie => None
  end.

(** A sequence of calls, each started in the state the previous one left,
    whether it returned or threw. *)
Fixpoint calls (cs : list (list string * Ref)) (commandPaths : jsobject)
    : option jsobject :=
  match cs with
  | [] => Some commandPaths
  | (commandPath, parameters) :: cs' =>
      match stateAfter (addCommandPath commandPath parameters commandPaths) with
      | Some root => calls cs' root
      | None => None
      end
  end.

(** A sequence of calls all of which return. *)
Fixpoint registerAll (cs : list (list string * Ref)) (commandPaths : jsobject)
    : option jsobject :=
  match cs with
  | [] => Some commandPaths
  | (commandPath, parameters) :: cs' =>
      match addCommandPath commandPath parameters commandPaths with
      | Returned root => registerAll cs' root
      | _ => None
      end
  end.

(** A segment that is neither the reserved key nor a name inherited from
    [Object.prototype]. *)
Definition ordinary (pathBit : string) : Prop :=
  pathBit ≠ parametersKey ∧ (pathBit ∉ objectPrototypeKeys).

(** The nodes met when following the segments are object literals, as far as
    they exist. *)
Fixpoint plainAlong (commandPath : list string) (node : jsobject) {struct commandPath}
    : Prop :=
  match node with
  | Accessor _ _ => False
  | Plain props =>
      match commandPath with
      | [] => True
      | pathBit :: rest =>
          match props !! pathBit with
          | Some child => plainAlong rest child
          | None => True
          end
      end
  end.

End WithParameters.

Arguments jsobject : clear implicits.
Arguments walked : clear implicits.
Arguments outcome : clear implicits.

End Registry.

(** ** The application state *)

Module Model.

(** Arrays, and the [parameters] objects handed to the registry, are named
    by their location in the store. *)
Definition loc : Type := positive.

(** An exception as the error middlewares see it; an absent field is
    [undefined].  [status] is an integer when present. *)
Record Error : Type := mkError {
  status : option Z;
  message : option string;
  stack : option string;
  liqID : option string
}.

(** An entry of [app.ext.errorsEphemeral]. *)
Record ErrorRecord : Type := mkErrorRecord {
  id : string;
  recordMessage : option string;
  recordStack : option string;
  timestamp : Z
}.

(** A settings document, as the settings codec reads and writes it. *)
Inductive json : Type :=
| JNull
| JString (s : string)
| JArray (items : list json)
| JObject (fields : list (string * json)).

Inductive Middleware : Type :=
| JsonBody | UrlencodedBody | FileUpload | CaptureStage | PresentStage.

(** [app.ext].  Pending handlers and setup methods are closures; they are
    named by a number and run by the environment.  An entry of [handlers] is
    represented by what [JSON.stringify] keeps of it.  [constants],
    [pathResolvers], [serverVersion] and [tasks] play no part below and are
    left out. *)
Record Ext : Type := mkExt {
  handlerPlugins : list string;
  commandPaths : Registry.jsobject loc;
  errorsEphemeral : loc;
  errorsRetained : loc;
  handlers : list json;
  localSettings : json;
  noRegistries : bool;
  pendingHandlers : list nat;
  pluginsPath : option string;
  serverHome : string;
  serverSettings : json;
  setupMethods : list nat
}.

(** What the running process holds: [app.ext], the store of error arrays,
    the files on disk (each with the document the codec reads from it), the
    middleware stack of the Express app, the number of values drawn from
    [Math.random] so far, and what went to [console.error]. *)
Record World : Type := mkWorld {
  ext : Ext;
  arrays : gmap loc (list ErrorRecord);
  files : gmap string json;
  routerStack : list Middleware;
  randomCalls : nat;
  console : list Error
}.

Definition setExt (e : Ext) (w : World) : World :=
  mkWorld e (arrays w) (files w) (routerStack w) (randomCalls w) (console w).
Definition setArrays (a : gmap loc (list ErrorRecord)) (w : World) : World :=
  mkWorld (ext w) a (files w) (routerStack w) (randomCalls w) (console w).
Definition setFiles (f : gmap string json) (w : World) : World :=
  mkWorld (ext w) (arrays w) f (routerStack w) (randomCalls w) (console w).
Definition setRouterStack (s : list Middleware) (w : World) : World :=
  mkWorld (ext w) (arrays w) (files w) s (randomCalls w) (console w).
Definition setRandomCalls (n : nat) (w : World) : World :=
  mkWorld (ext w) (arrays w) (files w) (routerStack w) n (console w).
Definition setConsole (c : list Error) (w : World) : World :=
  mkWorld (ext w) (arrays w) (files w) (routerStack w) (randomCalls w) c.

(** The array at a location; every location held by [app.ext] is
    allocated. *)
Definition arrayAt (l : loc) (w : World) : list ErrorRecord :=
  default [] (arrays w !! l).

(** [[]]: a new empty array, at a location not in use. *)
Definition newArray (w : World) : loc * World :=
  let l := fresh (dom (arrays w)) in
  (l, setArrays (<[l := []]> (arrays w)) w).

(** [fsPath.join(dir, name)] for a directory without trailing separator. *)
Definition joinPath (dir name : string) : string := dir ++ "/" ++ name.

(** How a template literal or [+] renders a string that may be
    [undefined]. *)
Definition display (v : option string) : string :=
  match v with
  | Some s => s
  | None => "undefined"
  end.

(** Truthiness of a string that may be [undefined]. *)
Definition truthy (v : option string) : bool :=
  match v with
  | Some "" => false
  | Some _ => true
  | None => false
  end.

End Model.

(** ** The error pipeline *)

Module ErrorPipeline.
Import Model.

(** *** [makeID] *)

Definition characters : string := "abcdefghijkmnopqrstuvwxyz023456789".
Definition charactersLength : nat := String.length characters.

(** [s.charAt(i)]: the empty string when [i] is out of range. *)
Definition charAt (s : string) (i : nat) : string :=
  match String.get i s with
  | Some c => String c EmptyString
  | None => EmptyString
  end.

Definition alphabet : list ascii := list_ascii_of_string characters.

(** Every character of [s] is one of [characters]. *)
Definition fromAlphabet (s : string) : Prop :=
  forall c, In c (list_ascii_of_string s) -> In c alphabet.

Section Random.

(** [randomIndex k] is the value of
    [Math.floor(Math.random() * charactersLength)] at the [k]-th draw from
    [Math.random] since the process started. *)
Variable randomIndex : nat -> nat.

(** The loop [while (counter < length)], with [remaining = length - counter]
    and [k] the number of draws made before this iteration. *)
Fixpoint makeIDLoop (remaining : nat) (result : string) (k : nat) : string * nat :=
  match remaining with
  | O => (result, k)
  | S remaining' =>
      makeIDLoop remaining' (result ++ charAt characters (randomIndex k)) (S k)
  end.

Definition makeID (length : nat) (w : World) : string * World :=
  let (result, k) := makeIDLoop length "" (randomCalls w) in
  (result, setRandomCalls k w).

(** The characters picked by [n] draws, from draw [k] on. *)
Definition picked (k n : nat) : list ascii :=
  map (fun j => nth (randomIndex j) alphabet "a"%char) (seq k n).

(** *** The capture stage *)

(** The loop
    [let i = 0; while (errors.length > 1000 && i < errors.length) { errors.shift(); i += 1 }],
    started at counter [i]. *)
Fixpoint evict (i : nat) (errors : list ErrorRecord) : list ErrorRecord :=
  match errors with
  | [] => []
  | _ :: shifted =>
      if (1000 <? length errors)%nat && (i <? length errors)%nat
      then evict (S i) shifted
      else errors
  end.

(** The first error middleware.  [now] is the reading of the clock,
    [new Date().getTime()].  It returns the exception passed to [next]. *)
Definition capture (now : Z) (error : Error) (w : World) : Error * World :=
  let errors := errorsEphemeral (ext w) in
  let (errorID, w) := makeID 5 w in
  let error := mkError (status error) (message error) (stack error) (Some errorID) in
  let pushed :=
    (arrayAt errors w ++ [mkErrorRecord errorID (message error) (stack error) now])%list in
  let w := setArrays (<[errors := evict 0 pushed]> (arrays w)) w in
  let w := setConsole (console w ++ [error])%list w in
  (error, w).

End Random.

(** *** The present stage *)

Definition statusText (status : Z) : option string :=
  match status with
  | 400 => Some "BadRequest"
  | 401 => Some "Unauthorized"
  | 402 => Some "PaymentRequired"
  | 403 => Some "Forbidden"
  | 404 => Some "NotFound"
  | 405 => Some "MethodNotAllowed"
  | 406 => Some "NotAcceptable"
  | 407 => Some "ProxyAuthenticationRequired"
  | 408 => Some "RequestTimeout"
  | 409 => Some "Conflict"
  | 410 => Some "Gone"
  | 411 => Some "LengthRequired"
  | 412 => Some "PreconditionFailed"
  | 413 => Some "PayloadTooLarge"
  | 414 => Some "URITooLong"
  | 415 => Some "UnsupportedMediaType"
  | 416 => Some "RangeNotSatisfiable"
  | 417 => Some "ExpectationFailed"
  | 418 => Some "ImATeapot"
  | 421 => Some "MisdirectedRequest"
  | 422 => Some "UnprocessableEntity"
  | 423 => Some "Locked"
  | 424 => Some "FailedDependency"
  | 425 => Some "TooEarly"
  | 426 => Some "UpgradeRequired"
  | 428 => Some "PreconditionRequired"
  | 429 => Some "TooManyRequests"
  | 431 => Some "RequestHeaderFieldsTooLarge"
  | 451 => Some "UnavailableForLegalReasons"
  | 500 => Some "InternalServerError"
  | 501 => Some "NotImplemented"
  | 502 => Some "BadGateway"
  | 503 => Some "ServiceUnavailable"
  | 504 => Some "GatewayTimeout"
  | 505 => Some "HTTPVersionNotSupported"
  | 506 => Some "VariantAlsoNegotiates"
  | 507 => Some "InsufficientStorage"
  | 508 => Some "LoopDetected"
  | 509 => Some "BandwidthLimitExceeded"
  | 510 => Some "NotExtended"
  | 511 => Some "NetworkAuthenticationRequired"
  | _ => None
  end%Z.

(** Decimal rendering of an integer, as a template literal does it. *)
Definition showInteger (n : Z) : string := NilZero.string_of_int (Z.to_int n).

Definition newline : string := String (ascii_of_nat 10) EmptyString.

(** [error.status || 500]: [undefined] and [0] are falsy. *)
Definition selectStatus (error : Error) : Z :=
  match status error with
  | Some s => if (s =? 0)%Z then 500%Z else s
  | None => 500%Z
  end.

Definition errorSource (status : Z) : string :=
  if (400 <=? status)%Z && (status <? 500)%Z then "Client"
  else if (500 <=? status)%Z && (status <? 600)%Z then "Server"
  else "Unknown".

(** The first assignment to [msg]. *)
Definition heading (error : Error) : string :=
  let status := selectStatus error in
  "<error>" ++ errorSource status ++ " error " ++ showInteger status ++ ": "
    ++ display (statusText status) ++ "<rst>" ++ newline ++ newline
    ++ "<em>" ++ display (message error) ++ "<rst>" ++ newline ++ newline.

(** What is appended to it. *)
Definition trailer (error : Error) : string :=
  match liqID error with
  | None =>
      if truthy (stack error) then display (stack error)
      else "error ref: <code>/server/errors/" ++ display None ++ "<rst>"
  | Some errorID => "error ref: <code>/server/errors/" ++ errorID ++ "<rst>"
  end.

Definition compose (error : Error) : string := heading error ++ trailer error.

(** [needle] occurs in [text]. *)
Definition contains (needle text : string) : Prop :=
  exists before after, text = before ++ needle ++ after.


(** *** [msg.replaceAll(/<[a-z]+>/g, '')] *)

Definition lowercase (c : ascii) : bool :=
  (97 <=? nat_of_ascii c)%nat && (nat_of_ascii c <=? 122)%nat.

(** [[a-z]*>] at the head of [s], with [seen] telling whether a letter was
    already consumed: the text after the closing [>]. *)
Fixpoint closeTag (seen : bool) (s : string) : option string :=
  match s with
  | EmptyString => None
  | String c s' =>
      if lowercase c then closeTag true s'
      else if Ascii.eqb c ">" then (if seen then Some s' else None)
      else None
  end.

(** A match of [<[a-z]+>] at the head of [s]: the text after it. *)
Definition matchTag (s : string) : option string :=
  match s with
  | String c s' => if Ascii.eqb c "<" then closeTag false s' else None
  | EmptyString => None
  end.

Definition inspect {A : Type} (a : A) : {b : A | a = b} := exist _ a eq_refl.

(** The global replacement: scanning from the left, a match is dropped and
    the scan resumes after it; where there is no match one character is kept
    and the scan resumes at the next. *)
Equations? stripTags (s : string) : string by wf (String.length s) lt :=
  stripTags EmptyString := EmptyString;
  stripTags (String c s') with inspect (matchTag (String c s')) := {
    | exist _ (Some rest) e := stripTags rest;
    | exist _ None _ := String c (stripTags s') }.
Proof.
  - clear stripTags. simpl in e. destruct (Ascii.eqb c "<"); [|discriminate].
    assert (H : forall t seen r, closeTag seen t = Some r ->
                  (String.length r < String.length t)%nat).
    { induction t as [|d t IH]; simpl; intros seen r; [discriminate|].
      destruct (lowercase d).
      - intros H. apply IH in H. lia.
      - destruct (Ascii.eqb d ">"); [|discriminate].
        destruct seen; [|discriminate]. intros H; inversion H; subst. lia. }
    apply H in e. simpl. lia.
  - simpl. lia.
Qed.

(** The two reads of the request: the truth value of [req.accepts(type)]. *)
Record Request : Type := mkRequest { accepts : string -> bool }.

Record Response : Type := mkResponse {
  headersSent : bool;
  statusCode : Z;
  headers : gmap string string;
  body : option string
}.

(** [res.status(code)], [res.setHeader(name, value)], [res.send(text)]. *)
Definition setStatus (code : Z) (res : Response) : Response :=
  mkResponse (headersSent res) code (headers res) (body res).
Definition setHeader (name value : string) (res : Response) : Response :=
  mkResponse (headersSent res) (statusCode res) (<[name := value]> (headers res)) (body res).
Definition send (text : string) (res : Response) : Response :=
  mkResponse true (statusCode res) (headers res) (Some text).

(** How a middleware ends: it calls [next(error)], handing the exception to
    the next error handler (after the last one, Express's default), or it has
    answered. *)
Inductive handled : Type :=
| Next (error : Error)
| Answered.

(** The second error middleware. *)
Definition present (error : Error) (req : Request) (res : Response)
    : handled * Response :=
  if headersSent res then (Next error, res)
  else
    let status := selectStatus error in
    let res := setStatus status res in
    let msg := compose error in
    if accepts req "html" then (Next error, res)
    else if accepts req "text/terminal"
    then (Answered, send msg (setHeader "content-type" "text/terminal" res))
    else (Answered, send (stripTags msg) (setHeader "content-type" "text/plain" res)).

(** An exception goes through both stages, in the order they are
    installed. *)
Definition pipeline (randomIndex : nat -> nat) (now : Z) (error : Error)
    (req : Request) (res : Response) (w : World) : handled * Response * World :=
  let (error, w) := capture randomIndex now error w in
  (present error req res, w).

(** *** What stripping the markup means

    A markup tag is [<], one or more lowercase letters, [>].  The tags of a
    text cannot overlap, so the text is a sequence of tag-free stretches
    separated by tags; stripping keeps the stretches and drops the tags. *)
Fixpoint letters (s : string) : Prop :=
  match s with
  | EmptyString => True
  | String c s' => lowercase c = true /\ letters s'
  end.

Definition isTag (t : string) : Prop :=
  exists name, name <> "" /\ letters name /\ t = "<" ++ name ++ ">".

Definition tagFree (s : string) : Prop :=
  forall before t after, s = before ++ t ++ after -> ~ isTag t.

Inductive Stripped : string -> string -> Prop :=
| Stripped_last (s : string) :
    tagFree s -> Stripped s s
| Stripped_tag (stretch t rest rest' : string) :
    tagFree stretch -> isTag t -> Stripped rest rest' ->
    Stripped (stretch ++ t ++ rest) (stretch ++ rest').

End ErrorPipeline.

(** ** The bootstrap *)

Module Bootstrap.
Import Model.

(** How a call ends: it returns, it throws, or (for a loop over an array
    that keeps growing) the steps allowed to the run are used up. *)
Inductive completion (A : Type) : Type :=
| Normal (value : A)
| Abrupt (reason : string)
| Unfinished.
Arguments Normal {A} value.
Arguments Abrupt {A} reason.
Arguments Unfinished {A}.

(** What [appInit] does that can be seen from outside, in order. *)
Inductive Event : Type :=
| CallInitModel
| Use (m : Middleware)
| ReadFile (path : string)
| WriteFile (path : string)
| Log (text : string)
| CallRegisterHandlers (name : string)
| CallLoadPlugins
| CallLoadPlugin (dir : string)
| CallPending (k : nat)
| CallInitServerSettings
| Enqueue (k : nat)
| Complete
| Await.

(** The collaborators [appInit] calls and whose code is elsewhere.  Each
    acts on the world and may throw.  [getLiqHome] is the directory the
    function of that name returns.  [stringifyThrows] is what
    [JSON.stringify] throws for the handlers it is given, if it throws (the
    handlers are the objects of the application: a cycle or a [BigInt] among
    them is a [TypeError]), and [writeFileRejects] is the reason for which
    [fs.writeFile] is rejected for a path, if it is. *)
Record Environment : Type := mkEnvironment {
  getLiqHome : string;
  initModel : World -> completion World;
  registerHandlers : string -> World -> completion World;
  loadPlugins : World -> completion World;
  loadPlugin : string -> json -> World -> completion World;
  pendingHandler : nat -> World -> completion World;
  initServerSettings : World -> completion World;
  runSetupMethods : list nat -> World -> completion World;
  stringifyThrows : list json -> option string;
  writeFileRejects : string -> World -> option string
}.

Record Options : Type := mkOptions {
  apiSpecPath : option string;
  app : bool;
  noAPIUpdate : bool;
  noRegistries : bool;
  pluginPaths : option (list string);
  pluginsPath : option string;
  serverHome : option string;
  skipCorePlugins : bool
}.

(** A computation: from the world and the events so far to a completion,
    the world and the events after it.  The world outlives a throw. *)
Definition State : Type := World * list Event.
Definition M (A : Type) : Type := State -> completion A * State.

Definition ret {A : Type} (a : A) : M A := fun st => (Normal a, st).

Definition bind {A B : Type} (c : M A) (k : A -> M B) : M B :=
  fun st =>
    match c st with
    | (Normal a, st') => k a st'
    | (Abrupt reason, st') => (Abrupt reason, st')
    | (Unfinished, st') => (Unfinished, st')
    end.

Definition throw {A : Type} (reason : string) : M A := fun st => (Abrupt reason, st).

#[local] Notation "x <- c ;; k" := (bind c (fun x => k))
  (at level 100, c at next level, right associativity).
#[local] Notation "c ;; k" := (bind c (fun _ => k))
  (at level 100, right associativity).

Definition emit (e : Event) : M unit :=
  fun '(w, events) => (Normal tt, (w, events ++ [e])%list).

Definition getWorld : M World := fun '(w, events) => (Normal w, (w, events)).

Definition modify (f : World -> World) : M unit :=
  fun '(w, events) => (Normal tt, (f w, events)).

(** A call into a collaborator: the call is recorded, then it runs. *)
Definition call (e : Event) (f : World -> completion World) : M unit :=
  fun '(w, events) =>
    match f w with
    | Normal w' => (Normal tt, (w', events ++ [e])%list)
    | Abrupt reason => (Abrupt reason, (w, events ++ [e])%list)
    | Unfinished => (Unfinished, (w, events ++ [e])%list)
    end.

(** [app.use(m)] *)
Definition use (m : Middleware) : M unit :=
  modify (fun w => setRouterStack (routerStack w ++ [m])%list w) ;; emit (Use m).

(** [readFJSON(path) || {}] and [writeFJSON({ file, data })]: a value that
    is falsy is [null] or the empty string. *)
Definition falsy (d : json) : bool :=
  match d with
  | JNull => true
  | JString "" => true
  | _ => false
  end.

Section WithEnvironment.
Variable env : Environment.

(** [getServerSettings] of [lib/get-server-settings.js].  It has no
    parameter. *)
Definition getServerSettings : M json :=
  let serverSettingsPath := joinPath (getLiqHome env) "server-settings.yaml" in
  w <- getWorld ;;
  match files w !! serverSettingsPath with
  | Some data =>
      emit (ReadFile serverSettingsPath) ;;
      ret (if falsy data then JObject [] else data)
  | None =>
      let serverSettings := JObject [("registries", JArray [])] in
      modify (fun w => setFiles (<[serverSettingsPath := serverSettings]> (files w)) w) ;;
      emit (WriteFile serverSettingsPath) ;;
      ret serverSettings
  end.

(** The assignment to [app.ext]: the fields are evaluated in the order of
    the object literal.  The argument [home] of the call
    [getServerSettings(serverHome)] is not taken by the function called. *)
Definition setupExt (options : Options) (home : string) : M unit :=
  ephemeral <- (fun '(w, events) =>
                  let (l, w') := newArray w in (Normal l, (w', events))) ;;
  retained <- (fun '(w, events) =>
                 let (l, w') := newArray w in (Normal l, (w', events))) ;;
  settings <- getServerSettings ;;
  modify (setExt (mkExt [] (Registry.Plain ∅) ephemeral retained [] (JObject [])
                    (noRegistries options) [] (pluginsPath options) home
                    settings [])).

(** [app.ext.addCommandPath] *)
Definition addCommandPath (commandPath : list string) (parameters : loc) : M unit :=
  w <- getWorld ;;
  match Registry.addCommandPath commandPath parameters (commandPaths (ext w)) with
  | Registry.Returned root =>
      modify (fun w =>
        let e := ext w in
        setExt (mkExt (handlerPlugins e) root (errorsEphemeral e) (errorsRetained e)
                  (handlers e) (localSettings e) (Model.noRegistries e)
                  (pendingHandlers e) (Model.pluginsPath e) (Model.serverHome e)
                  (serverSettings e) (setupMethods e)) w)
  | Registry.Threw reason root =>
      modify (fun w =>
        let e := ext w in
        setExt (mkExt (handlerPlugins e) root (errorsEphemeral e) (errorsRetained e)
                  (handlers e) (localSettings e) (Model.noRegistries e)
                  (pendingHandlers e) (Model.pluginsPath e) (Model.serverHome e)
                  (serverSettings e) (setupMethods e)) w) ;;
      throw reason
  | Registry.LeftTrie => throw "outside app.ext.commandPaths"
  end.

(** [if (existsSync(localSettingsPath)) app.ext.localSettings = readFJSON(localSettingsPath)] *)
Definition readLocalSettings (home : string) : M unit :=
  let localSettingsPath := joinPath home "local-settings.yaml" in
  w <- getWorld ;;
  match files w !! localSettingsPath with
  | Some data =>
      emit (ReadFile localSettingsPath) ;;
      modify (fun w =>
        let e := ext w in
        setExt (mkExt (handlerPlugins e) (commandPaths e) (errorsEphemeral e)
                  (errorsRetained e) (handlers e) data (Model.noRegistries e)
                  (pendingHandlers e) (Model.pluginsPath e) (Model.serverHome e)
                  (serverSettings e) (setupMethods e)) w)
  | None => ret tt
  end.

(** [app.addSetupTask] *)
Definition addSetupTask (entry : nat) (w : World) : World :=
  let e := ext w in
  setExt (mkExt (handlerPlugins e) (commandPaths e) (errorsEphemeral e)
            (errorsRetained e) (handlers e) (localSettings e) (Model.noRegistries e)
            (pendingHandlers e) (Model.pluginsPath e) (Model.serverHome e)
            (serverSettings e) (setupMethods e ++ [entry])%list) w.

(** The loop over [pluginPaths]: read and parse the package file, then load
    the plugin. *)
Fixpoint loadPluginPaths (dirs : list string) : M unit :=
  match dirs with
  | [] => ret tt
  | pluginDir :: dirs' =>
      let packagePath := joinPath pluginDir "package.json" in
      w <- getWorld ;;
      emit (ReadFile packagePath) ;;
      match files w !! packagePath with
      | Some packageJSON =>
          call (CallLoadPlugin pluginDir) (loadPlugin env pluginDir packageJSON) ;;
          loadPluginPaths dirs'
      | None => throw "ENOENT"
      end
  end.

(** Core handlers, then the plugins of the plugin directory, then those of
    [pluginPaths]. *)
Definition loadHandlers (options : Options) : M unit :=
  emit (Log "Loading core handlers...") ;;
  call (CallRegisterHandlers "core") (registerHandlers env "core") ;;
  (if skipCorePlugins options then ret tt
   else call CallLoadPlugins (loadPlugins env)) ;;
  loadPluginPaths (default [] (pluginPaths options)).

(** [for (const pendingHandler of app.ext.pendingHandlers) pendingHandler()]:
    the iterator reads the array again at each step, at index [i]. *)
Fixpoint flushPending (steps i : nat) : M unit :=
  match steps with
  | O => fun st => (Unfinished, st)
  | S steps' =>
      w <- getWorld ;;
      match pendingHandlers (ext w) !! i with
      | None => ret tt
      | Some k =>
          call (CallPending k) (pendingHandler env k) ;;
          flushPending steps' (S i)
      end
  end.

(** Modelled from the spec: the dependency runner ([enqueue] accepts an
    action before sealing, [complete] seals the set, [await] suspends the
    caller until every enqueued action has finished).  Enqueueing only
    records the action; the actions run when the runner is awaited. *)
Fixpoint enqueueAll (methods : list nat) : M unit :=
  match methods with
  | [] => ret tt
  | setupMethod :: methods' => emit (Enqueue setupMethod) ;; enqueueAll methods'
  end.

Definition drainSetup : M unit :=
  w <- getWorld ;;
  let queued := setupMethods (ext w) in
  enqueueAll queued ;;
  emit Complete ;;
  call Await (runSetupMethods env queued).

(** [apiSpecPath || fsPath.join(serverHome, 'core-api.json')] *)
Definition apiSpecFile (options : Options) (home : string) : string :=
  if truthy (apiSpecPath options) then display (apiSpecPath options)
  else joinPath home "core-api.json".

(** The manifest, unless [noAPIUpdate]: the announcement is logged; the
    argument [JSON.stringify(app.ext.handlers, null, '  ')] is evaluated, and
    may throw; then [fs.writeFile] is awaited, and may be rejected.  When
    both go well the file holds the handlers. *)
Definition registerAPI (options : Options) (home : string) : M unit :=
  if noAPIUpdate options then ret tt
  else
    emit (Log "Registering API...") ;;
    w <- getWorld ;;
    match stringifyThrows env (handlers (ext w)) with
    | Some reason => throw reason
    | None =>
        match writeFileRejects env (apiSpecFile options home) w with
        | Some reason => throw reason
        | None =>
            modify (fun w =>
              setFiles (<[apiSpecFile options home := JArray (handlers (ext w))]> (files w))
                w) ;;
            emit (WriteFile (apiSpecFile options home))
        end
    end.

(** [appInit].  [steps] bounds the iterations of the loop over the pending
    handlers.  A normal completion stands for the return of
    [{ app, cache }]. *)
Definition appInit (steps : nat) (options : Options) : M unit :=
  if negb (truthy (serverHome options))
  then throw "No 'serverHome' defined; bailing out."
  else
    let home := display (serverHome options) in
    call CallInitModel (initModel env) ;;
    (if app options then ret tt else modify (setRouterStack [])) ;;
    use JsonBody ;;
    use UrlencodedBody ;;
    use FileUpload ;;
    setupExt options home ;;
    readLocalSettings home ;;
    loadHandlers options ;;
    flushPending steps 0 ;;
    use CaptureStage ;;
    use PresentStage ;;
    call CallInitServerSettings (initServerSettings env) ;;
    drainSetup ;;
    registerAPI options home.

(** [app.reload] *)
Definition reload (steps : nat) (options : Options) : M unit :=
  modify (setRouterStack []) ;;
  appInit steps options.

End WithEnvironment.



(** A pending handler leaves [app.ext.pendingHandlers] as it is. *)
Definition pendingFrame (env : Environment) : Prop :=
  forall k w w', pendingHandler env k w = Normal w' ->
    pendingHandlers (ext w') = pendingHandlers (ext w).


End Bootstrap.

(** ** Sample inputs *)

Module Samples.
Import Model ErrorPipeline Bootstrap.

(** A process in which [appInit] has not run yet. *)
Definition blankExt : Ext :=
  mkExt [] (Registry.Plain ∅) 1%positive 2%positive [] (JObject []) false [] None ""
    (JObject []) [].

Definition blankWorld : World := mkWorld blankExt ∅ ∅ [] 0 [].

(** A running application whose [errorsEphemeral] holds [n] entries. *)
Definition oldRecord : ErrorRecord := mkErrorRecord "aaaaa" (Some "old") None 0.

Definition runningWorld (n : nat) : World :=
  mkWorld blankExt (<[1%positive := replicate n oldRecord]> (<[2%positive := []]> ∅))
    ∅ [JsonBody; UrlencodedBody; FileUpload; CaptureStage; PresentStage] 0 [].

Definition notFound : Error :=
  mkError (Some 404%Z) (Some "no such <em>thing<rst>") (Some "Error: no such thing") None.

Definition plainClient : Request := mkRequest (fun _ => false).
Definition terminalClient : Request :=
  mkRequest (fun type => String.eqb type "text/terminal").
Definition freshResponse : Response := mkResponse false 200 ∅ None.

(** Draws that repeat every five. *)
Definition cycling (k : nat) : nat := k mod 5.
(** Draws that run through the alphabet. *)
Definition sweeping (k : nat) : nat := k mod 34.

(** A server home with a settings file in it, a plugin directory, and a
    home directory of the tool that is somewhere else. *)
Definition homeSettings : json :=
  JObject [("registries", JArray [JString "https://registry.example/registry.yaml"])].

Definition diskWorld : World :=
  setFiles (<["/srv/liq/server-settings.yaml" := homeSettings]>
             (<["/plugins/a/package.json" := JObject [("name", JString "a")]]> ∅))
    blankWorld.

Definition pushPending (ks : list nat) (w : World) : World :=
  let e := ext w in
  setExt (mkExt (handlerPlugins e) (commandPaths e) (errorsEphemeral e)
            (errorsRetained e) (handlers e) (localSettings e) (Model.noRegistries e)
            (pendingHandlers e ++ ks)%list (Model.pluginsPath e) (Model.serverHome e)
            (serverSettings e) (setupMethods e)) w.

Definition pushHandler (h : json) (w : World) : World :=
  let e := ext w in
  setExt (mkExt (handlerPlugins e) (commandPaths e) (errorsEphemeral e)
            (errorsRetained e) (handlers e ++ [h])%list (localSettings e)
            (Model.noRegistries e) (pendingHandlers e) (Model.pluginsPath e)
            (Model.serverHome e) (serverSettings e) (setupMethods e)) w.

(** Collaborators that do a little: the core registers one handler at once
    and defers two, each plugin adds a setup task, the pending handler 11
    defers one more and the others register their route; the handlers can be
    serialised and every file can be written. *)
Definition sampleEnvironment : Environment :=
  mkEnvironment "/home/liq/.liq"
    (fun w => Normal w)
    (fun name w => Normal (pushPending [11; 12] (pushHandler (JString name) w)))
    (fun w => Normal (addSetupTask 21 w))
    (fun dir pkg w => Normal (addSetupTask 22 w))
    (fun k w => Normal (if (k =? 11)%nat then pushPending [13] w
                        else pushHandler (JString "deferred") w))
    (fun w => Normal w)
    (fun queued w => Normal w)
    (fun handlers => None)
    (fun path w => None).

Definition sampleOptions : Options :=
  mkOptions None false false false (Some ["/plugins/a"]) None (Some "/srv/liq") false.

Definition homelessOptions : Options :=
  mkOptions None false false false None None None false.

End Samples.

(** ** The shape of the registry *)

Module RegistryShape.
Import Registry.

Section WithParameters.
Context {Ref : Type}.
Implicit Types (o : jsobject Ref).

(** The node the walk goes into at segment [b]: the child there, or a new
    object literal. *)
Definition childAt (b : string) o : jsobject Ref :=
  match own o !! b with
  | Some child => child
  | None => Plain ∅
  end.

(** What a list of registrations needs of the registry it starts in. *)
Definition startable (cs : list (list string * Ref)) o : Prop :=
  Forall (fun c => plainAlong (fst c) o /\ occupied (fst c) o = false) cs.

End WithParameters.

End RegistryShape.

(** ** Runs of the capture stage *)

Module PipelineRuns.
Import Model ErrorPipeline.

Section Random.
Variable randomIndex : nat -> nat.

(** Exceptions reaching the capture stage one after the other, each with the
    reading of the clock at that moment. *)
Fixpoint captureAll (incoming : list (Z * Error)) (w : World) : World :=
  match incoming with
  | [] => w
  | (now, error) :: rest => captureAll rest (snd (capture randomIndex now error w))
  end.

(** The records these exceptions give rise to, when the first identifier is
    made from draw [k] on. *)
Fixpoint recordsOf (k : nat) (incoming : list (Z * Error)) : list ErrorRecord :=
  match incoming with
  | [] => []
  | (now, error) :: rest =>
      mkErrorRecord (fst (makeIDLoop randomIndex 5 "" k)) (message error) (stack error) now
      :: recordsOf (k + 5) rest
  end.

End Random.


End PipelineRuns.

(** ** What a computation adds to the events *)

Module BootstrapTraces.
Import Model Bootstrap.

(** Every event a computation adds satisfies [P], however it ends. *)
Definition appends {A : Type} (P : Event -> Prop) (c : M A) : Prop :=
  forall w events r w' events',
    c (w, events) = (r, (w', events')) ->
    exists added, events' = (events ++ added)%list /\ Forall P added.

(** When a computation does not return, every event it added satisfies
    [P], unless it ended in the way [late] tells, which relates the
    completion, the world left and the events added. *)
Definition quietOnFailure {A : Type} (P : Event -> Prop)
    (late : completion A -> World -> list Event -> Prop) (c : M A) : Prop :=
  forall w events r w' events',
    c (w, events) = (r, (w', events')) ->
    (forall v, r <> Normal v) ->
    exists added,
      events' = (events ++ added)%list /\ (Forall P added \/ late r w' added).

(** Anything but the announcement of the manifest. *)
Definition beforeAPI (e : Event) : Prop := e <> Log "Registering API...".

(** The manifest was announced and then not written: the announcement is
    the last event, and what was thrown is what [JSON.stringify] threw for
    the handlers or the reason [fs.writeFile] was rejected for. *)
Definition manifestFailed (env : Environment) (file : string)
    (r : completion unit) (w' : World) (added : list Event) : Prop :=
  exists before reason,
    added = (before ++ [Log "Registering API..."])%list
    /\ Forall beforeAPI before
    /\ r = Abrupt reason
    /\ (stringifyThrows env (handlers (ext w')) = Some reason
        \/ writeFileRejects env file w' = Some reason).

End BootstrapTraces.

(** ** The first application object ([app.initialize]) *)

Module Legacy.
Import Bootstrap.

(** A handler module of [./handlers]: its verb, its path, and its factory
    [func], named by a number and run by the runtime. *)
Record HandlerModule : Type := mkHandlerModule {
  verb : string;
  path : string;
  func : nat
}.

(** The application: the routes registered so far (verb, path and the
    request handler the factory produced), the flag [app.initialized], and
    the lines given to [reporter.log]. *)
Record App : Type := mkApp {
  routes : list (string * string * nat);
  initialized : bool;
  reported : list string
}.

(** What [app[name]] is: one of the routing methods of Express ([get],
    [post], ...), another function of the application object, or nothing that
    can be called. *)
Inductive member : Type :=
| RoutingMethod
| OtherFunction
| NotAFunction.

(** What the code relies on and does not define: [String.prototype.toUpperCase],
    the members of the Express application, the factories of the handler
    modules (each returns a request handler or throws), and the effect of
    calling a member that is not a routing method. *)
Record Runtime : Type := mkRuntime {
  toUpperCase : string -> string;
  memberOf : string -> member;
  produce : nat -> completion nat;
  otherCall : string -> string -> nat -> App -> completion App
}.

Section WithRuntime.
Variable rt : Runtime.

(** The line logged for a handler. *)
Definition announcement (handler : HandlerModule) : string :=
  "registering handler for path: " ++ toUpperCase rt (verb handler) ++ ":" ++ path handler.

Definition report (line : string) (app : App) : App :=
  mkApp (routes app) (initialized app) (reported app ++ [line])%list.

Definition addRoute (route : string * string * nat) (app : App) : App :=
  mkApp (routes app ++ [route])%list (initialized app) (reported app).

(** One turn of the loop: the line is logged; the member [app[handler.verb]]
    is looked up; the argument [handler.func(...)] is evaluated; then the
    member is called, which throws a [TypeError] when it is not a function. *)
Definition registerOne (handler : HandlerModule) (app : App) : completion unit * App :=
  let app := report (announcement handler) app in
  match produce rt (func handler) with
  | Normal requestHandler =>
      match memberOf rt (verb handler) with
      | RoutingMethod =>
          (Normal tt, addRoute (verb handler, path handler, requestHandler) app)
      | OtherFunction =>
          match otherCall rt (verb handler) (path handler) requestHandler app with
          | Normal app' => (Normal tt, app')
          | Abrupt reason => (Abrupt reason, app)
          | Unfinished => (Unfinished, app)
          end
      | NotAFunction => (Abrupt "TypeError: app[handler.verb] is not a function", app)
      end
  | Abrupt reason => (Abrupt reason, app)
  | Unfinished => (Unfinished, app)
  end.

(** [for (const handler of handlers)] *)
Fixpoint registerEach (handlers : list HandlerModule) (app : App)
    : completion unit * App :=
  match handlers with
  | [] => (Normal tt, app)
  | handler :: rest =>
      match registerOne handler app with
      | (Normal _, app') => registerEach rest app'
      | failed => failed
      end
  end.

(** [app.initialize]; a normal completion stands for the return of [app]. *)
Definition initialize (handlers : list HandlerModule) (app : App)
    : completion unit * App :=
  match registerEach handlers app with
  | (Normal _, app') => (Normal tt, mkApp (routes app') true (reported app'))
  | failed => failed
  end.

(** The route a handler stands for when its factory produces [requestHandler]. *)
Definition routeOf (handler : HandlerModule) (requestHandler : nat) : string * string * nat :=
  (verb handler, path handler, requestHandler).

(** A handler whose verb is a routing method and whose factory returns. *)
Definition registrable (handler : HandlerModule) : Prop :=
  memberOf rt (verb handler) = RoutingMethod
  /\ exists requestHandler, produce rt (func handler) = Normal requestHandler.

(** The routes of a list of handlers, for those whose factory returns. *)
Fixpoint routesOf (handlers : list HandlerModule) : list (string * string * nat) :=
  match handlers with
  | [] => []
  | handler :: rest =>
      match produce rt (func handler) with
      | Normal requestHandler => routeOf handler requestHandler :: routesOf rest
      | _ => routesOf rest
      end
  end.

End WithRuntime.

(** [const handlers = [addHandler, detailsHandler, listHandler, removeHandler, ...registriesHandlers]] *)
Definition handlersIndex (addHandler detailsHandler listHandler removeHandler : HandlerModule)
    (registriesHandlers : list HandlerModule) : list HandlerModule :=
  ([addHandler; detailsHandler; listHandler; removeHandler] ++ registriesHandlers)%list.

End Legacy.

(** ** Regular expressions, as the staff import uses them *)

Module Regex.

(** A JavaScript string is a sequence of UTF-16 code units. *)
Definition code : Type := N.
Definition text : Type := list code.

(** The text of a literal written in ASCII. *)
Definition lit (s : string) : text := map (fun c => N_of_ascii c) (list_ascii_of_string s).

(** One character of a pattern: a literal, [.], a class [[...]] or a negated
    class [[^...]]. *)
Inductive atom : Type :=
| Chr (c : code)
| AnyChar
| OneOf (cs : list code)
| NoneOf (cs : list code).

(** The patterns met here: atoms, atoms under [*] and [+] (greedy),
    sequence, alternative, optional part [?] (greedy), capturing group, and
    the assertions [^] and [$]. *)
Inductive regex : Type :=
| Atom (a : atom)
| Star (a : atom)
| Plus (a : atom)
| Seq (r1 r2 : regex)
| Alt (r1 r2 : regex)
| Opt (r : regex)
| Group (i : nat) (r : regex)
| Bol
| Eol.

(** Line terminators, which [.] does not match. *)
Definition lineTerminator (c : code) : bool :=
  (c =? 10)%N || (c =? 13)%N || (c =? 8232)%N || (c =? 8233)%N.

(** Canonicalization under the flag [i], for the comparison with a letter of
    the pattern written in ASCII: a lowercase ASCII letter becomes the
    uppercase one, and a character outside ASCII never becomes an ASCII
    one. *)
Definition canonicalize (c : code) : code :=
  if (97 <=? c)%N && (c <=? 122)%N then (c - 32)%N else c.

Definition accepts (ignoreCase : bool) (a : atom) (c : code) : bool :=
  match a with
  | Chr p => if ignoreCase then (canonicalize c =? canonicalize p)%N else (c =? p)%N
  | AnyChar => negb (lineTerminator c)
  | OneOf cs => bool_decide (c ∈ cs)
  | NoneOf cs => negb (bool_decide (c ∈ cs))
  end.

(** The captures: group number to captured text; a group that took no part
    has no entry ([undefined]). *)
Definition captures : Type := gmap nat text.

Section Matcher.
Variable ignoreCase : bool.
(** The length of the whole input, to tell where it begins. *)
Variable inputLength : nat.

(** The greedy loop of [*]: take one more character if the atom accepts it
    and go on; when what follows fails, give the character back. *)
Fixpoint starLoop (a : atom) (caps : captures)
    (k : text -> captures -> option (text * captures)) (rest : text)
    : option (text * captures) :=
  match rest with
  | c :: rest' =>
      if accepts ignoreCase a c
      then match starLoop a caps k rest' with
           | Some found => Some found
           | None => k rest caps
           end
      else k rest caps
  | [] => k rest caps
  end.

(** The backtracking matcher, in continuation-passing style: [run r rest caps k]
    matches [r] at the head of [rest] and hands what is left, with the
    captures, to [k]; the first way that makes [k] succeed is taken. *)
Fixpoint run (r : regex) (rest : text) (caps : captures)
    (k : text -> captures -> option (text * captures)) : option (text * captures) :=
  match r with
  | Atom a =>
      match rest with
      | c :: rest' => if accepts ignoreCase a c then k rest' caps else None
      | [] => None
      end
  | Star a => starLoop a caps k rest
  | Plus a =>
      match rest with
      | c :: rest' => if accepts ignoreCase a c then starLoop a caps k rest' else None
      | [] => None
      end
  | Seq r1 r2 => run r1 rest caps (fun rest1 caps1 => run r2 rest1 caps1 k)
  | Alt r1 r2 =>
      match run r1 rest caps k with
      | Some found => Some found
      | None => run r2 rest caps k
      end
  | Opt r' =>
      match run r' rest caps
              (fun rest1 caps1 =>
                 if (length rest1 =? length rest)%nat then None else k rest1 caps1) with
      | Some found => Some found
      | None => k rest caps
      end
  | Group i r' =>
      run r' rest caps
        (fun rest1 caps1 =>
           k rest1 (<[i := take (length rest - length rest1) rest]> caps1))
  | Bol => if (length rest =? inputLength)%nat then k rest caps else None
  | Eol =>
      match rest with
      | [] => k rest caps
      | _ => None
      end
  end.

(** The search for the leftmost match, from the start [rest] on: the matched
    text and the captures. *)
Fixpoint searchFrom (r : regex) (rest : text) : option (text * captures) :=
  match run r rest ∅ (fun rest1 caps1 => Some (rest1, caps1)) with
  | Some (rest1, caps1) => Some (take (length rest - length rest1) rest, caps1)
  | None =>
      match rest with
      | [] => None
      | _ :: rest' => searchFrom r rest'
      end
  end.

End Matcher.

(** [input.match(pattern)] for a pattern without the flag [g]: [None] is
    [null]. *)
Definition matchOf (ignoreCase : bool) (r : regex) (input : text)
    : option (text * captures) :=
  searchFrom ignoreCase (length input) r input.

(** A word of the pattern, letter after letter. *)
Fixpoint word (letters : text) : regex :=
  match letters with
  | [] => Opt (Atom (OneOf []))
  | [c] => Atom (Chr c)
  | c :: more => Seq (Atom (Chr c)) (word more)
  end.

(** The letters of a word, each accepted by its letter of the pattern. *)
Definition spells (ignoreCase : bool) (letters t : text) : Prop :=
  Forall2 (fun p c => accepts ignoreCase (Chr p) c = true) letters t.

Definition space : code := 32%N.
Definition quote : code := 34%N.
Definition comma : code := 44%N.
Definition semicolon : code := 59%N.

End Regex.

(** ** The import of staff records *)

Module StaffImport.
Import Bootstrap Regex.

(** The names of [./staff-import-fields], which the sources do not have. *)
Record Fields : Type := mkFields {
  COMPANY : text;
  EMAIL : text;
  FULL_NAME : text;
  GIVEN_NAME : text;
  FAMILY_NAME : text;
  NICKNAME : text;
  TITLE : text;
  START_DATE : text;
  END_DATE : text
}.

(** A record: a JavaScript object from field names to strings; a field that
    is not there reads [undefined]. *)
Definition record : Type := gmap text text.

(** [rec[name]] *)
Definition get (rec : record) (name : text) : option text := rec !! name.

(** A part of a name: characters other than quotation mark and space. *)
Definition namePart (w : text) : Prop := Forall (fun c => c ∉ [quote; space]) w.

(** Truthiness of a string that may be [undefined]. *)
Definition nonEmpty (v : option text) : bool :=
  match v with
  | Some (_ :: _) => true
  | _ => false
  end.

Section WithFields.
Variable field : Fields.
(** [String.prototype.toLowerCase] *)
Variable toLowerCase : text -> text.

(** [headerMatchers], each pattern with the flag [i]. *)
Definition headerMatchers : list (regex * text) :=
  [ (word (lit "company"), COMPANY field);
    (word (lit "email"), EMAIL field);
    (Seq (word (lit "full")) (Seq (Star (Chr space)) (word (lit "name"))), FULL_NAME field);
    (Seq (Group 1 (Alt (word (lit "given")) (word (lit "first"))))
       (Seq (Star (Chr space)) (word (lit "name"))), GIVEN_NAME field);
    (Group 1 (Alt (word (lit "surname"))
                (Seq (word (lit "last")) (Seq (Star (Chr space)) (word (lit "name"))))),
     FAMILY_NAME field);
    (word (lit "nickname"), NICKNAME field);
    (word (lit "title"), TITLE field);
    (word (lit "start date"), START_DATE field);
    (Seq (word (lit "end")) (Seq (Star (Chr space)) (word (lit "date"))), END_DATE field) ].

(** [headerMatchers.find(([re], i) => origHeader.match(re))] and the choice
    between the known name and the header itself. *)
Definition normalizeHeader (origHeader : text) : text :=
  match List.find (fun matcher => bool_decide (is_Some (matchOf true (fst matcher) origHeader)))
          headerMatchers with
  | Some matcher => snd matcher
  | None => origHeader
  end.

(** [newHeaders.indexOf(name) > -1] *)
Definition has (newHeaders : list text) (name : text) : bool :=
  bool_decide (name ∈ newHeaders).

(** [headerValidations]: [None] is [null]. *)
Definition headerValidations : list (list text -> option text) :=
  [ (fun newHeaders =>
       if has newHeaders (TITLE field) then None
       else Some (lit "missing '" ++ TITLE field ++ lit "' column."));
    (fun newHeaders =>
       if has newHeaders (EMAIL field) then None
       else Some (lit "missing '" ++ EMAIL field ++ lit "' column."));
    (fun newHeaders =>
       if has newHeaders (GIVEN_NAME field) then None
       else if has newHeaders (FULL_NAME field) then None
       else Some (lit "you must provide either '" ++ FAMILY_NAME field ++ lit "', '"
                  ++ FULL_NAME field ++ lit "', or both.")) ]%list.

(** [messages.join(separator)] *)
Fixpoint join (separator : text) (messages : list text) : text :=
  match messages with
  | [] => []
  | [message] => message
  | message :: more => (message ++ separator ++ join separator more)%list
  end.

Definition bullet : text := (10%N :: lit "* ")%list.

(** [validateAndNormalizeHeaders(fileName)(origHeaders)] *)
Definition validateAndNormalizeHeaders (fileName : text) (origHeaders : list text)
    : text + list text :=
  let newHeaders := map normalizeHeader origHeaders in
  let errorMessages := omap (fun v => v newHeaders) headerValidations in
  match errorMessages with
  | [] => inr newHeaders
  | _ =>
      let errorMessage :=
        match errorMessages with
        | [only] => only
        | _ => (bullet ++ join bullet errorMessages)%list
        end in
      inl (lit "Error's processing '" ++ fileName ++ lit "': " ++ errorMessage)%list
  end.

(** [nicknameExtractor], as the file has it: both alternatives are written
    with the same quotation mark. *)
Definition nicknameExtractor : regex :=
  Alt (Seq (Atom (Chr quote)) (Seq (Group 1 (Plus (NoneOf [quote]))) (Atom (Chr quote))))
      (Seq (Atom (Chr quote)) (Seq (Group 2 (Plus (NoneOf [quote]))) (Atom (Chr quote)))).

(** [a || b] on strings that may be [undefined]. *)
Definition orElse (a b : option text) : option text :=
  if nonEmpty a then a else b.

(** [newRec[name] = value] *)
Definition assign (name : text) (value : option text) (rec : record) : record :=
  match value with
  | Some v => <[name := v]> rec
  | None => delete name rec
  end.

(** [normalizeNickname] *)
Definition normalizeNickname (rec : record) : record :=
  let fullName := get rec (FULL_NAME field) in
  if negb (nonEmpty (get rec (NICKNAME field))) && nonEmpty fullName
  then
    match matchOf false nicknameExtractor (default [] fullName) with
    | Some (_, groups) =>
        assign (NICKNAME field) (orElse (groups !! 1%nat) (groups !! 2%nat)) rec
    | None => rec
    end
  else rec.

Definition lastNameFirst : regex := Atom (OneOf [comma; semicolon]).

(** [bitsExtractor]: from the start, an optional first group of characters
    other than quotation mark and space, an optional comma or semicolon, an
    optional second group of anything up to a quotation mark or space, and a
    third group of characters other than quotation mark and space up to the
    end. *)
Definition bitsExtractor : regex :=
  Seq Bol
    (Seq (Opt (Group 1 (Plus (NoneOf [quote; space]))))
       (Seq (Opt (Atom (OneOf [comma; semicolon])))
          (Seq (Opt (Group 2 (Seq (Star AnyChar) (Atom (OneOf [quote; space])))))
             (Seq (Group 3 (Plus (NoneOf [quote; space]))) Eol)))).

Definition apostrophe : text := lit "'".

(** [errorContext] *)
Definition errorContext (name value : text) : text :=
  (lit "field '" ++ name ++ lit "' with value '" ++ value ++ apostrophe)%list.

(** [updateNames], the function local to [normalizeNames]: [rec] is the
    record that came in and [newRec] its copy. *)
Definition updateNames (rec newRec : record) (fullName : text)
    (extractedSurname extractedGivenName : option text) : text + record :=
  if negb (nonEmpty extractedGivenName)
  then inl (lit "Could not identify given name in "
            ++ errorContext (FULL_NAME field) fullName ++ lit ".")%list
  else
    let given := default [] extractedGivenName in
    if nonEmpty (get rec (GIVEN_NAME field))
       && negb (bool_decide (toLowerCase given
                             = toLowerCase (default [] (get rec (GIVEN_NAME field)))))
    then inl (lit "Extracted given name '" ++ given ++ lit "' from full name '" ++ fullName
              ++ lit "' but it does not match specified given name '"
              ++ default [] (get rec (GIVEN_NAME field)) ++ apostrophe)%list
    else if nonEmpty (get rec (FAMILY_NAME field))
            && negb (bool_decide (get rec (FAMILY_NAME field) = extractedSurname))
    then inl (lit "Extracted surname '" ++ given ++ lit "' from full name '" ++ fullName
              ++ lit "' but it does not match specified surname '"
              ++ default (lit "undefined") (get rec (GIVEN_NAME field)) ++ apostrophe)%list
    else
      let newRec :=
        match get newRec (GIVEN_NAME field) with
        | None => <[GIVEN_NAME field := given]> newRec
        | Some _ => newRec
        end in
      let newRec :=
        match get rec (FAMILY_NAME field) with
        | None =>
            if nonEmpty extractedSurname
            then <[FAMILY_NAME field := default [] extractedSurname]> newRec
            else newRec
        | Some _ => newRec
        end in
      inr newRec.

(** [normalizeNames] *)
Definition normalizeNames (rec : record) : text + record :=
  if negb (nonEmpty (get rec (GIVEN_NAME field))) || negb (nonEmpty (get rec (FAMILY_NAME field)))
  then
    match get rec (FULL_NAME field) with
    | Some (c :: more) =>
        let fullName := c :: more in
        match matchOf false bitsExtractor fullName with
        | None =>
            inl (lit "Could not extract useful data from "
                 ++ errorContext (FULL_NAME field) fullName ++ lit "; is it empty?")%list
        | Some (_, bitsMatch) =>
            let newRec := rec in
            if bool_decide (is_Some (matchOf false lastNameFirst fullName))
            then updateNames rec newRec fullName (bitsMatch !! 1%nat) (bitsMatch !! 3%nat)
            else updateNames rec newRec fullName (bitsMatch !! 3%nat) (bitsMatch !! 1%nat)
        end
    | _ => inr rec
    end
  else inr rec.

(** [validateAndNormalizeRecords]: the first record that throws ends the
    whole. *)
Fixpoint validateAndNormalizeRecords (records : list record) : text + list record :=
  match records with
  | [] => inr []
  | rec :: more =>
      match normalizeNames (normalizeNickname rec) with
      | inl thrown => inl thrown
      | inr normalized =>
          match validateAndNormalizeRecords more with
          | inl thrown => inl thrown
          | inr rest => inr (normalized :: rest)
          end
      end
  end.

End WithFields.

End StaffImport.

(** ** More sample values *)

Module MoreSamples.
Import Model ErrorPipeline Bootstrap Samples Legacy Regex StaffImport.

(** Collaborators as in [sampleEnvironment], but the pending handler 12
    throws. *)
Definition throwingEnvironment : Environment :=
  mkEnvironment "/home/liq/.liq"
    (fun w => Normal w)
    (fun name w => Normal (pushPending [11; 12] (pushHandler (JString name) w)))
    (fun w => Normal (addSetupTask 21 w))
    (fun dir pkg w => Normal (addSetupTask 22 w))
    (fun k w => if (k =? 12)%nat then Abrupt "handler 12 failed" else Normal w)
    (fun w => Normal w)
    (fun queued w => Normal w)
    (fun handlers => None)
    (fun path w => None).

(** Collaborators as in [sampleEnvironment], on a disk where nothing can be
    written under [/srv]. *)
Definition readOnlyEnvironment : Environment :=
  mkEnvironment "/home/liq/.liq"
    (fun w => Normal w)
    (fun name w => Normal (pushPending [11; 12] (pushHandler (JString name) w)))
    (fun w => Normal (addSetupTask 21 w))
    (fun dir pkg w => Normal (addSetupTask 22 w))
    (fun k w => Normal (if (k =? 11)%nat then pushPending [13] w
                        else pushHandler (JString "deferred") w))
    (fun w => Normal w)
    (fun queued w => Normal w)
    (fun handlers => None)
    (fun path w => if String.prefix "/srv/" path then Some "EACCES" else None).

(** Collaborators whose pending handlers each defer one more. *)
Definition deferringEnvironment : Environment :=
  mkEnvironment "/home/liq/.liq"
    (fun w => Normal w)
    (fun name w => Normal (pushPending [1] w))
    (fun w => Normal w)
    (fun dir pkg w => Normal w)
    (fun k w => Normal (pushPending [S k] w))
    (fun w => Normal w)
    (fun queued w => Normal w)
    (fun handlers => None)
    (fun path w => None).

(** An Express application for the first application object: the routing
    methods it knows, [listen] as another function, and factories that all
    return. *)
Definition sampleRuntime : Runtime :=
  mkRuntime
    (fun s => string_of_list_ascii
                (map (fun c => if lowercase c then ascii_of_nat (nat_of_ascii c - 32) else c)
                   (list_ascii_of_string s)))
    (fun name =>
       if bool_decide (name ∈ ["get"; "post"; "put"; "delete"; "patch"]) then RoutingMethod
       else if String.eqb name "listen" then OtherFunction
       else NotAFunction)
    (fun factory => Normal (100 + factory)%nat)
    (fun name path requestHandler app => Normal app).

Definition newApp : App := mkApp [] false [].

Definition addHandler : HandlerModule := mkHandlerModule "post" "/projects" 1.
Definition detailsHandler : HandlerModule := mkHandlerModule "get" "/projects/:name" 2.
Definition listHandler : HandlerModule := mkHandlerModule "get" "/projects" 3.
Definition removeHandler : HandlerModule := mkHandlerModule "delete" "/projects/:name" 4.
Definition registryHandler : HandlerModule := mkHandlerModule "get" "/registries" 5.
Definition misspeltHandler : HandlerModule := mkHandlerModule "fetch" "/orgs" 6.

(** Field names for the staff import. *)
Definition sampleFields : Fields :=
  mkFields (lit "company") (lit "email") (lit "fullName") (lit "givenName")
    (lit "familyName") (lit "nickname") (lit "title") (lit "startDate") (lit "endDate").

(** Lowercase, for ASCII letters. *)
Definition lowerASCII (t : text) : text :=
  map (fun c => if (65 <=? c)%N && (c <=? 90)%N then (c + 32)%N else c) t.

(** A record that holds a full name only. *)
Definition named (fullName : text) : record := <[lit "fullName" := fullName]> ∅.

End MoreSamples.

(** * Properties *)

Module RegistryFacts.
Import Registry.

Section WithParameters.
Context {Ref : Type}.
Implicit Types (o v n node frontier : jsobject Ref) (p q : list string) (r : Ref).

Lemma sameHead_setOwn key v o : sameHead o (setOwn key v o).
Proof. destruct o; simpl; auto. Qed.

Lemma own_setOwn key v o : own (setOwn key v o) = <[key := v]> (own o).
Proof. destruct o; reflexivity. Qed.

Lemma setOwn_id key v o : own o !! key = Some v -> setOwn key v o = o.
Proof. destruct o; simpl; intros H; f_equal; apply insert_id, H. Qed.

Lemma nodeAfter_relink key parent w n :
  nodeAfter (relink key parent w) = Some n ->
  exists child, nodeAfter w = Some child /\ n = setOwn key child parent.
Proof. destruct w; simpl; intros H; inversion H; eauto. Qed.

Lemma walk_sameHead p r o n :
  nodeAfter (walk p r o) = Some n -> sameHead o n.
Proof.
  destruct p as [|b p]; simpl.
  - destruct (own o !! parametersKey); simpl; intros H; inversion H; subst.
    + destruct n; simpl; auto.
    + apply sameHead_setOwn.
  - destruct (own o !! b).
    + intros H. apply nodeAfter_relink in H as (c & _ & ->). apply sameHead_setOwn.
    + destruct (inherited b o); [discriminate|].
      intros H. apply nodeAfter_relink in H as (c & _ & ->). apply sameHead_setOwn.
Qed.

(** Nothing that was retrievable is lost or replaced by a later walk. *)
Lemma walk_keeps_parameters q r o n :
  nodeAfter (walk q r o) = Some n ->
  forall p x, getParameters p o = Some x -> getParameters p n = Some x.
Proof.
  revert o n. induction q as [|b q IH]; intros o n Hw p x Hp.
  - simpl in Hw. destruct (own o !! parametersKey) eqn:Hk; simpl in Hw;
      inversion Hw; subst; [assumption|].
    destruct p as [|c p]; simpl in *.
    + rewrite Hk in Hp. discriminate.
    + rewrite own_setOwn. destruct (decide (parametersKey = c)) as [<-|Hne].
      * rewrite Hk in Hp. discriminate.
      * rewrite lookup_insert_ne by assumption. exact Hp.
  - simpl in Hw.
    assert (Hstep : exists child child',
      (own o !! b = Some child \/ (own o !! b = None /\ child = Plain ∅)) /\
      nodeAfter (walk q r child) = Some child' /\ n = setOwn b child' o).
    { destruct (own o !! b) as [child|] eqn:Hb.
      - apply nodeAfter_relink in Hw as (c' & Hc & ->). eauto 6.
      - destruct (inherited b o); [discriminate|].
        apply nodeAfter_relink in Hw as (c' & Hc & ->). eauto 8. }
    destruct Hstep as (child & child' & Hchild & Hc & ->).
    destruct p as [|c p]; simpl in *; rewrite own_setOwn.
    + destruct (decide (b = parametersKey)) as [->|Hne].
      * rewrite lookup_insert_eq.
        destruct Hchild as [Hb|[Hb ->]]; rewrite Hb in Hp; [|discriminate].
        apply walk_sameHead in Hc.
        destruct child, child'; simpl in Hc; try contradiction; congruence.
      * rewrite lookup_insert_ne by assumption. exact Hp.
    + destruct (decide (b = c)) as [->|Hne].
      * rewrite lookup_insert_eq.
        destruct Hchild as [Hb|[Hb ->]]; rewrite Hb in Hp; [|discriminate].
        eapply IH; eassumption.
      * rewrite lookup_insert_ne by assumption. exact Hp.
Qed.

Lemma getParameters_occupied p o x :
  getParameters p o = Some x -> occupied p o = true.
Proof.
  revert o. induction p as [|b p IH]; intros o; simpl.
  - destruct (own o !! parametersKey); [|discriminate].
    intros _. apply bool_decide_eq_true. eauto.
  - destruct (own o !! b); [apply IH|discriminate].
Qed.

(** On an occupied path the walk creates nothing and reports the clash. *)
Lemma walk_occupied p r o :
  occupied p o = true -> walk p r o = Occupied o.
Proof.
  revert o. induction p as [|b p IH]; intros o; simpl.
  - intros H. apply bool_decide_eq_true in H as [v Hv]. rewrite Hv. reflexivity.
  - destruct (own o !! b) as [child|] eqn:Hb; [|discriminate].
    intros H. rewrite (IH _ H). simpl. f_equal. apply setOwn_id, Hb.
Qed.

Lemma walk_attached p r o n :
  walk p r o = Attached n -> getParameters p n = Some r /\ occupied p o = false.
Proof.
  revert o n. induction p as [|b p IH]; intros o n; simpl.
  - destruct (own o !! parametersKey) eqn:Hk; [discriminate|].
    intros H; inversion H; subst. rewrite own_setOwn, lookup_insert_eq.
    split; [reflexivity|]. apply bool_decide_eq_false.
    intros [? ?]; discriminate.
  - destruct (own o !! b) as [child|] eqn:Hb.
    + destruct (walk p r child) eqn:Hw; simpl; try discriminate.
      intros H; inversion H; subst. rewrite own_setOwn, lookup_insert_eq.
      apply IH, Hw.
    + destruct (inherited b o); [discriminate|].
      destruct (walk p r (Plain ∅)) eqn:Hw; simpl; try discriminate.
      intros H; inversion H; subst. rewrite own_setOwn, lookup_insert_eq.
      split; [|reflexivity]. apply (IH _ _ Hw).
Qed.

Lemma plainAlong_Plain p o : plainAlong p o -> exists props, o = Plain props.
Proof. destruct p, o; simpl; intros H; try contradiction; eauto. Qed.

Lemma plainAlong_fresh p : plainAlong p (Plain (∅ : gmap string (jsobject Ref))).
Proof. destruct p; simpl; [exact I|]. rewrite lookup_empty. exact I. Qed.

Lemma plainAlong_child b p o child :
  plainAlong (b :: p) o -> own o !! b = Some child -> plainAlong p child.
Proof. destruct o; simpl; [|contradiction]. intros H Hb. rewrite Hb in H. exact H. Qed.

Lemma ordinary_not_inherited b props :
  ordinary b -> inherited b (Plain props : jsobject Ref) = false.
Proof. intros (_ & Ho). simpl. apply bool_decide_eq_false, Ho. Qed.

(** With ordinary segments, through object literals, the walk never leaves
    the trie, so a free path is always attached. *)
Lemma walk_free p r o :
  Forall ordinary p -> plainAlong p o -> occupied p o = false ->
  exists n, walk p r o = Attached n.
Proof.
  revert o. induction p as [|b p IH]; intros o Hp Hplain; simpl.
  - destruct (own o !! parametersKey) eqn:Hk; [|eauto].
    intros H. apply bool_decide_eq_false in H. destruct H. eauto.
  - apply Forall_cons in Hp as [Hb Hp].
    destruct (own o !! b) as [child|] eqn:Hob.
    + intros H.
      destruct (IH child Hp (plainAlong_child _ _ _ _ Hplain Hob) H) as [n ->].
      simpl. eauto.
    + destruct (plainAlong_Plain _ _ Hplain) as [props ->].
      rewrite (ordinary_not_inherited _ _ Hb). intros _.
      destruct (IH (Plain ∅) Hp (plainAlong_fresh p)) as [n ->]; [|simpl; eauto].
      destruct p; simpl; [|rewrite lookup_empty; reflexivity].
      apply bool_decide_eq_false. rewrite lookup_empty. intros [? ?]; discriminate.
Qed.

(** A walk along segments other than the reserved key puts object literals
    only under such segments. *)
Lemma walk_plainAlong q r o n :
  Forall (fun b => b <> parametersKey) q ->
  nodeAfter (walk q r o) = Some n ->
  forall p, Forall (fun b => b <> parametersKey) p ->
    plainAlong p o -> plainAlong p n.
Proof.
  revert o n. induction q as [|c q IH]; intros o n Hq Hw p Hp Hplain.
  - destruct (plainAlong_Plain _ _ Hplain) as [props ->].
    simpl in Hw. destruct (props !! parametersKey) eqn:Hk; simpl in Hw;
      inversion Hw; subst; [exact Hplain|].
    destruct p as [|b p]; simpl; [exact I|].
    apply Forall_cons in Hp as [Hb _].
    rewrite lookup_insert_ne by (intros Heq; apply Hb; symmetry; exact Heq).
    exact Hplain.
  - apply Forall_cons in Hq as [Hc Hq]. simpl in Hw.
    assert (Hstep : exists child child',
      (own o !! c = Some child \/ (own o !! c = None /\ child = Plain ∅)) /\
      nodeAfter (walk q r child) = Some child' /\ n = setOwn c child' o).
    { destruct (own o !! c) as [child|] eqn:Hoc.
      - apply nodeAfter_relink in Hw as (c' & Hc' & ->). eauto 6.
      - destruct (inherited c o); [discriminate|].
        apply nodeAfter_relink in Hw as (c' & Hc' & ->). eauto 8. }
    destruct Hstep as (child & child' & Hchild & Hw' & ->).
    destruct (plainAlong_Plain _ _ Hplain) as [props ->]. simpl in Hchild.
    destruct p as [|b p]; simpl; [exact I|].
    apply Forall_cons in Hp as [Hb Hp].
    destruct (decide (c = b)) as [->|Hne].
    + rewrite lookup_insert_eq. apply (IH _ _ Hq Hw' _ Hp).
      destruct Hchild as [Hsome|[_ ->]]; [|apply plainAlong_fresh].
      simpl in Hplain. rewrite Hsome in Hplain. exact Hplain.
    + rewrite lookup_insert_ne by assumption. exact Hplain.
Qed.

Lemma occupied_fresh q (node : jsobject Ref) :
  own node = ∅ -> occupied q node = false.
Proof.
  intros H. destruct q; simpl; rewrite H, lookup_empty; [|reflexivity].
  apply bool_decide_eq_false. intros [? ?]; discriminate.
Qed.

(** Attaching at [p], a path that does not use the reserved key as a segment,
    changes which paths are occupied at [p] only. *)
Lemma walk_occupied_elsewhere p r o n q :
  Forall (fun b => b <> parametersKey) p ->
  walk p r o = Attached n -> q <> p -> occupied q n = occupied q o.
Proof.
  revert o n q. induction p as [|b p IH]; intros o n q Hp; simpl.
  - destruct (own o !! parametersKey) eqn:Hk; [discriminate|].
    intros H Hq; inversion H; subst.
    destruct q as [|c q]; [contradiction|]. simpl. rewrite own_setOwn.
    destruct (decide (parametersKey = c)) as [<-|Hne].
    + rewrite lookup_insert_eq, Hk. apply occupied_fresh. reflexivity.
    + rewrite lookup_insert_ne by assumption. reflexivity.
  - apply Forall_cons in Hp as [Hb Hp].
    intros Hw Hq.
    assert (Hstep : exists child child',
      (own o !! b = Some child \/ (own o !! b = None /\ child = Plain ∅)) /\
      walk p r child = Attached child' /\ n = setOwn b child' o).
    { destruct (own o !! b) as [child|] eqn:Hob.
      - destruct (walk p r child) eqn:E; simpl in Hw; inversion Hw; eauto 6.
      - destruct (inherited b o); [discriminate|].
        destruct (walk p r (Plain ∅)) eqn:E; simpl in Hw; inversion Hw; eauto 8. }
    destruct Hstep as (child & child' & Hchild & Hc & ->).
    destruct q as [|c q]; simpl; rewrite own_setOwn.
    + rewrite lookup_insert_ne by assumption. reflexivity.
    + destruct (decide (b = c)) as [->|Hne].
      * rewrite lookup_insert_eq.
        assert (Hq' : q <> p) by congruence.
        rewrite (IH _ _ _ Hp Hc Hq').
        destruct Hchild as [->|[-> ->]]; [reflexivity|].
        apply occupied_fresh. reflexivity.
      * rewrite lookup_insert_ne by assumption. reflexivity.
Qed.

Lemma stateAfter_addCommandPath p r o root :
  stateAfter (addCommandPath p r o) = Some root ->
  nodeAfter (walk p r o) = Some root.
Proof. unfold addCommandPath. destruct (walk p r o); simpl; auto. Qed.

(** The registry is append-only over any sequence of calls. *)
Lemma calls_keep_parameters cs o root :
  calls cs o = Some root ->
  forall p x, getParameters p o = Some x -> getParameters p root = Some x.
Proof.
  revert o. induction cs as [|[q r] cs IH]; intros o; simpl.
  - intros H; inversion H; subst; auto.
  - destruct (stateAfter (addCommandPath q r o)) as [mid|] eqn:Hq; [|discriminate].
    intros Hcs p x Hp. apply (IH _ Hcs).
    eapply walk_keeps_parameters; [apply stateAfter_addCommandPath, Hq|exact Hp].
Qed.

(** C1. Once [addCommandPath p first] has returned, and whatever calls come
    in between (returning or throwing), a second [addCommandPath p _] throws
    the error "Non-unique command path: " followed by the joined segments,
    leaves the registry as it found it, and the accessor stored under [p]
    still returns [first]. *)
Theorem duplicate_path_rejected
    (commandPaths root1 root2 : jsobject Ref) (p : list string)
    (first second : Ref) (between : list (list string * Ref)) :
  addCommandPath p first commandPaths = Returned root1 ->
  calls between root1 = Some root2 ->
  addCommandPath p second root2
    = Threw ("Non-unique command path: " ++ join p) root2
  /\ getParameters p root2 = Some first.
Proof.
  intros Hfirst Hbetween.
  assert (Hp : getParameters p root2 = Some first).
  { apply (calls_keep_parameters _ _ _ Hbetween).
    unfold addCommandPath in Hfirst.
    destruct (walk p first commandPaths) eqn:Hw; inversion Hfirst; subst.
    apply (walk_attached _ _ _ _ Hw). }
  split; [|exact Hp].
  unfold addCommandPath.
  rewrite (walk_occupied _ _ _ (getParameters_occupied _ _ _ Hp)).
  reflexivity.
Qed.

(** Registering pairwise distinct, unoccupied paths made of ordinary
    segments: every call returns, every path yields its own value, and what
    was retrievable before stays so. *)
Lemma registerAll_ordinary cs o :
  NoDup (map fst cs) ->
  Forall (fun c => Forall ordinary (fst c)) cs ->
  Forall (fun c => plainAlong (fst c) o /\ occupied (fst c) o = false) cs ->
  exists root, registerAll cs o = Some root
    /\ (forall p r, (p, r) ∈ cs -> getParameters p root = Some r)
    /\ (forall q x, getParameters q o = Some x -> getParameters q root = Some x).
Proof.
  revert o. induction cs as [|[p r] cs IH]; intros o Hnd Hord Hfree; simpl.
  - exists o. split; [reflexivity|]. split; [|auto].
    intros p r Hin. inversion Hin.
  - simpl in Hnd. apply NoDup_cons in Hnd as [Hnotin Hnd].
    apply Forall_cons in Hord as [Hp Hord].
    apply Forall_cons in Hfree as [[Hpp Hfp] Hfree]. simpl in Hp, Hpp, Hfp.
    assert (Hp' : Forall (fun b => b <> parametersKey) p).
    { eapply Forall_impl; [exact Hp|]. intros b Hb. apply Hb. }
    destruct (walk_free p r o Hp Hpp Hfp) as [mid Hw].
    unfold addCommandPath. rewrite Hw.
    destruct (IH mid Hnd Hord) as (root & Hreg & Hmine & Hold).
    + rewrite Forall_forall in Hfree, Hord. apply Forall_forall.
      intros [q x] Hin. simpl. destruct (Hfree _ Hin) as [Hqp Hqf]. split.
      * apply (walk_plainAlong p r o mid Hp'); [rewrite Hw; reflexivity| |exact Hqp].
        eapply Forall_impl; [exact (Hord _ Hin)|]. intros b Hb. apply Hb.
      * rewrite (walk_occupied_elsewhere p r o mid q Hp' Hw); [exact Hqf|].
        intros ->. apply Hnotin. apply list_elem_of_fmap. exists (p, x). auto.
    + exists root. split; [exact Hreg|]. split.
      * intros q x Hin. apply elem_of_cons in Hin as [Heq|Hin].
        -- inversion Heq; subst. apply Hold. apply (walk_attached _ _ _ _ Hw).
        -- apply Hmine, Hin.
      * intros q x Hq. apply Hold.
        apply (walk_keeps_parameters p r o mid); [rewrite Hw; reflexivity|exact Hq].
Qed.

(** C2, as amended. Starting from the empty registry [commandPaths : {}],
    for pairwise distinct segment sequences none of whose segments is the
    reserved key [_parameters] or a name inherited from [Object.prototype],
    every call returns and afterwards the accessor under each path returns
    the very value that was passed with that path. *)
Theorem distinct_ordinary_paths_register (cs : list (list string * Ref)) :
  NoDup (map fst cs) ->
  Forall (fun c => Forall ordinary (fst c)) cs ->
  exists root, registerAll cs (Plain ∅) = Some root
    /\ forall p r, (p, r) ∈ cs -> getParameters p root = Some r.
Proof.
  intros Hnd Hord.
  destruct (registerAll_ordinary cs (Plain ∅) Hnd Hord) as (root & H1 & H2 & _).
  - apply Forall_forall. intros c _. split.
    + apply plainAlong_fresh.
    + apply occupied_fresh. reflexivity.
  - eauto.
Qed.

End WithParameters.
End RegistryFacts.

Module StringFacts.

Lemma append_cons (x : ascii) (a b : string) : String x a ++ b = String x (a ++ b).
Proof. reflexivity. Qed.

Lemma append_nil_l (a : string) : "" ++ a = a.
Proof. reflexivity. Qed.

Lemma append_assoc (a b c : string) : (a ++ b) ++ c = a ++ (b ++ c).
Proof.
  induction a as [|x a IH]; [reflexivity|].
  rewrite !append_cons, IH. reflexivity.
Qed.

Lemma append_nil_r (a : string) : a ++ "" = a.
Proof.
  induction a as [|x a IH]; [reflexivity|].
  rewrite append_cons, IH. reflexivity.
Qed.

Lemma length_append (a b : string) :
  String.length (a ++ b) = (String.length a + String.length b)%nat.
Proof.
  induction a as [|x a IH]; [reflexivity|].
  rewrite append_cons. simpl. rewrite IH. reflexivity.
Qed.

Lemma length_of_list (l : list ascii) :
  String.length (string_of_list_ascii l) = length l.
Proof. induction l as [|x l IH]; simpl; [reflexivity|]. rewrite IH. reflexivity. Qed.

Lemma get_nth_error (s : string) (i : nat) :
  String.get i s = nth_error (list_ascii_of_string s) i.
Proof.
  revert i. induction s as [|x s IH]; intros [|i]; simpl; auto.
Qed.

Lemma of_list_inj (l1 l2 : list ascii) :
  string_of_list_ascii l1 = string_of_list_ascii l2 -> l1 = l2.
Proof.
  intros H. rewrite <- (list_ascii_of_string_of_list_ascii l1), H.
  apply list_ascii_of_string_of_list_ascii.
Qed.

End StringFacts.

Module PipelineFacts.
Import Model ErrorPipeline.

(** *** The eviction loop *)

(** What is left is the tail of the array: the entries dropped are the oldest
    ones, and the entries kept are in their original order. *)
Lemma evict_suffix i errors : evict i errors `suffix_of` errors.
Proof.
  revert i. induction errors as [|e errors IH]; intros i; simpl.
  - reflexivity.
  - destruct ((1000 <? S (length errors))%nat && (i <? S (length errors))%nat).
    + apply suffix_cons_r, IH.
    + reflexivity.
Qed.

(** The loop stops as soon as the counter reaches the length that is left,
    which is half of what it started with. *)
Lemma evict_length i errors :
  length (evict i errors)
  = if (1000 <? length errors)%nat && (i <? length errors)%nat
    then Nat.max 1000 ((i + length errors) / 2)
    else length errors.
Proof.
  revert i. induction errors as [|e errors IH]; intros i; [reflexivity|].
  cbn [evict]. cbn [length].
  destruct (Nat.ltb_spec 1000 (S (length errors))) as [Hbig|Hsmall];
    destruct (Nat.ltb_spec i (S (length errors))) as [Hi|Hi]; cbn [andb];
    try reflexivity.
  rewrite IH.
  pose proof (Nat.div_mod_eq (i + S (length errors)) 2) as Hdiv.
  pose proof (Nat.mod_upper_bound (i + S (length errors)) 2) as Hmod.
  destruct (Nat.ltb_spec 1000 (length errors));
    destruct (Nat.ltb_spec (S i) (length errors)); cbn [andb].
  - replace (S i + length errors)%nat with (i + S (length errors))%nat by lia.
    reflexivity.
  - lia.
  - lia.
  - lia.
Qed.

(** From at most 2001 entries the loop leaves at most 1000. *)
Lemma evict_capped errors :
  length errors <= 2001 -> length (evict 0 errors) = Nat.min 1000 (length errors).
Proof.
  intros H. rewrite evict_length.
  pose proof (Nat.div_mod_eq (0 + length errors) 2) as Hdiv.
  pose proof (Nat.mod_upper_bound (0 + length errors) 2) as Hmod.
  destruct (Nat.ltb_spec 1000 (length errors));
    destruct (Nat.ltb_spec 0 (length errors)); cbn [andb]; lia.
Qed.

Section Random.
Variable randomIndex : nat -> nat.

Lemma makeID_frame n w :
  let w' := snd (makeID randomIndex n w) in
  ext w' = ext w /\ arrays w' = arrays w /\ files w' = files w
  /\ routerStack w' = routerStack w /\ console w' = console w.
Proof.
  unfold makeID. destruct (makeIDLoop randomIndex n "" (randomCalls w)).
  simpl. auto.
Qed.

(** The capture stage rewrites one array, the one [app.ext.errorsEphemeral]
    refers to, and nothing else of [app.ext] or of the store. *)
Lemma capture_arrays now error w :
  let w' := snd (capture randomIndex now error w) in
  ext w' = ext w
  /\ exists errorID,
       liqID (fst (capture randomIndex now error w)) = Some errorID
       /\ errorID = fst (makeID randomIndex 5 w)
       /\ arrays w' =
            <[errorsEphemeral (ext w) :=
                evict 0 (arrayAt (errorsEphemeral (ext w)) w
                          ++ [mkErrorRecord errorID (message error) (stack error) now])%list]>
              (arrays w).
Proof.
  unfold capture.
  pose proof (makeID_frame 5 w) as Hframe.
  destruct (makeID randomIndex 5 w) as [errorID w1]. simpl in Hframe.
  destruct Hframe as (Hext & Harr & _). simpl.
  split; [exact Hext|]. exists errorID. split; [reflexivity|]. split; [reflexivity|].
  unfold arrayAt. rewrite Harr. reflexivity.
Qed.

Lemma capture_ephemeral now error w :
  let w' := snd (capture randomIndex now error w) in
  exists errorID,
    arrayAt (errorsEphemeral (ext w')) w'
    = evict 0 (arrayAt (errorsEphemeral (ext w)) w
                ++ [mkErrorRecord errorID (message error) (stack error) now])%list.
Proof.
  destruct (capture_arrays now error w) as (Hext & errorID & _ & _ & Harr).
  exists errorID. cbv zeta. unfold arrayAt at 1. rewrite Hext, Harr, lookup_insert_eq.
  reflexivity.
Qed.

(** Starting from an array within the cap, as every array is that only the
    capture stage has written to, the stage leaves the last 1000 of the
    entries, the new one included. *)
Lemma capture_within_cap now error w :
  let errors := arrayAt (errorsEphemeral (ext w)) w in
  let w' := snd (capture randomIndex now error w) in
  let errors' := arrayAt (errorsEphemeral (ext w')) w' in
  length errors <= 2000 ->
  length errors' = Nat.min 1000 (S (length errors))
  /\ exists record, errors' `suffix_of` (errors ++ [record])%list.
Proof.
  cbv zeta. intros Hlen.
  destruct (capture_ephemeral now error w) as (errorID & ->).
  split.
  - rewrite evict_capped; rewrite length_app; cbn [length]; lia.
  - eexists. apply evict_suffix.
Qed.

(** C3, where the code departs from it.  When the array holds 2001 entries,
    the capture stage appends one and evicts 1001: 1001 entries are left, one
    more than the cap, because the loop counter [i] is compared with the
    length of the array as it shrinks. *)
Theorem capture_overflow_leaves_1001 now error w :
  length (arrayAt (errorsEphemeral (ext w)) w) = 2001 ->
  let w' := snd (capture randomIndex now error w) in
  length (arrayAt (errorsEphemeral (ext w')) w') = 1001.
Proof.
  intros Hlen. cbv zeta.
  destruct (capture_ephemeral now error w) as (errorID & ->).
  rewrite evict_length, length_app, Hlen. reflexivity.
Qed.

(** *** [makeID] *)

Hypothesis randomIndex_bound : forall k, randomIndex k < charactersLength.

#[local] Abbreviation picked := (ErrorPipeline.picked randomIndex).

Lemma charAt_characters i :
  i < charactersLength ->
  charAt characters i = String (nth i alphabet "a"%char) EmptyString.
Proof.
  intros Hi. unfold charAt. rewrite StringFacts.get_nth_error.
  fold alphabet. rewrite (nth_error_nth' alphabet "a"%char); [reflexivity|].
  exact Hi.
Qed.

Lemma makeIDLoop_picked n result k :
  makeIDLoop randomIndex n result k
  = (result ++ string_of_list_ascii (picked k n), (k + n)%nat).
Proof.
  revert result k. induction n as [|n IH]; intros result k; simpl.
  - rewrite StringFacts.append_nil_r. f_equal. lia.
  - rewrite IH, charAt_characters by apply randomIndex_bound.
    rewrite StringFacts.append_assoc, StringFacts.append_cons. f_equal. lia.
Qed.

Lemma makeID_picked n w :
  fst (makeID randomIndex n w) = string_of_list_ascii (picked (randomCalls w) n).
Proof. unfold makeID. rewrite makeIDLoop_picked. reflexivity. Qed.

Lemma alphabet_NoDup : List.NoDup alphabet.
Proof. apply NoDup_ListNoDup, (bool_decide_unpack _). vm_compute. exact I. Qed.

Lemma picked_inj k1 k2 n :
  picked k1 n = picked k2 n <->
  forall j, j < n -> randomIndex (k1 + j) = randomIndex (k2 + j).
Proof.
  revert k1 k2. induction n as [|n IH]; intros k1 k2.
  - split; [intros _ j Hj; lia|reflexivity].
  - unfold picked. cbn [seq map]. fold (picked (S k1) n). fold (picked (S k2) n).
    split.
    + intros H. inversion H as [[Hhead Htail]].
      pose proof (proj1 (IH _ _) Htail) as Hrest. intros [|j] Hj.
      * rewrite !Nat.add_0_r.
        apply (proj1 (NoDup_nth alphabet "a"%char) alphabet_NoDup);
          try apply randomIndex_bound. exact Hhead.
      * replace (k1 + S j)%nat with (S k1 + j)%nat by lia.
        replace (k2 + S j)%nat with (S k2 + j)%nat by lia.
        apply Hrest. lia.
    + intros H. f_equal.
      * specialize (H 0%nat ltac:(lia)). rewrite !Nat.add_0_r in H. rewrite H. reflexivity.
      * apply (proj2 (IH _ _)). intros j Hj. specialize (H (S j) ltac:(lia)).
        replace (k1 + S j)%nat with (S k1 + j)%nat in H by lia.
        replace (k2 + S j)%nat with (S k2 + j)%nat in H by lia. exact H.
Qed.

Lemma picked_fromAlphabet k n : fromAlphabet (string_of_list_ascii (picked k n)).
Proof.
  intros c. rewrite list_ascii_of_string_of_list_ascii. unfold picked.
  rewrite in_map_iff. intros (j & <- & _).
  apply nth_In, randomIndex_bound.
Qed.

(** C4, as amended.  The identifier the capture stage attaches has exactly
    five characters, all from [characters]; the identifiers attached for two
    exceptions are equal exactly when the five draws made for the one are
    the five draws made for the other, and nothing else keeps them apart. *)
Theorem correlation_ids now1 error1 w1 now2 error2 w2 :
  exists id1 id2,
    liqID (fst (capture randomIndex now1 error1 w1)) = Some id1
    /\ liqID (fst (capture randomIndex now2 error2 w2)) = Some id2
    /\ String.length id1 = 5 /\ String.length id2 = 5
    /\ fromAlphabet id1 /\ fromAlphabet id2
    /\ (id1 = id2 <->
         forall j, j < 5 ->
           randomIndex (randomCalls w1 + j) = randomIndex (randomCalls w2 + j)).
Proof.
  destruct (capture_arrays now1 error1 w1) as (_ & id1 & H1 & E1 & _).
  destruct (capture_arrays now2 error2 w2) as (_ & id2 & H2 & E2 & _).
  exists id1, id2. rewrite makeID_picked in E1, E2. subst id1 id2.
  assert (Hlen : forall k, String.length (string_of_list_ascii (picked k 5)) = 5%nat).
  { intros k. rewrite StringFacts.length_of_list. unfold picked.
    rewrite length_map, length_seq. reflexivity. }
  split; [exact H1|]. split; [exact H2|].
  split; [apply Hlen|]. split; [apply Hlen|].
  split; [apply picked_fromAlphabet|]. split; [apply picked_fromAlphabet|].
  split.
  - intros H. apply (proj1 (picked_inj _ _ _)), StringFacts.of_list_inj, H.
  - intros H. f_equal. apply (proj2 (picked_inj _ _ _)), H.
Qed.

(** *** Both stages *)
Lemma pipeline_world now error req res w :
  snd (pipeline randomIndex now error req res w)
  = snd (capture randomIndex now error w).
Proof.
  unfold pipeline. destruct (capture randomIndex now error w). reflexivity.
Qed.

(** C10. With [errorsRetained] and [errorsEphemeral] two arrays, as [appInit]
    creates them, an exception going through both stages leaves
    [app.ext.errorsRetained] referring to the same array with the same
    entries. *)
Theorem pipeline_keeps_errorsRetained now error req res w :
  errorsEphemeral (ext w) <> errorsRetained (ext w) ->
  let w' := snd (pipeline randomIndex now error req res w) in
  errorsRetained (ext w') = errorsRetained (ext w)
  /\ arrays w' !! errorsRetained (ext w') = arrays w !! errorsRetained (ext w).
Proof.
  intros Hne. cbv zeta. rewrite pipeline_world.
  destruct (capture_arrays now error w) as (Hext & errorID & _ & _ & Harr).
  rewrite Hext, Harr. split; [reflexivity|].
  apply lookup_insert_ne, Hne.
Qed.

End Random.

(** *** Stripping the markup *)

Lemma lowercase_not_close : lowercase ">" = false.
Proof. reflexivity. Qed.

Lemma closeTag_split seen s rest :
  closeTag seen s = Some rest ->
  exists name, letters name /\ (seen = false -> name <> "") /\ s = name ++ ">" ++ rest.
Proof.
  revert seen. induction s as [|c s IH]; intros seen; simpl; [discriminate|].
  destruct (lowercase c) eqn:Hc.
  - intros H. destruct (IH _ H) as (name & Hl & _ & ->).
    exists (String c name). simpl. split; [auto|]. split; [discriminate|reflexivity].
  - destruct (Ascii.eqb_spec c ">") as [->|]; [|discriminate].
    destruct seen; [|discriminate]. intros H; inversion H; subst.
    exists "". simpl. split; [exact I|]. split; [discriminate|reflexivity].
Qed.

Lemma closeTag_letters seen name rest :
  letters name -> (seen = true \/ name <> "") ->
  closeTag seen (name ++ ">" ++ rest) = Some rest.
Proof.
  revert seen. induction name as [|c name IH]; intros seen Hl Hseen.
  - destruct Hseen as [->|Hne]; [|contradiction]. reflexivity.
  - destruct Hl as [Hc Hl]. rewrite StringFacts.append_cons. simpl. rewrite Hc.
    apply IH; auto.
Qed.

Lemma matchTag_split s rest :
  matchTag s = Some rest -> exists t, isTag t /\ s = t ++ rest.
Proof.
  destruct s as [|c s]; simpl; [discriminate|].
  destruct (Ascii.eqb_spec c "<") as [->|]; [|discriminate].
  intros H. apply closeTag_split in H as (name & Hl & Hne & ->).
  exists ("<" ++ name ++ ">"). split.
  - exists name. auto.
  - change ("<" ++ name ++ ">") with (String "<" (name ++ ">")).
    rewrite (StringFacts.append_cons "<"), StringFacts.append_assoc. reflexivity.
Qed.

Lemma matchTag_tag t rest : isTag t -> matchTag (t ++ rest) = Some rest.
Proof.
  intros (name & Hne & Hl & ->).
  change ("<" ++ name ++ ">") with (String "<" (name ++ ">")).
  rewrite (StringFacts.append_cons "<"), StringFacts.append_assoc. simpl.
  apply closeTag_letters; auto.
Qed.

Lemma matchTag_extend s rest more :
  matchTag s = Some rest -> matchTag (s ++ more) = Some (rest ++ more).
Proof.
  intros H. apply matchTag_split in H as (t & Ht & ->).
  rewrite StringFacts.append_assoc. apply matchTag_tag, Ht.
Qed.

Lemma tagFree_nil : tagFree "".
Proof.
  intros before t rest H (name & _ & _ & ->).
  destruct before; [|rewrite StringFacts.append_cons in H; discriminate].
  discriminate.
Qed.

Lemma tagFree_cons c s :
  matchTag (String c s) = None -> tagFree s -> tagFree (String c s).
Proof.
  intros Hnone Hfree before t rest H Ht.
  destruct before as [|d before].
  - rewrite StringFacts.append_nil_l in H. rewrite H, (matchTag_tag _ _ Ht) in Hnone.
    discriminate.
  - rewrite StringFacts.append_cons in H. inversion H; subst.
    exact (Hfree _ _ _ eq_refl Ht).
Qed.

Lemma Stripped_cons c s stripped :
  matchTag (String c s) = None -> Stripped s stripped ->
  Stripped (String c s) (String c stripped).
Proof.
  intros Hnone H. destruct H as [s Hfree|stretch t rest rest' Hfree Ht Hrest].
  - apply Stripped_last, tagFree_cons; assumption.
  - rewrite <- !StringFacts.append_cons. apply Stripped_tag; try assumption.
    apply tagFree_cons; [|assumption].
    destruct (matchTag (String c stretch)) eqn:Hm; [|reflexivity].
    apply (matchTag_extend _ _ (t ++ rest)) in Hm.
    rewrite StringFacts.append_cons in Hm. congruence.
Qed.

(** The replacement drops exactly the tags of the text. *)
Lemma stripTags_Stripped s : Stripped s (stripTags s).
Proof.
  funelim (stripTags s).
  - apply Stripped_last, tagFree_nil.
  - destruct (matchTag_split _ _ e) as (t & Ht & Hs). rewrite Hs.
    apply (Stripped_tag "" t rest (stripTags rest) tagFree_nil Ht).
    assumption.
  - apply Stripped_cons; assumption.
Qed.

(** One pass only: what is left can itself contain a tag, put together from
    the text on both sides of a tag that was dropped. *)
Remark stripTags_one_pass : stripTags "<<em>b>" = "<b>".
Proof. reflexivity. Qed.

(** *** The present stage *)

(** C5, as amended. With the headers not yet sent: if [req.accepts('html')]
    the stage calls [next(error)] and sends nothing; otherwise, if
    [req.accepts('text/terminal')], it sends the composed message as it is
    under content-type [text/terminal]; otherwise it sends, under content-type
    [text/plain], the message with its markup tags dropped in one pass: the
    message is cut into stretches that hold no tag, separated by tags, and
    the stretches are sent.  What the stretches read once they are put
    together is not looked at again. *)
Theorem present_negotiates error req res :
  headersSent res = false ->
  (accepts req "html" = true ->
     fst (present error req res) = Next error
     /\ body (snd (present error req res)) = body res
     /\ headersSent (snd (present error req res)) = false)
  /\ (accepts req "html" = false -> accepts req "text/terminal" = true ->
     fst (present error req res) = Answered
     /\ body (snd (present error req res)) = Some (compose error)
     /\ headers (snd (present error req res)) !! "content-type" = Some "text/terminal")
  /\ (accepts req "html" = false -> accepts req "text/terminal" = false ->
     fst (present error req res) = Answered
     /\ (exists stripped,
          body (snd (present error req res)) = Some stripped
          /\ Stripped (compose error) stripped)
     /\ headers (snd (present error req res)) !! "content-type" = Some "text/plain").
Proof.
  intros Hsent. unfold present. rewrite Hsent.
  split; [|split].
  - intros ->. simpl. auto.
  - intros -> ->. simpl. rewrite lookup_insert_eq. auto.
  - intros -> ->. simpl. rewrite lookup_insert_eq.
    split; [reflexivity|]. split; [|reflexivity].
    eexists. split; [reflexivity|]. apply stripTags_Stripped.
Qed.

Lemma contains_here before needle after :
  contains needle (before ++ needle ++ after).
Proof. exists before, after. reflexivity. Qed.

Lemma contains_append_l needle before text :
  contains needle text -> contains needle (before ++ text).
Proof.
  intros (a & b & ->). exists (before ++ a), b.
  rewrite StringFacts.append_assoc. reflexivity.
Qed.


Lemma errorSource_cases st :
  ((400 <= st < 500)%Z -> errorSource st = "Client")
  /\ ((500 <= st < 600)%Z -> errorSource st = "Server")
  /\ ((st < 400 \/ 600 <= st)%Z -> errorSource st = "Unknown").
Proof.
  unfold errorSource.
  destruct (Z.leb_spec 400 st), (Z.ltb_spec st 500), (Z.leb_spec 500 st),
    (Z.ltb_spec st 600); simpl; repeat split; intros; try reflexivity; lia.
Qed.


End PipelineFacts.

Module BootstrapFacts.
Import Model Bootstrap.

Lemma bind_Normal {A B : Type} (c : M A) (k : A -> M B) st b st' :
  bind c k st = (Normal b, st') ->
  exists a st1, c st = (Normal a, st1) /\ k a st1 = (Normal b, st').
Proof.
  unfold bind. destruct (c st) as [[a| |] st1]; try discriminate. eauto.
Qed.



(** Peels one [bind] off a hypothesis about a normal completion. *)
Ltac step H :=
  let a := fresh "a" in
  let st := fresh "st" in
  let Hc := fresh "Hc" in
  apply bind_Normal in H as (a & st & Hc & H);
  match type of a with
  | unit => destruct a
  | _ => idtac
  end.

Section WithEnvironment.
Variable env : Environment.

(** C7. When [serverHome] is missing ([undefined] or empty), [appInit]
    throws "No 'serverHome' defined; bailing out." at once: no collaborator
    was called, no middleware or handler installed, no plugin loaded, no file
    written; the world is as it was and there is no application to return. *)
Theorem appInit_without_serverHome steps options st :
  truthy (serverHome options) = false ->
  appInit env steps options st
  = (Abrupt "No 'serverHome' defined; bailing out.", st).
Proof. intros H. unfold appInit. rewrite H. reflexivity. Qed.

(** *** [getServerSettings] *)

Lemma getServerSettings_absent w events :
  files w !! joinPath (getLiqHome env) "server-settings.yaml" = None ->
  getServerSettings env (w, events)
  = (Normal (JObject [("registries", JArray [])]),
     (setFiles (<[joinPath (getLiqHome env) "server-settings.yaml"
                   := JObject [("registries", JArray [])]]> (files w)) w,
      (events ++ [WriteFile (joinPath (getLiqHome env) "server-settings.yaml")])%list)).
Proof. intros H. unfold getServerSettings, bind, getWorld. rewrite H. reflexivity. Qed.

Lemma getServerSettings_present w events data :
  files w !! joinPath (getLiqHome env) "server-settings.yaml" = Some data ->
  getServerSettings env (w, events)
  = (Normal (if falsy data then JObject [] else data),
     (w, (events ++ [ReadFile (joinPath (getLiqHome env) "server-settings.yaml")])%list)).
Proof. intros H. unfold getServerSettings, bind, getWorld. rewrite H. reflexivity. Qed.







(** And it comes to an end within one step more than the array is long,
    unless a handler throws. *)
Lemma flushPending_finishes steps i w events :
  pendingFrame env ->
  length (pendingHandlers (ext w)) - i < steps ->
  (forall k w, pendingHandler env k w <> Unfinished) ->
  fst (flushPending env steps i (w, events)) <> Unfinished.
Proof.
  intros Hframe. revert i w events.
  induction steps as [|steps IH]; intros i w events Hlen Hends; simpl.
  - lia.
  - unfold bind at 1. unfold getWorld.
    destruct (pendingHandlers (ext w) !! i) as [k|] eqn:Hk; [|discriminate].
    apply lookup_lt_Some in Hk.
    unfold bind, call.
    destruct (pendingHandler env k w) as [w1| |] eqn:Hw1; simpl; try discriminate.
    + apply IH; [|exact Hends]. rewrite (Hframe _ _ _ Hw1). lia.
    + exfalso. exact (Hends _ _ Hw1).
Qed.



Lemma registerAPI_run options home w events :
  registerAPI env options home (w, events)
  = if noAPIUpdate options then (Normal tt, (w, events))
    else
      match stringifyThrows env (handlers (ext w)) with
      | Some reason => (Abrupt reason, (w, (events ++ [Log "Registering API..."])%list))
      | None =>
          match writeFileRejects env (apiSpecFile options home) w with
          | Some reason => (Abrupt reason, (w, (events ++ [Log "Registering API..."])%list))
          | None =>
              (Normal tt,
               (setFiles (<[apiSpecFile options home := JArray (handlers (ext w))]> (files w))
                  w,
                (events
                 ++ [Log "Registering API..."; WriteFile (apiSpecFile options home)])%list))
          end
      end.
Proof.
  unfold registerAPI. destruct (noAPIUpdate options); [reflexivity|].
  unfold bind, emit, getWorld, throw, modify.
  destruct (stringifyThrows env (handlers (ext w))); [reflexivity|].
  destruct (writeFileRejects env (apiSpecFile options home) w); [reflexivity|].
  rewrite <- app_assoc. reflexivity.
Qed.


End WithEnvironment.
End BootstrapFacts.

Module RegistryExamples.
Import Registry RegistryFacts.

Lemma duplicate_path_rejected_witness :
  exists root1 root2 : jsobject nat,
    addCommandPath ["work"; "list"] 7 (Plain ∅) = Returned root1
    /\ calls [(["work"], 8); (["work"; "list"], 9)] root1 = Some root2
    /\ addCommandPath ["work"; "list"] 10 root2
         = Threw "Non-unique command path: work/list" root2
    /\ getParameters ["work"; "list"] root2 = Some 7.
Proof.
  eexists. eexists.
  split; [vm_compute; reflexivity|].
  split; [vm_compute; reflexivity|].
  eapply (duplicate_path_rejected (Plain ∅) _ _ ["work"; "list"] 7 10
            [(["work"], 8); (["work"; "list"], 9)]);
    vm_compute; reflexivity.
Defined.

(** C2 as stated fails: the two segment sequences [a/_parameters] and [a]
    are distinct, the first call returns, and the second throws, because the
    node created for the segment [_parameters] sits where [a]'s accessor is
    looked for. *)
Lemma distinct_paths_clash :
  let cs : list (list string * nat) := [(["a"; "_parameters"], 1); (["a"], 2)] in
  NoDup (map fst cs)
  /\ (exists root1,
        addCommandPath ["a"; "_parameters"] 1 (Plain ∅) = Returned root1
        /\ addCommandPath ["a"] 2 root1 = Threw "Non-unique command path: a" root1)
  /\ ~ (exists root, registerAll cs (Plain ∅) = Some root
        /\ forall p r, (p, r) ∈ cs -> getParameters p root = Some r).
Proof.
  cbv zeta. split; [|split].
  - apply (bool_decide_unpack _). vm_compute. exact I.
  - eexists. split; vm_compute; reflexivity.
  - intros (root & H & _). vm_compute in H. discriminate.
Qed.

Lemma distinct_ordinary_paths_register_witness :
  exists root : jsobject nat,
    registerAll [(["work"; "list"], 1); (["work"], 2); ([], 3); (["name"], 4)]
      (Plain ∅) = Some root
    /\ forall p r,
         (p, r) ∈ [(["work"; "list"], 1); (["work"], 2); ([], 3); (["name"], 4)] ->
         getParameters p root = Some r.
Proof.
  apply distinct_ordinary_paths_register.
  - apply (bool_decide_unpack _). vm_compute. exact I.
  - repeat (match goal with |- Forall _ _ => constructor end; simpl);
      unfold ordinary; split;
      apply (bool_decide_unpack _); vm_compute; exact I.
Defined.

End RegistryExamples.

Module PipelineExamples.
Import Model ErrorPipeline PipelineFacts Samples.


(** C4 as stated fails.  When the draws of the second request repeat those
    of the first, both exceptions get the identifier [abcde]. *)
Lemma equal_draws_equal_ids :
  let first := capture cycling 1 notFound (runningWorld 0) in
  let second := capture cycling 2 notFound (snd first) in
  (forall k, cycling k < charactersLength)
  /\ liqID (fst first) = Some "abcde"
  /\ liqID (fst second) = Some "abcde".
Proof.
  cbv zeta. split; [|split; vm_compute; reflexivity].
  intros k. unfold cycling. change charactersLength with 34%nat.
  pose proof (Nat.mod_upper_bound k 5). lia.
Qed.

Lemma sweeping_bound : forall k, sweeping k < charactersLength.
Proof.
  intros k. unfold sweeping. change charactersLength with 34%nat.
  apply Nat.mod_upper_bound. discriminate.
Qed.

Lemma correlation_ids_witness :
  (forall k, sweeping k < charactersLength)
  /\ exists id1 id2,
       liqID (fst (capture sweeping 1 notFound (runningWorld 0))) = Some id1
       /\ liqID (fst (capture sweeping 2 notFound (runningWorld 3))) = Some id2
       /\ String.length id1 = 5 /\ String.length id2 = 5
       /\ fromAlphabet id1 /\ fromAlphabet id2
       /\ (id1 = id2 <->
            forall j, j < 5 ->
              sweeping (randomCalls (runningWorld 0) + j)
              = sweeping (randomCalls (runningWorld 3) + j)).
Proof.
  split; [exact sweeping_bound|].
  apply (correlation_ids sweeping sweeping_bound).
Defined.

Lemma capture_overflow_leaves_1001_witness :
  length (arrayAt (errorsEphemeral (ext (runningWorld 2001))) (runningWorld 2001)) = 2001
  /\ length (arrayAt
               (errorsEphemeral (ext (snd (capture cycling 1 notFound (runningWorld 2001)))))
               (snd (capture cycling 1 notFound (runningWorld 2001)))) = 1001.
Proof.
  split; [vm_compute; reflexivity|].
  apply (capture_overflow_leaves_1001 cycling 1 notFound (runningWorld 2001)).
  vm_compute. reflexivity.
Defined.

Lemma pipeline_keeps_errorsRetained_witness :
  errorsEphemeral (ext (runningWorld 3)) <> errorsRetained (ext (runningWorld 3))
  /\ errorsRetained
       (ext (snd (pipeline cycling 1 notFound plainClient freshResponse (runningWorld 3))))
     = errorsRetained (ext (runningWorld 3))
  /\ arrays (snd (pipeline cycling 1 notFound plainClient freshResponse (runningWorld 3)))
       !! errorsRetained
            (ext (snd (pipeline cycling 1 notFound plainClient freshResponse (runningWorld 3))))
     = arrays (runningWorld 3) !! errorsRetained (ext (runningWorld 3)).
Proof.
  split; [discriminate|].
  apply (pipeline_keeps_errorsRetained cycling 1 notFound plainClient freshResponse
           (runningWorld 3)).
  discriminate.
Defined.

(** C5 as stated fails.  The message of the exception is [<<em>b>]: a
    client that accepts neither html nor text/terminal is answered under
    content-type [text/plain], the tag [<em>] of the message is dropped, and
    what is left around it reads [<b>], so the body sent is not free of
    markup. *)
Lemma plain_body_holds_a_tag :
  let error := mkError (Some 404%Z) (Some "<<em>b>") None (Some "abcde") in
  let sent := present error plainClient freshResponse in
  headersSent freshResponse = false
  /\ accepts plainClient "html" = false
  /\ accepts plainClient "text/terminal" = false
  /\ fst sent = Answered
  /\ headers (snd sent) !! "content-type" = Some "text/plain"
  /\ body (snd sent)
     = Some ("Client error 404: NotFound" ++ newline ++ newline
             ++ "<b>" ++ newline ++ newline
             ++ "error ref: /server/errors/abcde")
  /\ (exists text, body (snd sent) = Some text /\ ~ tagFree text).
Proof.
  cbv zeta. repeat (split; [vm_compute; reflexivity|]).
  eexists. split; [vm_compute; reflexivity|].
  intros Hfree.
  apply (Hfree ("Client error 404: NotFound" ++ newline ++ newline) "<b>"
           (newline ++ newline ++ "error ref: /server/errors/abcde")).
  - reflexivity.
  - exists "b". split; [discriminate|]. split; [|reflexivity].
    simpl. auto.
Qed.

Lemma present_negotiates_witness :
  headersSent freshResponse = false
  /\ (exists stripped,
        body (snd (present notFound plainClient freshResponse)) = Some stripped
        /\ Stripped (compose notFound) stripped)
  /\ body (snd (present notFound terminalClient freshResponse)) = Some (compose notFound).
Proof.
  split; [reflexivity|].
  destruct (present_negotiates notFound plainClient freshResponse eq_refl)
    as (_ & _ & Hplain).
  destruct (present_negotiates notFound terminalClient freshResponse eq_refl)
    as (_ & Hterminal & _).
  split.
  - apply (Hplain eq_refl eq_refl).
  - apply (Hterminal eq_refl eq_refl).
Defined.

(** What the two clients of the sample receive. *)
Example sample_bodies :
  body (snd (present notFound terminalClient freshResponse))
  = Some ("<error>Client error 404: NotFound<rst>" ++ newline ++ newline
          ++ "<em>no such <em>thing<rst><rst>" ++ newline ++ newline
          ++ "Error: no such thing")
  /\ body (snd (present notFound plainClient freshResponse))
     = Some ("Client error 404: NotFound" ++ newline ++ newline
             ++ "no such thing" ++ newline ++ newline
             ++ "Error: no such thing").
Proof. split; vm_compute; reflexivity. Qed.

End PipelineExamples.

Module BootstrapExamples.
Import Model Bootstrap BootstrapFacts Samples.

Lemma appInit_without_serverHome_witness :
  truthy (serverHome homelessOptions) = false
  /\ appInit sampleEnvironment 5 homelessOptions (diskWorld, [])
     = (Abrupt "No 'serverHome' defined; bailing out.", (diskWorld, [])).
Proof.
  split; [reflexivity|].
  apply (appInit_without_serverHome sampleEnvironment 5 homelessOptions (diskWorld, [])).
  reflexivity.
Defined.

(** C8, where the code departs from it.  The bootstrap is given
    [serverHome = /srv/liq], which holds a settings file, and [getLiqHome()]
    is [/home/liq/.liq]: the file under [serverHome] is not read; a file
    with [{registries: []}] is created under [/home/liq/.liq] and that value
    becomes [app.ext.serverSettings]. *)
Theorem settings_not_read_under_serverHome :
  let run := appInit sampleEnvironment 5 sampleOptions (diskWorld, []) in
  let w' := fst (snd run) in
  fst run = Normal tt
  /\ serverHome sampleOptions = Some "/srv/liq"
  /\ files diskWorld !! "/srv/liq/server-settings.yaml" = Some homeSettings
  /\ serverSettings (ext w') = JObject [("registries", JArray [])]
  /\ files w' !! "/home/liq/.liq/server-settings.yaml"
     = Some (JObject [("registries", JArray [])])
  /\ files w' !! "/srv/liq/server-settings.yaml" = Some homeSettings
  /\ snd (snd run)
     = [CallInitModel; Use JsonBody; Use UrlencodedBody; Use FileUpload;
        WriteFile "/home/liq/.liq/server-settings.yaml";
        Log "Loading core handlers..."; CallRegisterHandlers "core"; CallLoadPlugins;
        ReadFile "/plugins/a/package.json"; CallLoadPlugin "/plugins/a";
        CallPending 11; CallPending 12; CallPending 13;
        Use CaptureStage; Use PresentStage; CallInitServerSettings;
        Enqueue 21; Enqueue 22; Complete; Await;
        Log "Registering API..."; WriteFile "/srv/liq/core-api.json"].
Proof. cbv zeta. repeat split; vm_compute; reflexivity. Qed.



End BootstrapExamples.

Module RegistryMore.
Import Registry RegistryFacts RegistryShape.

Section WithParameters.
Context {Ref : Type}.
Implicit Types (o v n node frontier : jsobject Ref) (p q : list string) (r : Ref).

Lemma walk_fresh_not_occupied p r n :
  walk p r (Plain ∅) <> Occupied n.
Proof.
  revert n. induction p as [|b p IH]; intros n; simpl.
  - rewrite lookup_empty. discriminate.
  - rewrite lookup_empty.
    destruct (bool_decide (b ∈ objectPrototypeKeys)); [discriminate|].
    destruct (walk p r (Plain ∅)) eqn:Hw; simpl; try discriminate.
    exfalso. exact (IH _ eq_refl).
Qed.


(** Which paths are taken after a run of registrations that all return. *)
Lemma registerAll_occupied cs o root q :
  Forall (fun c => Forall (fun b => b <> parametersKey) (fst c)) cs ->
  registerAll cs o = Some root ->
  occupied q root = true -> occupied q o = true \/ q ∈ map fst cs.
Proof.
  revert o. induction cs as [|[p r] cs IH]; intros o Hcs; simpl.
  - intros H; inversion H; subst. auto.
  - apply Forall_cons in Hcs as [Hp Hcs]. simpl in Hp.
    unfold addCommandPath. destruct (walk p r o) as [mid| |] eqn:Hw; try discriminate.
    intros Hreg Hocc. destruct (IH mid Hcs Hreg Hocc) as [Hmid|Hin].
    + destruct (decide (q = p)) as [->|Hne].
      * right. left.
      * left. rewrite <- (walk_occupied_elsewhere p r o mid q Hp Hw Hne). exact Hmid.
    + right. right. exact Hin.
Qed.

(** X2. After registering pairwise distinct paths of ordinary segments in the
    empty registry, the paths that yield a value are the registered ones and
    no other, each with the value registered with it. *)
Theorem registry_holds_exactly cs root :
  NoDup (map fst cs) ->
  Forall (fun c => Forall ordinary (fst c)) cs ->
  registerAll cs (Plain ∅) = Some root ->
  forall q r, getParameters q root = Some r <-> (q, r) ∈ cs.
Proof.
  intros Hnd Hord Hreg q r.
  destruct (registerAll_ordinary cs (Plain ∅) Hnd Hord) as (root' & Hreg' & Hmine & _).
  { apply Forall_forall. intros c _. split.
    - apply plainAlong_fresh.
    - apply occupied_fresh. reflexivity. }
  assert (root' = root) by congruence. subst root'.
  split; [|apply Hmine].
  intros Hq.
  destruct (registerAll_occupied cs (Plain ∅) root q) as [Hocc|Hin].
  - eapply Forall_impl; [exact Hord|]. intros c Hc.
    eapply Forall_impl; [exact Hc|]. intros b Hb. apply Hb.
  - exact Hreg.
  - apply (getParameters_occupied _ _ _ Hq).
  - rewrite occupied_fresh in Hocc by reflexivity. discriminate.
  - apply list_elem_of_fmap in Hin as ([q' r'] & -> & Hin). simpl in *.
    rewrite (Hmine _ _ Hin) in Hq. inversion Hq; subst. exact Hin.
Qed.

(** *** The order of registration *)

Lemma setOwn_commute k1 k2 v1 v2 o :
  k1 <> k2 -> setOwn k1 v1 (setOwn k2 v2 o) = setOwn k2 v2 (setOwn k1 v1 o).
Proof. intros H. destruct o; simpl; f_equal; apply insert_insert_ne; congruence. Qed.

Lemma setOwn_setOwn k v v' o : setOwn k v (setOwn k v' o) = setOwn k v o.
Proof. destruct o; simpl; f_equal; apply insert_insert_eq. Qed.

Lemma inherited_setOwn b k v o : inherited b (setOwn k v o) = inherited b o.
Proof. destruct o; reflexivity. Qed.

Lemma walk_nil_Attached r o m :
  walk [] r o = Attached m ->
  own o !! parametersKey = None /\ m = setOwn parametersKey (Accessor r ∅) o.
Proof.
  simpl. destruct (own o !! parametersKey); [discriminate|].
  intros H; inversion H; auto.
Qed.

Lemma walk_cons_Attached b p r o m :
  walk (b :: p) r o = Attached m ->
  exists child', walk p r (childAt b o) = Attached child' /\ m = setOwn b child' o.
Proof.
  simpl. unfold childAt. destruct (own o !! b) as [child|].
  - destruct (walk p r child); simpl; intros H; inversion H; eauto.
  - destruct (inherited b o); [discriminate|].
    destruct (walk p r (Plain ∅)); simpl; intros H; inversion H; eauto.
Qed.

Lemma childAt_setOwn_ne b k v o : k <> b -> childAt b (setOwn k v o) = childAt b o.
Proof. intros H. unfold childAt. rewrite own_setOwn, lookup_insert_ne by exact H. reflexivity. Qed.

Lemma childAt_setOwn_eq b v o : childAt b (setOwn b v o) = v.
Proof. unfold childAt. rewrite own_setOwn, lookup_insert_eq. reflexivity. Qed.

(** Two registrations at different paths, neither through the reserved key,
    give the same registry in either order. *)
Lemma walk_swap p q r1 r2 o m1 m12 m2 m21 :
  p <> q ->
  Forall (fun b => b <> parametersKey) p ->
  Forall (fun b => b <> parametersKey) q ->
  walk p r1 o = Attached m1 -> walk q r2 m1 = Attached m12 ->
  walk q r2 o = Attached m2 -> walk p r1 m2 = Attached m21 ->
  m12 = m21.
Proof.
  revert q o m1 m12 m2 m21.
  induction p as [|b p IH]; intros q o m1 m12 m2 m21 Hne Hp Hq H1 H12 H2 H21.
  - destruct q as [|c q]; [contradiction|].
    apply Forall_cons in Hq as [Hc Hq].
    apply walk_nil_Attached in H1 as [_ ->].
    apply walk_cons_Attached in H2 as (cq & Hcq & ->).
    apply walk_nil_Attached in H21 as [_ ->].
    apply walk_cons_Attached in H12 as (cq' & Hcq' & ->).
    rewrite childAt_setOwn_ne in Hcq' by congruence.
    assert (cq' = cq) by congruence. subst cq'.
    apply setOwn_commute. congruence.
  - apply Forall_cons in Hp as [Hb Hp].
    apply walk_cons_Attached in H1 as (cp & Hcp & ->).
    destruct q as [|c q].
    + apply walk_nil_Attached in H2 as [_ ->].
      apply walk_nil_Attached in H12 as [_ ->].
      apply walk_cons_Attached in H21 as (cp' & Hcp' & ->).
      rewrite childAt_setOwn_ne in Hcp' by congruence.
      assert (cp' = cp) by congruence. subst cp'.
      apply setOwn_commute. congruence.
    + apply Forall_cons in Hq as [Hc Hq].
      apply walk_cons_Attached in H2 as (cq & Hcq & ->).
      apply walk_cons_Attached in H12 as (x & Hx & ->).
      apply walk_cons_Attached in H21 as (y & Hy & ->).
      destruct (decide (b = c)) as [->|Hbc].
      * rewrite childAt_setOwn_eq in Hx, Hy.
        rewrite !setOwn_setOwn. f_equal.
        apply (IH q (childAt c o) cp x cq y); try assumption. congruence.
      * rewrite childAt_setOwn_ne in Hx, Hy by congruence.
        assert (x = cq) by congruence. assert (y = cp) by congruence. subst x y.
        apply setOwn_commute. congruence.
Qed.

Lemma ordinary_plain p : Forall ordinary p -> Forall (fun b => b <> parametersKey) p.
Proof. intros H. eapply Forall_impl; [exact H|]. intros b Hb. apply Hb. Qed.

Lemma startable_after p r o mid cs :
  Forall ordinary p -> p ∉ map fst cs ->
  Forall (fun c => Forall ordinary (fst c)) cs ->
  walk p r o = Attached mid ->
  startable cs o -> startable cs mid.
Proof.
  intros Hp Hnotin Hord Hw Hstart. unfold startable in *.
  rewrite Forall_forall in Hstart, Hord. apply Forall_forall.
  intros [q x] Hin. simpl. destruct (Hstart _ Hin) as [Hqp Hqf]. split.
  - apply (walk_plainAlong p r o mid (ordinary_plain _ Hp));
      [rewrite Hw; reflexivity| |exact Hqp].
    apply ordinary_plain, (Hord _ Hin).
  - rewrite (walk_occupied_elsewhere p r o mid q (ordinary_plain _ Hp) Hw); [exact Hqf|].
    intros ->. apply Hnotin. apply list_elem_of_fmap. exists (p, x). auto.
Qed.

Lemma registerAll_Permutation cs cs' :
  cs ≡ₚ cs' ->
  forall o,
    NoDup (map fst cs) ->
    Forall (fun c => Forall ordinary (fst c)) cs ->
    startable cs o ->
    registerAll cs o = registerAll cs' o.
Proof.
  induction 1 as [|[p r] cs cs' Hperm IH|[p r] [q x] cs|cs cs' cs'' H1 IH1 H2 IH2];
    intros o Hnd Hord Hstart.
  - reflexivity.
  - simpl in *. apply NoDup_cons in Hnd as [Hnotin Hnd].
    apply Forall_cons in Hord as [Hp Hord].
    apply Forall_cons in Hstart as [[Hpp Hpf] Hstart]. simpl in *.
    destruct (walk_free p r o Hp Hpp Hpf) as [mid Hw].
    unfold addCommandPath. rewrite Hw.
    apply IH; try assumption.
    apply (startable_after p r o mid cs); assumption.
  - simpl in Hnd. apply NoDup_cons in Hnd as [Hq_notin Hnd].
    apply NoDup_cons in Hnd as [Hp_notin Hnd].
    apply Forall_cons in Hord as [Hq Hord]. apply Forall_cons in Hord as [Hp Hord].
    apply Forall_cons in Hstart as [[Hqp Hqf] Hstart].
    apply Forall_cons in Hstart as [[Hpp Hpf] Hstart]. simpl in *.
    assert (Hne : p <> q).
    { intros ->. apply Hq_notin. left. }
    assert (Hq_notin' : q ∉ map fst cs).
    { intros Hin. apply Hq_notin. right. exact Hin. }
    destruct (walk_free q x o Hq Hqp Hqf) as [m2 H2].
    destruct (walk_free p r o Hp Hpp Hpf) as [m1 H1].
    destruct (walk_free p r m2 Hp) as [m21 H21].
    { apply (walk_plainAlong q x o m2 (ordinary_plain _ Hq));
        [rewrite H2; reflexivity|apply ordinary_plain, Hp|exact Hpp]. }
    { rewrite (walk_occupied_elsewhere q x o m2 p (ordinary_plain _ Hq) H2 Hne).
      exact Hpf. }
    destruct (walk_free q x m1 Hq) as [m12 H12].
    { apply (walk_plainAlong p r o m1 (ordinary_plain _ Hp));
        [rewrite H1; reflexivity|apply ordinary_plain, Hq|exact Hqp]. }
    { rewrite (walk_occupied_elsewhere p r o m1 q (ordinary_plain _ Hp) H1);
        [exact Hqf|congruence]. }
    unfold addCommandPath. rewrite H2, H21, H1, H12.
    rewrite (walk_swap p q r x o m1 m12 m2 m21 Hne (ordinary_plain _ Hp)
               (ordinary_plain _ Hq) H1 H12 H2 H21).
    reflexivity.
  - rewrite IH1 by assumption. apply IH2.
    + rewrite <- H1. exact Hnd.
    + rewrite <- H1. exact Hord.
    + unfold startable. rewrite <- H1. exact Hstart.
Qed.

(** X3. Registering the same pairwise distinct paths of ordinary segments in
    another order gives the same registry, node for node. *)
Theorem registration_order_irrelevant (cs cs' : list (list string * Ref)) :
  cs ≡ₚ cs' ->
  NoDup (map fst cs) ->
  Forall (fun c => Forall ordinary (fst c)) cs ->
  registerAll cs (Plain ∅) = registerAll cs' (Plain ∅).
Proof.
  intros Hperm Hnd Hord. apply registerAll_Permutation; try assumption.
  apply Forall_forall. intros c _. split.
  - apply plainAlong_fresh.
  - apply occupied_fresh. reflexivity.
Qed.

End WithParameters.
End RegistryMore.

Module StripFacts.
Import Model ErrorPipeline PipelineFacts PipelineRuns.

Lemma stripTags_cons_Some c s rest :
  matchTag (String c s) = Some rest -> stripTags (String c s) = stripTags rest.
Proof.
  intros H. simp stripTags.
  generalize (inspect (matchTag (String c s))). intros [[r|] e]; simp stripTags.
  - congruence.
  - congruence.
Qed.

Lemma stripTags_cons_None c s :
  matchTag (String c s) = None -> stripTags (String c s) = String c (stripTags s).
Proof.
  intros H. simp stripTags.
  generalize (inspect (matchTag (String c s))). intros [[r|] e]; simp stripTags.
  - congruence.
  - reflexivity.
Qed.


(** A tag at the head is dropped. *)
Lemma stripTags_tag t rest : isTag t -> stripTags (t ++ rest) = stripTags rest.
Proof.
  intros Ht. pose proof (matchTag_tag t rest Ht) as Hm.
  destruct Ht as (name & _ & _ & ->).
  change ("<" ++ name ++ ">") with (String "<" (name ++ ">")) in *.
  rewrite (StringFacts.append_cons "<") in *.
  apply stripTags_cons_Some, Hm.
Qed.

Lemma tagFree_tail c s : tagFree (String c s) -> tagFree s.
Proof.
  intros H before t rest Heq. apply (H (String c before) t rest).
  rewrite StringFacts.append_cons, Heq. reflexivity.
Qed.

Lemma tagFree_head c s : tagFree (String c s) -> matchTag (String c s) = None.
Proof.
  intros H. destruct (matchTag (String c s)) as [rest|] eqn:Hm; [|reflexivity].
  apply matchTag_split in Hm as (t & Ht & Heq).
  exfalso. apply (H "" t rest); [|exact Ht]. rewrite StringFacts.append_nil_l. exact Heq.
Qed.

(** A text without tags goes through unchanged. *)
Lemma stripTags_tagFree s : tagFree s -> stripTags s = s.
Proof.
  induction s as [|c s IH]; intros H; [reflexivity|].
  rewrite (stripTags_cons_None _ _ (tagFree_head _ _ H)), (IH (tagFree_tail _ _ H)).
  reflexivity.
Qed.

Lemma stripTags_length s : (String.length (stripTags s) <= String.length s)%nat.
Proof.
  funelim (stripTags s).
  - reflexivity.
  - assert (String.length rest < String.length (String c s'))%nat.
    { destruct (matchTag_split _ _ e) as (t & (name & _ & _ & ->) & Heq).
      rewrite Heq, StringFacts.length_append.
      change ("<" ++ name ++ ">") with (String "<" (name ++ ">")). simpl. lia. }
    lia.
  - simpl. lia.
Qed.

Lemma stripTags_fixed s : stripTags s = s -> tagFree s.
Proof.
  induction s as [|c s IH]; intros H; [apply tagFree_nil|].
  destruct (matchTag (String c s)) as [rest|] eqn:Hm.
  - exfalso. rewrite (stripTags_cons_Some _ _ _ Hm) in H.
    pose proof (stripTags_length rest) as Hlen. rewrite H in Hlen.
    apply matchTag_split in Hm as (t & (name & _ & _ & ->) & Heq).
    apply (f_equal String.length) in Heq.
    rewrite StringFacts.length_append in Heq.
    change ("<" ++ name ++ ">") with (String "<" (name ++ ">")) in Heq.
    simpl in *. lia.
  - rewrite (stripTags_cons_None _ _ Hm) in H. injection H as H'.
    apply tagFree_cons; [exact Hm|]. apply IH, H'.
Qed.

Lemma closeTag_break seen a d x :
  lowercase d = false -> d <> ">"%char ->
  closeTag seen (a ++ String d x)
  = match closeTag seen a with
    | Some r => Some (r ++ String d x)
    | None => None
    end.
Proof.
  intros Hlow Hclose. revert seen. induction a as [|e a IH]; intros seen.
  - rewrite StringFacts.append_nil_l. simpl. rewrite Hlow.
    destruct (Ascii.eqb_spec d ">"); [contradiction|reflexivity].
  - rewrite StringFacts.append_cons. simpl.
    destruct (lowercase e); [apply IH|].
    destruct (Ascii.eqb e ">"); [|reflexivity].
    destruct seen; reflexivity.
Qed.

Lemma matchTag_break c a d x :
  lowercase d = false -> d <> ">"%char ->
  matchTag (String c a) = None -> matchTag (String c (a ++ String d x)) = None.
Proof.
  intros Hlow Hclose H. simpl in *. destruct (Ascii.eqb c "<"); [|reflexivity].
  rewrite closeTag_break, H by assumption. reflexivity.
Qed.

Lemma matchTag_before_tag c s t rest :
  isTag t -> matchTag (String c s) = None ->
  matchTag (String c (s ++ t ++ rest)) = None.
Proof.
  intros (name & _ & _ & ->) H.
  change ("<" ++ name ++ ">") with (String "<" (name ++ ">")).
  rewrite (StringFacts.append_cons "<").
  apply matchTag_break; [reflexivity|discriminate|exact H].
Qed.

Lemma stripTags_stretch stretch t rest :
  tagFree stretch -> isTag t ->
  stripTags (stretch ++ t ++ rest) = stretch ++ stripTags rest.
Proof.
  intros Hfree Ht. induction stretch as [|c s IH].
  - rewrite !StringFacts.append_nil_l. apply stripTags_tag, Ht.
  - rewrite !StringFacts.append_cons.
    rewrite stripTags_cons_None.
    + rewrite (IH (tagFree_tail _ _ Hfree)). reflexivity.
    + apply matchTag_before_tag; [exact Ht|]. apply tagFree_head, Hfree.
Qed.





(** X4. The text the replacement leaves is the only one that the cutting of
    the message into tag-free stretches and tags allows: the relation
    [Stripped] holds of the result of [stripTags] and of nothing else. *)
Theorem Stripped_unique s stripped : Stripped s stripped <-> stripped = stripTags s.
Proof.
  split.
  - induction 1 as [s Hfree|stretch t rest rest' Hfree Ht _ IH].
    + symmetry. apply stripTags_tagFree, Hfree.
    + rewrite stripTags_stretch by assumption. rewrite IH. reflexivity.
  - intros ->. apply stripTags_Stripped.
Qed.

(** X5. The replacement leaves a message as it is exactly when the message
    holds no tag. *)
Theorem stripTags_fixed_iff s : stripTags s = s <-> tagFree s.
Proof. split; [apply stripTags_fixed|apply stripTags_tagFree]. Qed.

End StripFacts.

Module PipelineMore.
Import Model ErrorPipeline PipelineFacts PipelineRuns StripFacts.

(** *** The log kept by the capture stage *)

Lemma evict_within errors :
  length errors <= 1001 -> evict 0 errors = drop (length errors - 1000) errors.
Proof.
  intros Hlen. destruct errors as [|e shifted]; [reflexivity|].
  cbn [evict]. cbn [length] in *.
  destruct (Nat.ltb_spec 1000 (S (length shifted))) as [Hbig|Hsmall]; cbn [andb].
  - assert (Hl : length shifted = 1000%nat) by lia.
    replace (S (length shifted) - 1000)%nat with 1%nat by lia.
    destruct shifted as [|e' shifted']; [discriminate|].
    cbn [evict]. rewrite Hl. reflexivity.
  - replace (S (length shifted) - 1000)%nat with 0%nat by lia. reflexivity.
Qed.

Lemma makeIDLoop_calls randomIndex n result k :
  snd (makeIDLoop randomIndex n result k) = (k + n)%nat.
Proof.
  revert result k. induction n as [|n IH]; intros result k; simpl.
  - lia.
  - rewrite IH. lia.
Qed.

Lemma makeIDLoop_result randomIndex n result k :
  fst (makeIDLoop randomIndex n result k)
  = result ++ fst (makeIDLoop randomIndex n "" k).
Proof.
  revert result k. induction n as [|n IH]; intros result k; simpl.
  - rewrite StringFacts.append_nil_r. reflexivity.
  - rewrite IH, (IH (_ ++ _)), StringFacts.append_assoc. reflexivity.
Qed.

(** *** The table of status names *)

(** X6. A status the table has a name for is one of 400 to 511, and its
    message is headed as a Client error below 500 and as a Server error from
    500 on, never as Unknown. *)
Theorem listed_status_is_classified st name :
  statusText st = Some name ->
  (400 <= st < 512)%Z
  /\ errorSource st = (if (st <? 500)%Z then "Client" else "Server").
Proof.
  intros Hname.
  assert (Hrange : (400 <= st < 512)%Z).
  { revert Hname. destruct st as [|p|p]; try discriminate.
    unfold statusText.
    repeat (destruct p as [p|p|]; try discriminate; try (intros _; lia)). }
  split; [exact Hrange|].
  destruct (errorSource_cases st) as (Hclient & Hserver & _).
  destruct (Z.ltb_spec st 500); [apply Hclient|apply Hserver]; lia.
Qed.

Section Random.
Variable randomIndex : nat -> nat.



Lemma capture_step now error w :
  let w' := snd (capture randomIndex now error w) in
  ext w' = ext w
  /\ randomCalls w' = (randomCalls w + 5)%nat
  /\ arrayAt (errorsEphemeral (ext w)) w'
     = evict 0 (arrayAt (errorsEphemeral (ext w)) w
                 ++ [mkErrorRecord (fst (makeIDLoop randomIndex 5 "" (randomCalls w)))
                       (message error) (stack error) now])%list.
Proof.
  cbv zeta. unfold capture, makeID.
  pose proof (makeIDLoop_calls randomIndex 5 "" (randomCalls w)) as Hcalls.
  destruct (makeIDLoop randomIndex 5 "" (randomCalls w)) as [errorID k].
  simpl in Hcalls. subst k. cbn -[evict].
  split; [reflexivity|]. split; [reflexivity|].
  unfold arrayAt. cbn -[evict]. rewrite lookup_insert_eq. reflexivity.
Qed.

(** X8. Starting within the cap, whatever the number of exceptions, the array
    holds the last 1000 of all the records, old and new, in their order. *)
Theorem captureAll_log incoming w :
  length (arrayAt (errorsEphemeral (ext w)) w) <= 1000 ->
  let all := (arrayAt (errorsEphemeral (ext w)) w
              ++ recordsOf randomIndex (randomCalls w) incoming)%list in
  ext (captureAll randomIndex incoming w) = ext w
  /\ arrayAt (errorsEphemeral (ext w)) (captureAll randomIndex incoming w)
     = drop (length all - 1000) all.
Proof.
  revert w. induction incoming as [|[now error] incoming IH]; intros w Hlen; cbv zeta.
  - simpl. rewrite app_nil_r. split; [reflexivity|].
    replace (length _ - 1000)%nat with 0%nat by lia. reflexivity.
  - cbn [captureAll recordsOf].
    destruct (capture_step now error w) as (Hext & Hcalls & Harr).
    set (w1 := snd (capture randomIndex now error w)) in *.
    set (old := arrayAt (errorsEphemeral (ext w)) w) in *.
    set (record := mkErrorRecord _ _ _ _) in *.
    rewrite evict_within in Harr by (rewrite length_app; simpl; lia).
    destruct (IH w1) as (Hext' & Harr').
    { rewrite Hext, Harr, length_drop, length_app. simpl. lia. }
    rewrite Hext in Hext', Harr'. split; [exact Hext'|].
    rewrite Harr', Harr, Hcalls.
    set (news := recordsOf randomIndex _ incoming).
    rewrite !length_app, length_drop, !length_app. cbn [length].
    destruct (le_lt_dec (length old + 1) 1000) as [Hle|Hgt].
    + replace (length old + 1 - 1000)%nat with 0%nat by lia.
      rewrite drop_0, <- app_assoc. cbn [app].
      f_equal. lia.
    + assert (Hold : length old = 1000%nat) by lia.
      rewrite Hold. replace (1000 + 1 - 1000)%nat with 1%nat by lia.
      rewrite <- (drop_app_le (old ++ [record]) news 1)
        by (rewrite length_app; simpl; lia).
      rewrite <- app_assoc. cbn [app].
      rewrite drop_drop. f_equal. lia.
Qed.

(** *** [makeID] for any length *)

Hypothesis randomIndex_bound : forall k, randomIndex k < charactersLength.

(** X9. For any length asked for, with every draw an index into the alphabet,
    the identifier has that length and is made of characters of the alphabet
    only; one draw is used for each character, and nothing else of the
    application changes. *)
Theorem makeID_length n w :
  let result := fst (makeID randomIndex n w) in
  let w' := snd (makeID randomIndex n w) in
  String.length result = n /\ fromAlphabet result
  /\ randomCalls w' = (randomCalls w + n)%nat
  /\ ext w' = ext w /\ arrays w' = arrays w.
Proof.
  cbv zeta. rewrite (makeID_picked randomIndex randomIndex_bound).
  split; [|split; [|split]].
  - rewrite StringFacts.length_of_list. unfold picked.
    rewrite length_map, length_seq. reflexivity.
  - apply picked_fromAlphabet, randomIndex_bound.
  - unfold makeID.
    pose proof (makeIDLoop_calls randomIndex n "" (randomCalls w)) as Hcalls.
    destruct (makeIDLoop randomIndex n "" (randomCalls w)). simpl in *. exact Hcalls.
  - destruct (makeID_frame randomIndex n w) as (H1 & H2 & _). auto.
Qed.

(** *** From the exception to the reference the client reads *)





End Random.
End PipelineMore.

Module BootstrapMore.
Import Model Bootstrap BootstrapFacts BootstrapTraces.

Section Appends.
Context (P : Event -> Prop).

Lemma appends_ret {A : Type} (a : A) : appends P (ret a).
Proof.
  intros w events r w' events' H. inversion H; subst.
  exists []. rewrite app_nil_r. auto.
Qed.

Lemma appends_throw {A : Type} reason : appends P (@throw A reason).
Proof.
  intros w events r w' events' H. inversion H; subst.
  exists []. rewrite app_nil_r. auto.
Qed.

Lemma appends_getWorld : appends P getWorld.
Proof.
  intros w events r w' events' H. inversion H; subst.
  exists []. rewrite app_nil_r. auto.
Qed.

Lemma appends_modify f : appends P (modify f).
Proof.
  intros w events r w' events' H. inversion H; subst.
  exists []. rewrite app_nil_r. auto.
Qed.

Lemma appends_emit e : P e -> appends P (emit e).
Proof.
  intros He w events r w' events' H. inversion H; subst.
  exists [e]. auto.
Qed.

Lemma appends_call e f : P e -> appends P (call e f).
Proof.
  intros He w events r w' events' H. unfold call in H.
  exists [e]. destruct (f w); inversion H; subst; auto.
Qed.

Lemma appends_bind {A B : Type} (c : M A) (k : A -> M B) :
  appends P c -> (forall a, appends P (k a)) -> appends P (bind c k).
Proof.
  intros Hc Hk w events r w' events' H. unfold bind in H.
  destruct (c (w, events)) as [ra [w1 events1]] eqn:Hrun.
  destruct (Hc _ _ _ _ _ Hrun) as (added1 & -> & H1).
  destruct ra as [a| |].
  - destruct (Hk a _ _ _ _ _ H) as (added2 & -> & H2).
    exists (added1 ++ added2)%list. rewrite app_assoc. split; [reflexivity|].
    apply Forall_app; auto.
  - inversion H; subst. eauto.
  - inversion H; subst. eauto.
Qed.

Lemma quiet_bind {A B : Type} (late : completion B -> World -> list Event -> Prop)
    (c : M A) (k : A -> M B) :
  (forall r w' before added,
     Forall P before -> late r w' added -> late r w' (before ++ added)%list) ->
  appends P c -> (forall a, quietOnFailure P late (k a)) ->
  quietOnFailure P late (bind c k).
Proof.
  intros Hlate Hc Hk w events r w' events' H Hr. unfold bind in H.
  destruct (c (w, events)) as [ra [w1 events1]] eqn:Hrun.
  destruct (Hc _ _ _ _ _ Hrun) as (added1 & -> & H1).
  destruct ra as [a| |].
  - destruct (Hk a _ _ _ _ _ H Hr) as (added2 & -> & H2).
    exists (added1 ++ added2)%list. rewrite app_assoc. split; [reflexivity|].
    destruct H2 as [H2|H2]; [left; apply Forall_app; auto|right; auto].
  - inversion H; subst. eauto.
  - inversion H; subst. eauto.
Qed.

Lemma appends_use m : P (Use m) -> appends P (use m).
Proof.
  intros H. unfold use. apply appends_bind; [apply appends_modify|].
  intros _. apply appends_emit, H.
Qed.

End Appends.

Section WithEnvironment.
Variable env : Environment.

Lemma appends_getServerSettings : appends beforeAPI (getServerSettings env).
Proof.
  unfold getServerSettings. apply appends_bind; [apply appends_getWorld|]. intros w.
  destruct (files w !! _).
  - apply appends_bind; [apply appends_emit; discriminate|]. intros _. apply appends_ret.
  - apply appends_bind; [apply appends_modify|]. intros _.
    apply appends_bind; [apply appends_emit; discriminate|]. intros _. apply appends_ret.
Qed.

Lemma appends_setupExt options home : appends beforeAPI (setupExt env options home).
Proof.
  unfold setupExt.
  apply appends_bind.
  { intros w events r w' events' H. destruct (newArray w). inversion H; subst.
    exists []. rewrite app_nil_r. auto. }
  intros l1. apply appends_bind.
  { intros w events r w' events' H. destruct (newArray w). inversion H; subst.
    exists []. rewrite app_nil_r. auto. }
  intros l2. apply appends_bind; [apply appends_getServerSettings|].
  intros s. apply appends_modify.
Qed.

Lemma appends_readLocalSettings home : appends beforeAPI (readLocalSettings home).
Proof.
  unfold readLocalSettings. apply appends_bind; [apply appends_getWorld|]. intros w.
  destruct (files w !! _).
  - apply appends_bind; [apply appends_emit; discriminate|]. intros _. apply appends_modify.
  - apply appends_ret.
Qed.

Lemma appends_loadPluginPaths dirs : appends beforeAPI (loadPluginPaths env dirs).
Proof.
  induction dirs as [|dir dirs IH]; simpl.
  - apply appends_ret.
  - apply appends_bind; [apply appends_getWorld|]. intros w.
    apply appends_bind; [apply appends_emit; discriminate|]. intros _.
    destruct (files w !! _).
    + apply appends_bind; [apply appends_call; discriminate|]. intros _. exact IH.
    + apply appends_throw.
Qed.

Lemma appends_loadHandlers options : appends beforeAPI (loadHandlers env options).
Proof.
  unfold loadHandlers.
  apply appends_bind; [apply appends_emit; discriminate|]. intros _.
  apply appends_bind; [apply appends_call; discriminate|]. intros _.
  apply appends_bind.
  - destruct (skipCorePlugins options); [apply appends_ret|apply appends_call; discriminate].
  - intros _. apply appends_loadPluginPaths.
Qed.

Lemma appends_flushPending steps i : appends beforeAPI (flushPending env steps i).
Proof.
  revert i. induction steps as [|steps IH]; intros i; simpl.
  - intros w events r w' events' H. inversion H; subst.
    exists []. rewrite app_nil_r. auto.
  - apply appends_bind; [apply appends_getWorld|]. intros w.
    destruct (pendingHandlers (ext w) !! i).
    + apply appends_bind; [apply appends_call; discriminate|]. intros _. apply IH.
    + apply appends_ret.
Qed.

Lemma appends_enqueueAll methods : appends beforeAPI (enqueueAll methods).
Proof.
  induction methods as [|m methods IH]; simpl.
  - apply appends_ret.
  - apply appends_bind; [apply appends_emit; discriminate|]. intros _. exact IH.
Qed.

Lemma appends_drainSetup : appends beforeAPI (drainSetup env).
Proof.
  unfold drainSetup. apply appends_bind; [apply appends_getWorld|]. intros w.
  apply appends_bind; [apply appends_enqueueAll|]. intros _.
  apply appends_bind; [apply appends_emit; discriminate|]. intros _.
  apply appends_call. discriminate.
Qed.

Lemma manifestFailed_later file r w' before added :
  Forall beforeAPI before ->
  manifestFailed env file r w' added ->
  manifestFailed env file r w' (before ++ added)%list.
Proof.
  intros Hbefore (mid & reason & -> & Hmid & Hr & Hwhy).
  exists (before ++ mid)%list, reason. rewrite app_assoc.
  split; [reflexivity|]. split; [apply Forall_app; auto|]. auto.
Qed.

Lemma quiet_registerAPI options home :
  quietOnFailure beforeAPI (manifestFailed env (apiSpecFile options home))
    (registerAPI env options home).
Proof.
  intros w events r w' events' H Hr. rewrite registerAPI_run in H.
  destruct (noAPIUpdate options).
  { inversion H; subst. exfalso. exact (Hr tt eq_refl). }
  destruct (stringifyThrows env (handlers (ext w))) as [reason|] eqn:Hstringify.
  { inversion H; subst. exists [Log "Registering API..."]. split; [reflexivity|].
    right. exists [], reason. repeat split; auto. }
  destruct (writeFileRejects env (apiSpecFile options home) w) as [reason|] eqn:Hwrite.
  { inversion H; subst. exists [Log "Registering API..."]. split; [reflexivity|].
    right. exists [], reason. repeat split; auto. }
  inversion H; subst. exfalso. exact (Hr tt eq_refl).
Qed.

(** X11. A bootstrap that does not return has not written the manifest.
    Either it ended before the manifest, and the announcement "Registering
    API..." was never logged; or the announcement is the last thing it did,
    no write follows it, and what the bootstrap throws is what
    [JSON.stringify] threw for the handlers or the reason for which
    [fs.writeFile] was rejected. *)
Theorem failed_bootstrap_writes_no_manifest steps options w events :
  (forall v, fst (appInit env steps options (w, events)) <> Normal v) ->
  let run := appInit env steps options (w, events) in
  exists added,
    snd (snd run) = (events ++ added)%list
    /\ (Forall (fun e => e <> Log "Registering API...") added
        \/ exists before reason,
             added = (before ++ [Log "Registering API..."])%list
             /\ Forall (fun e => e <> Log "Registering API...") before
             /\ fst run = Abrupt reason
             /\ (stringifyThrows env (handlers (ext (fst (snd run)))) = Some reason
                 \/ writeFileRejects env
                      (apiSpecFile options (display (serverHome options)))
                      (fst (snd run)) = Some reason)).
Proof.
  intros Hfail. cbv zeta.
  destruct (appInit env steps options (w, events)) as [r [w' events']] eqn:Hrun.
  cbn [fst snd] in *.
  assert (Hquiet : quietOnFailure beforeAPI
                     (manifestFailed env (apiSpecFile options (display (serverHome options))))
                     (appInit env steps options)).
  { unfold appInit. destruct (negb (truthy (serverHome options))).
    - intros w0 ev0 r0 w0' ev0' H _. inversion H; subst.
      exists []. rewrite app_nil_r. auto.
    - pose proof (manifestFailed_later
                    (apiSpecFile options (display (serverHome options)))) as Hlate.
      apply quiet_bind; [exact Hlate|apply appends_call; discriminate|]. intros _.
      apply quiet_bind; [exact Hlate| |].
      { destruct (app options); [apply appends_ret|apply appends_modify]. }
      intros _.
      apply quiet_bind; [exact Hlate|apply appends_use; discriminate|]. intros _.
      apply quiet_bind; [exact Hlate|apply appends_use; discriminate|]. intros _.
      apply quiet_bind; [exact Hlate|apply appends_use; discriminate|]. intros _.
      apply quiet_bind; [exact Hlate|apply appends_setupExt|]. intros _.
      apply quiet_bind; [exact Hlate|apply appends_readLocalSettings|]. intros _.
      apply quiet_bind; [exact Hlate|apply appends_loadHandlers|]. intros _.
      apply quiet_bind; [exact Hlate|apply appends_flushPending|]. intros _.
      apply quiet_bind; [exact Hlate|apply appends_use; discriminate|]. intros _.
      apply quiet_bind; [exact Hlate|apply appends_use; discriminate|]. intros _.
      apply quiet_bind; [exact Hlate|apply appends_call; discriminate|]. intros _.
      apply quiet_bind; [exact Hlate|apply appends_drainSetup|]. intros _.
      apply quiet_registerAPI. }
  destruct (Hquiet _ _ _ _ _ Hrun Hfail) as (added & -> & [Hall|Hlate]).
  - exists added. split; [reflexivity|]. left. exact Hall.
  - exists added. split; [reflexivity|]. right. exact Hlate.
Qed.

(** *** The settings file *)

(** X12. Asking for the settings a second time gives the same settings and
    reads the file without writing it: what the first call created is what the
    second reads. *)
Theorem getServerSettings_again w events :
  let first := getServerSettings env (w, events) in
  let second := getServerSettings env (snd first) in
  exists settings,
    fst first = Normal settings
    /\ fst second = Normal settings
    /\ fst (snd second) = fst (snd first)
    /\ snd (snd second)
       = (snd (snd first)
          ++ [ReadFile (joinPath (getLiqHome env) "server-settings.yaml")])%list.
Proof.
  cbv zeta.
  destruct (files w !! joinPath (getLiqHome env) "server-settings.yaml") as [data|] eqn:Hf.
  - rewrite (getServerSettings_present env _ _ _ Hf). cbn [fst snd].
    rewrite (getServerSettings_present env _ _ _ Hf). cbn [fst snd]. eauto.
  - rewrite (getServerSettings_absent env _ _ Hf). cbn [fst snd].
    erewrite getServerSettings_present by (simpl; apply lookup_insert_eq).
    cbn [fst snd]. eauto.
Qed.

(** *** A new [app.ext] *)

(** X13. [appInit] gives the application a context of its own: two new arrays,
    empty and different from each other and from every array there was, which
    are all left as they were; no handler, pending handler, setup method or
    command path is carried over. *)
Theorem fresh_context options home w events :
  let run := setupExt env options home (w, events) in
  let w' := fst (snd run) in
  fst run = Normal tt
  /\ (errorsEphemeral (ext w') ∉ dom (arrays w))
  /\ (errorsRetained (ext w') ∉ dom (arrays w))
  /\ errorsEphemeral (ext w') <> errorsRetained (ext w')
  /\ arrays w' !! errorsEphemeral (ext w') = Some []
  /\ arrays w' !! errorsRetained (ext w') = Some []
  /\ (forall l, l ∈ dom (arrays w) -> arrays w' !! l = arrays w !! l)
  /\ handlers (ext w') = [] /\ pendingHandlers (ext w') = []
  /\ setupMethods (ext w') = [] /\ commandPaths (ext w') = Registry.Plain ∅
  /\ Model.serverHome (ext w') = home.
Proof.
  cbv zeta. unfold setupExt, bind, newArray. cbn -[getServerSettings fresh].
  set (l1 := fresh (dom (arrays w))).
  set (w1 := setArrays (<[l1 := []]> (arrays w)) w).
  set (l2 := fresh (dom (<[l1 := []]> (arrays w)))).
  set (w2 := setArrays _ w1).
  assert (H1 : l1 ∉ dom (arrays w)) by apply is_fresh.
  assert (H2 : l2 ∉ dom (<[l1 := []]> (arrays w))) by apply is_fresh.
  rewrite dom_insert in H2.
  assert (Hne : l1 <> l2) by set_solver.
  assert (H2' : l2 ∉ dom (arrays w)) by set_solver.
  destruct (getServerSettings env (w2, events)) as [r [w3 events3]] eqn:Hs.
  assert (Harr : r <> Unfinished /\ (forall reason, r <> Abrupt reason)
                 /\ arrays w3 = arrays w2).
  { destruct (files w2 !! joinPath (getLiqHome env) "server-settings.yaml") eqn:Hf.
    - rewrite (getServerSettings_present env _ _ _ Hf) in Hs. inversion Hs; subst.
      repeat split; discriminate.
    - rewrite (getServerSettings_absent env _ _ Hf) in Hs. inversion Hs; subst.
      repeat split; discriminate. }
  destruct Harr as (Hu & Ha & Harr).
  destruct r as [settings|reason|]; [|exfalso; exact (Ha _ eq_refl)|contradiction].
  cbn. rewrite Harr. cbn.
  split; [reflexivity|]. split; [exact H1|]. split; [exact H2'|].
  split; [exact Hne|]. split.
  { rewrite lookup_insert_ne by (intros Heq; apply Hne; symmetry; exact Heq).
    apply lookup_insert_eq. }
  split; [apply lookup_insert_eq|]. split; [|auto 10].
  intros l Hl. rewrite !lookup_insert_ne; [reflexivity| |]; intros ->; contradiction.
Qed.

(** *** The manifest *)

Lemma appInit_last_step steps options w events w' events' :
  appInit env steps options (w, events) = (Normal tt, (w', events')) ->
  exists before,
    registerAPI env options (display (serverHome options)) before
    = (Normal tt, (w', events')).
Proof.
  unfold appInit. destruct (negb (truthy (serverHome options))); [discriminate|].
  intros H. do 13 step H. eauto.
Qed.

(** X14. After a bootstrap that returns and was not told [noAPIUpdate], the
    file [apiSpecPath], or [core-api.json] under [serverHome] when no path is
    given, holds the handlers of [app.ext] as they are now. *)
Theorem manifest_holds_handlers steps options w events :
  fst (appInit env steps options (w, events)) = Normal tt ->
  noAPIUpdate options = false ->
  let w' := fst (snd (appInit env steps options (w, events))) in
  files w' !! apiSpecFile options (display (serverHome options))
  = Some (JArray (handlers (ext w'))).
Proof.
  intros Hret Hno.
  destruct (appInit env steps options (w, events)) as [r [w' events']] eqn:Hrun.
  cbn [fst snd] in *. subst r.
  apply appInit_last_step in Hrun as [[w8 events8] Hlast].
  rewrite registerAPI_run, Hno in Hlast.
  destruct (stringifyThrows env _); [discriminate|].
  destruct (writeFileRejects env _ _); [discriminate|].
  inversion Hlast; subst. cbn. apply lookup_insert_eq.
Qed.

(** *** The pending handlers *)

(** X15. With handlers that each defer at least one more, the loop over the
    growing array never comes to an end, however many steps it is given. *)
Theorem flushPending_never_ends steps i w events :
  (forall k w, exists w',
      pendingHandler env k w = Normal w'
      /\ length (pendingHandlers (ext w)) < length (pendingHandlers (ext w'))) ->
  i < length (pendingHandlers (ext w)) ->
  fst (flushPending env steps i (w, events)) = Unfinished.
Proof.
  intros Hgrow. revert i w events.
  induction steps as [|steps IH]; intros i w events Hi; simpl; [reflexivity|].
  unfold bind at 1. unfold getWorld.
  destruct (pendingHandlers (ext w) !! i) as [k|] eqn:Hk.
  - unfold bind, call. destruct (Hgrow k w) as (w1 & Hw1 & Hlen). rewrite Hw1.
    apply IH. lia.
  - apply lookup_ge_None in Hk. lia.
Qed.

End WithEnvironment.
End BootstrapMore.

Module LegacyFacts.
Import Bootstrap Legacy.

Section WithRuntime.
Variable rt : Runtime.

Lemma registerEach_registrable handlers app :
  Forall (registrable rt) handlers ->
  registerEach rt handlers app
  = (Normal tt,
     mkApp (routes app ++ routesOf rt handlers)%list (initialized app)
       (reported app ++ map (announcement rt) handlers)%list).
Proof.
  revert app. induction handlers as [|h handlers IH]; intros app Hall.
  - simpl. rewrite !app_nil_r. destruct app; reflexivity.
  - apply Forall_cons in Hall as [[Hverb [rh Hrh]] Hall].
    cbn [registerEach]. unfold registerOne. rewrite Hrh, Hverb.
    rewrite (IH _ Hall). cbn [routesOf]. rewrite Hrh.
    cbn. rewrite <- !app_assoc. reflexivity.
Qed.

Lemma routesOf_length handlers :
  Forall (registrable rt) handlers -> length (routesOf rt handlers) = length handlers.
Proof.
  induction 1 as [|h handlers [_ [rh Hrh]] _ IH]; [reflexivity|].
  cbn [routesOf]. rewrite Hrh. simpl. rewrite IH. reflexivity.
Qed.

(** X16. With handlers whose verbs are routing methods and whose factories
    return, [initialize] returns with the flag set, one route added for each
    handler and one line logged for each, in the order of the list. *)
Theorem initialize_registers_in_order handlers app :
  Forall (registrable rt) handlers ->
  let after := snd (initialize rt handlers app) in
  fst (initialize rt handlers app) = Normal tt
  /\ initialized after = true
  /\ routes after = (routes app ++ routesOf rt handlers)%list
  /\ map (fun route => (fst (fst route), snd (fst route))) (routesOf rt handlers)
     = map (fun handler => (verb handler, path handler)) handlers
  /\ reported after = (reported app ++ map (announcement rt) handlers)%list.
Proof.
  intros Hall. cbv zeta. unfold initialize.
  rewrite (registerEach_registrable _ _ Hall). cbn.
  repeat split.
  induction Hall as [|h handlers [_ [rh Hrh]] _ IH]; [reflexivity|].
  cbn [routesOf]. rewrite Hrh. cbn. rewrite IH. reflexivity.
Qed.

(** X17. The flag is set and never read: a second [initialize] registers every
    handler again, so each route is there twice. *)
Theorem initialize_twice_doubles handlers app :
  Forall (registrable rt) handlers ->
  let once := snd (initialize rt handlers app) in
  let twice := snd (initialize rt handlers once) in
  initialized once = true
  /\ fst (initialize rt handlers once) = Normal tt
  /\ routes twice = (routes app ++ routesOf rt handlers ++ routesOf rt handlers)%list
  /\ length (routes twice) = length (routes app) + 2 * length handlers.
Proof.
  intros Hall. cbv zeta. unfold initialize.
  rewrite (registerEach_registrable _ _ Hall). cbn.
  rewrite (registerEach_registrable _ _ Hall). cbn.
  rewrite <- app_assoc. repeat split.
  rewrite !length_app, (routesOf_length _ Hall). lia.
Qed.

(** X18. When the verb of a handler names nothing that can be called,
    [initialize] throws there: the handlers before it stay registered, the one
    at fault and those after it are not, its line is the last one logged, and
    the flag is as it was. *)
Theorem initialize_stops_at_unknown_verb before bad after app requestHandler :
  Forall (registrable rt) before ->
  memberOf rt (verb bad) = NotAFunction ->
  produce rt (func bad) = Normal requestHandler ->
  let result := initialize rt (before ++ bad :: after) app in
  fst result = Abrupt "TypeError: app[handler.verb] is not a function"
  /\ routes (snd result) = (routes app ++ routesOf rt before)%list
  /\ initialized (snd result) = initialized app
  /\ reported (snd result)
     = (reported app ++ map (announcement rt) before ++ [announcement rt bad])%list.
Proof.
  intros Hall Hverb Hfunc. cbv zeta. unfold initialize.
  assert (Hrun : registerEach rt (before ++ bad :: after) app
     = (Abrupt "TypeError: app[handler.verb] is not a function",
        mkApp (routes app ++ routesOf rt before)%list (initialized app)
          (reported app ++ map (announcement rt) before ++ [announcement rt bad])%list)).
  { revert app. induction Hall as [|h handlers [Hv [rh Hrh]] _ IH]; intros app.
    - cbn [List.app registerEach]. unfold registerOne. rewrite Hfunc, Hverb.
      cbn. rewrite app_nil_r. reflexivity.
    - cbn [List.app registerEach]. unfold registerOne. rewrite Hrh, Hv.
      rewrite IH. cbn [routesOf]. rewrite Hrh. cbn.
      rewrite <- !app_assoc. reflexivity. }
  rewrite Hrun. cbn. auto.
Qed.

End WithRuntime.
End LegacyFacts.

Module RegexFacts.
Import Regex.
#[local] Open Scope list_scope.

Section Matcher.
Variable ignoreCase : bool.
Variable inputLength : nat.

Implicit Types (a : atom) (r : regex) (rest taken : text) (caps : captures).

#[local] Abbreviation accepted a := (Forall (fun c => accepts ignoreCase a c = true)).

(** A character the atom refuses, or the end, stops the loop. *)
Lemma starLoop_stop a caps k rest :
  match rest with
  | [] => True
  | c :: _ => accepts ignoreCase a c = false
  end ->
  starLoop ignoreCase a caps k rest = k rest caps.
Proof.
  destruct rest as [|c rest]; simpl; [reflexivity|].
  intros ->. reflexivity.
Qed.

(** A success further on is not given up. *)
Lemma starLoop_app_Some a caps k taken rest found :
  accepted a taken ->
  starLoop ignoreCase a caps k rest = Some found ->
  starLoop ignoreCase a caps k (taken ++ rest) = Some found.
Proof.
  intros Htaken Hrest. induction Htaken as [|c taken Hc _ IH]; simpl; [exact Hrest|].
  rewrite Hc, IH. reflexivity.
Qed.

(** The loop takes all it can when what follows succeeds there. *)
Lemma starLoop_longest a caps k taken rest found :
  accepted a taken ->
  match rest with
  | [] => True
  | c :: _ => accepts ignoreCase a c = false
  end ->
  k rest caps = Some found ->
  starLoop ignoreCase a caps k (taken ++ rest) = Some found.
Proof.
  intros Htaken Hstop Hk. apply starLoop_app_Some; [exact Htaken|].
  rewrite starLoop_stop; assumption.
Qed.

(** When what follows fails after every non-empty stretch, the loop takes
    nothing. *)
Lemma starLoop_first a caps k rest :
  (forall taken rest', taken <> [] -> rest = taken ++ rest' -> accepted a taken ->
     k rest' caps = None) ->
  starLoop ignoreCase a caps k rest = k rest caps.
Proof.
  induction rest as [|c rest IH]; intros Hfail; simpl; [reflexivity|].
  destruct (accepts ignoreCase a c) eqn:Hc; [|reflexivity].
  assert (Hnone : starLoop ignoreCase a caps k rest = None).
  { rewrite IH.
    - apply (Hfail [c] rest); [discriminate|reflexivity|].
      constructor; [exact Hc|constructor].
    - intros taken rest' Hne -> Htaken.
      apply (Hfail (c :: taken) rest'); [discriminate|reflexivity|].
      constructor; assumption. }
  rewrite Hnone. reflexivity.
Qed.

(** What the loop found, it found after a stretch of accepted characters. *)
Lemma starLoop_sound a caps k rest found :
  starLoop ignoreCase a caps k rest = Some found ->
  exists taken rest', rest = taken ++ rest' /\ accepted a taken /\ k rest' caps = Some found.
Proof.
  induction rest as [|c rest IH]; simpl.
  - intros Hk. exists [], []. repeat split; [constructor|exact Hk].
  - destruct (accepts ignoreCase a c) eqn:Hc.
    + destruct (starLoop ignoreCase a caps k rest) as [found'|] eqn:Hloop.
      * intros [= ->]. destruct (IH eq_refl) as (taken & rest' & -> & Htaken & Hk).
        exists (c :: taken), rest'. repeat split; [|exact Hk].
        constructor; assumption.
      * intros Hk. exists [], (c :: rest). repeat split; [constructor|exact Hk].
    + intros Hk. exists [], (c :: rest). repeat split; [constructor|exact Hk].
Qed.

(** Whatever a pattern finds, it finds by handing a later part of the input
    to what follows. *)
Lemma run_sound r : forall rest caps k found,
  run ignoreCase inputLength r rest caps k = Some found ->
  exists taken rest' caps', rest = taken ++ rest' /\ k rest' caps' = Some found.
Proof.
  induction r as [a|a|a|r1 IH1 r2 IH2|r1 IH1 r2 IH2|r IH|i r IH| |];
    intros rest caps k found; simpl.
  - destruct rest as [|c rest]; [discriminate|].
    destruct (accepts ignoreCase a c); [|discriminate].
    intros Hk. exists [c], rest, caps. split; [reflexivity|exact Hk].
  - intros H. destruct (starLoop_sound _ _ _ _ _ H) as (taken & rest' & -> & _ & Hk).
    exists taken, rest', caps. split; [reflexivity|exact Hk].
  - destruct rest as [|c rest]; [discriminate|].
    destruct (accepts ignoreCase a c); [|discriminate].
    intros H. destruct (starLoop_sound _ _ _ _ _ H) as (taken & rest' & -> & _ & Hk).
    exists (c :: taken), rest', caps. split; [reflexivity|exact Hk].
  - intros H. destruct (IH1 _ _ _ _ H) as (taken1 & rest1 & caps1 & -> & H1).
    destruct (IH2 _ _ _ _ H1) as (taken2 & rest2 & caps2 & -> & H2).
    exists (taken1 ++ taken2), rest2, caps2. split; [apply app_assoc|exact H2].
  - destruct (run ignoreCase inputLength r1 rest caps k) as [found1|] eqn:H1.
    + intros [= ->]. exact (IH1 _ _ _ _ H1).
    + exact (IH2 _ _ _ _).
  - match goal with
    | |- context [run ignoreCase inputLength r rest caps ?k'] =>
        destruct (run ignoreCase inputLength r rest caps k') as [found1|] eqn:H1
    end.
    + intros [= ->]. destruct (IH _ _ _ _ H1) as (taken1 & rest1 & caps1 & -> & Hk).
      destruct (length rest1 =? length (taken1 ++ rest1))%nat; [discriminate|].
      exists taken1, rest1, caps1. split; [reflexivity|exact Hk].
    + intros Hk. exists [], rest, caps. split; [reflexivity|exact Hk].
  - intros H. destruct (IH _ _ _ _ H) as (taken1 & rest1 & caps1 & -> & Hk).
    eexists taken1, rest1, _. split; [reflexivity|exact Hk].
  - destruct (length rest =? inputLength)%nat; [|discriminate].
    intros Hk. exists [], rest, caps. split; [reflexivity|exact Hk].
  - destruct rest as [|c rest]; [|discriminate].
    intros Hk. exists [], [], caps. split; [reflexivity|exact Hk].
Qed.

(** A search that finds a match found it at some start. *)
Lemma searchFrom_sound r rest matched caps :
  searchFrom ignoreCase inputLength r rest = Some (matched, caps) ->
  exists before start rest1,
    rest = before ++ start /\
    run ignoreCase inputLength r start ∅ (fun rest1 caps1 => Some (rest1, caps1))
      = Some (rest1, caps).
Proof.
  induction rest as [|c rest IH]; simpl.
  - destruct (run ignoreCase inputLength r [] ∅ _) as [[rest1 caps1]|] eqn:Hrun;
      [|discriminate].
    intros [= _ ->]. exists [], [], rest1. split; [reflexivity|exact Hrun].
  - destruct (run ignoreCase inputLength r (c :: rest) ∅ _) as [[rest1 caps1]|] eqn:Hrun.
    + intros [= _ ->]. exists [], (c :: rest), rest1. split; [reflexivity|exact Hrun].
    + intros H. destruct (IH H) as (before & start & rest1 & -> & Hrun').
      exists (c :: before), start, rest1. split; [reflexivity|exact Hrun'].
Qed.

(** A search over starts that all fail goes on behind them. *)
Lemma searchFrom_skip r before rest :
  (forall taken more, before = taken ++ more -> more <> [] ->
     run ignoreCase inputLength r (more ++ rest) ∅ (fun rest1 caps1 => Some (rest1, caps1))
       = None) ->
  searchFrom ignoreCase inputLength r (before ++ rest)
    = searchFrom ignoreCase inputLength r rest.
Proof.
  induction before as [|c before IH]; intros Hfail; [reflexivity|].
  change ((c :: before) ++ rest) with (c :: (before ++ rest)).
  cbn [searchFrom].
  change (c :: (before ++ rest)) with ((c :: before) ++ rest).
  rewrite (Hfail [] (c :: before)); [|reflexivity|discriminate].
  apply IH. intros taken more -> Hne.
  apply (Hfail (c :: taken) more); [reflexivity|exact Hne].
Qed.

(** A match at the start is the one the search returns. *)
Lemma searchFrom_here r rest rest1 caps :
  run ignoreCase inputLength r rest ∅ (fun rest1 caps1 => Some (rest1, caps1))
    = Some (rest1, caps) ->
  searchFrom ignoreCase inputLength r rest
    = Some (take (length rest - length rest1) rest, caps).
Proof.
  intros Hrun. destruct rest as [|c rest]; cbn [searchFrom]; rewrite Hrun; reflexivity.
Qed.

Lemma run_word letters : forall t rest caps k,
  letters <> [] ->
  spells ignoreCase letters t ->
  run ignoreCase inputLength (word letters) (t ++ rest) caps k = k rest caps.
Proof.
  induction letters as [|p letters IH]; intros t rest caps k Hne Hspells; [congruence|].
  inversion Hspells as [|p' c letters' t' Hc Hmore]; subst.
  destruct letters as [|p2 letters].
  - inversion Hmore; subst. cbn [word run app]. rewrite Hc. reflexivity.
  - change (word (p :: p2 :: letters)) with (Seq (Atom (Chr p)) (word (p2 :: letters))).
    cbn [run app]. rewrite Hc. apply IH; [discriminate|exact Hmore].
Qed.

(** A text that holds the word somewhere matches it. *)
Lemma searchFrom_word letters before t rest :
  letters <> [] ->
  spells ignoreCase letters t ->
  is_Some (searchFrom ignoreCase inputLength (word letters) (before ++ t ++ rest)).
Proof.
  intros Hne Hspells. induction before as [|c before IH].
  - simpl app. erewrite searchFrom_here; [eexists; reflexivity|].
    rewrite run_word; [reflexivity|exact Hne|exact Hspells].
  - change ((c :: before) ++ t ++ rest) with (c :: (before ++ t ++ rest)).
    cbn [searchFrom].
    destruct (run ignoreCase inputLength (word letters) (c :: before ++ t ++ rest) ∅ _)
      as [[rest1 caps1]|]; [eexists; reflexivity|exact IH].
Qed.

Lemma run_Seq r1 r2 rest caps k :
  run ignoreCase inputLength (Seq r1 r2) rest caps k
    = run ignoreCase inputLength r1 rest caps
        (fun rest1 caps1 => run ignoreCase inputLength r2 rest1 caps1 k).
Proof. reflexivity. Qed.

Lemma run_Bol rest caps k :
  length rest = inputLength ->
  run ignoreCase inputLength Bol rest caps k = k rest caps.
Proof. intros H. cbn [run]. rewrite H, Nat.eqb_refl. reflexivity. Qed.

Lemma run_Eol rest caps k :
  run ignoreCase inputLength Eol rest caps k
    = match rest with
      | [] => k rest caps
      | _ => None
      end.
Proof. reflexivity. Qed.

Lemma run_Atom a rest caps k :
  run ignoreCase inputLength (Atom a) rest caps k
    = match rest with
      | c :: rest' => if accepts ignoreCase a c then k rest' caps else None
      | [] => None
      end.
Proof. reflexivity. Qed.

Lemma run_Plus a rest caps k :
  run ignoreCase inputLength (Plus a) rest caps k
    = match rest with
      | c :: rest' => if accepts ignoreCase a c then starLoop ignoreCase a caps k rest' else None
      | [] => None
      end.
Proof. reflexivity. Qed.

Lemma run_Group i r rest caps k :
  run ignoreCase inputLength (Group i r) rest caps k
    = run ignoreCase inputLength r rest caps
        (fun rest1 caps1 => k rest1 (<[i := take (length rest - length rest1) rest]> caps1)).
Proof. reflexivity. Qed.

Lemma run_Star a rest caps k :
  run ignoreCase inputLength (Star a) rest caps k = starLoop ignoreCase a caps k rest.
Proof. reflexivity. Qed.

Lemma run_Opt_taken r rest caps k found :
  run ignoreCase inputLength r rest caps
    (fun rest1 caps1 =>
       if (length rest1 =? length rest)%nat then None else k rest1 caps1) = Some found ->
  run ignoreCase inputLength (Opt r) rest caps k = Some found.
Proof. intros H. cbn [run]. rewrite H. reflexivity. Qed.

Lemma run_Opt_skipped r rest caps k :
  run ignoreCase inputLength r rest caps
    (fun rest1 caps1 =>
       if (length rest1 =? length rest)%nat then None else k rest1 caps1) = None ->
  run ignoreCase inputLength (Opt r) rest caps k = k rest caps.
Proof. intros H. cbn [run]. rewrite H. reflexivity. Qed.

Lemma take_taken taken rest :
  take (length (taken ++ rest) - length rest) (taken ++ rest) = taken.
Proof.
  rewrite length_app.
  replace (length taken + length rest - length rest)%nat with (length taken) by lia.
  apply take_app_length.
Qed.

Lemma group_set (i : nat) (t : text) caps : (<[i := t]> caps : captures) !! i = Some t.
Proof. apply lookup_insert_eq. Qed.

Lemma group_other (i j : nat) (t : text) caps :
  i <> j -> (<[i := t]> caps : captures) !! j = caps !! j.
Proof. apply lookup_insert_ne. Qed.

Lemma group_none (j : nat) : (∅ : captures) !! j = None.
Proof. apply lookup_empty. Qed.

Lemma take_whole taken :
  take (length taken - length (@nil code)) taken = taken.
Proof. simpl. rewrite Nat.sub_0_r. apply firstn_all. Qed.

Lemma shorter taken rest :
  taken <> [] -> (length rest =? length (taken ++ rest))%nat = false.
Proof.
  intros Hne. apply Nat.eqb_neq. rewrite length_app.
  destruct taken; [congruence|]. simpl. lia.
Qed.

(** A group around [a+] takes a whole stretch of accepted characters when
    what follows succeeds behind it. *)
Lemma run_Group_Plus i a taken rest caps k found :
  taken <> [] ->
  accepted a taken ->
  match rest with
  | [] => True
  | c :: _ => accepts ignoreCase a c = false
  end ->
  k rest (<[i := taken]> caps) = Some found ->
  run ignoreCase inputLength (Group i (Plus a)) (taken ++ rest) caps k = Some found.
Proof.
  intros Hne Htaken Hstop Hk. rewrite run_Group.
  destruct taken as [|c taken]; [congruence|].
  inversion Htaken as [|? ? Hc Hmore]; subst.
  change ((c :: taken) ++ rest) with (c :: (taken ++ rest)) at 1.
  cbn [run]. rewrite Hc.
  apply starLoop_longest; [exact Hmore|exact Hstop|].
  change (c :: (taken ++ rest)) with ((c :: taken) ++ rest).
  rewrite take_taken. exact Hk.
Qed.

End Matcher.

End RegexFacts.

Module StaffFacts.
Import Bootstrap Regex StaffImport RegexFacts.
#[local] Open Scope list_scope.

Section WithFields.
Variable field : Fields.
Variable toLowerCase : text -> text.

Implicit Types (rec : record) (first final between fullName : text) (c d : code).

Lemma namePart_accepted w :
  namePart w -> Forall (fun c => accepts false (NoneOf [quote; space]) c = true) w.
Proof.
  unfold namePart. intros H. eapply Forall_impl; [exact H|].
  intros c Hc. simpl. rewrite bool_decide_eq_false_2; [reflexivity|exact Hc].
Qed.

Lemma separator_refused c :
  c ∈ [quote; space] -> accepts false (NoneOf [quote; space]) c = false.
Proof. intros Hc. simpl. rewrite bool_decide_eq_true_2; [reflexivity|exact Hc]. Qed.

Lemma separator_no_comma c :
  c ∈ [quote; space] -> accepts false (OneOf [comma; semicolon]) c = false.
Proof.
  intros Hc. simpl. apply bool_decide_eq_false_2.
  intros Hin. set_unfold. unfold quote, space, comma, semicolon in *.
  destruct Hc as [->|[->|[]]]; destruct Hin as [Hin|[Hin|[]]]; discriminate Hin.
Qed.

(** *** Headers *)

Lemma spells_canonical letters t :
  map canonicalize t = map canonicalize letters -> spells true letters t.
Proof.
  revert t. induction letters as [|p letters IH]; intros [|c t] H; try discriminate.
  - constructor.
  - injection H as Hc Hmore. constructor; [|apply IH; exact Hmore].
    simpl. rewrite Hc. apply N.eqb_refl.
Qed.

(** *** Names *)

(** The bits of a full name of two parts with something between them. *)
Lemma bits_of_full_name first between final :
  first <> [] -> final <> [] ->
  namePart first -> namePart final ->
  (exists d, head between = Some d /\ d ∈ [quote; space]) ->
  (exists d, last between = Some d /\ d ∈ [quote; space]) ->
  Forall (fun c => lineTerminator c = false) between ->
  matchOf false bitsExtractor (first ++ between ++ final)
    = Some (first ++ between ++ final,
            <[3%nat := final]> (<[2%nat := between]> (<[1%nat := first]> ∅))).
Proof.
  intros Hfirst Hfinal Wfirst Wfinal (d1 & Hd1 & Sd1) (d2 & Hd2 & Sd2) Hline.
  assert (Hne : between <> []) by (intros ->; discriminate).
  assert (Hhead : exists tail, between = d1 :: tail).
  { destruct between as [|b tail]; [discriminate|].
    injection Hd1 as ->. exists tail. reflexivity. }
  destruct Hhead as [tail Htail].
  apply last_Some in Hd2. destruct Hd2 as [middle Hmiddle].
  unfold matchOf.
  set (n := length (first ++ between ++ final)).
  erewrite searchFrom_here.
  2:{ unfold bitsExtractor. rewrite run_Seq, run_Bol by reflexivity.
      rewrite run_Seq. apply run_Opt_taken.
      apply run_Group_Plus;
        [exact Hfirst|apply namePart_accepted; exact Wfirst
        |rewrite Htail; apply separator_refused; exact Sd1|].
      rewrite shorter by exact Hfirst.
      rewrite run_Seq. rewrite run_Opt_skipped.
      2:{ rewrite run_Atom, Htail, <- app_comm_cons.
          rewrite separator_no_comma by exact Sd1. reflexivity. }
      rewrite run_Seq. apply run_Opt_taken.
      rewrite run_Group, run_Seq, run_Star.
      rewrite Hmiddle at 1. rewrite <- app_assoc.
      apply starLoop_app_Some.
      { rewrite Forall_forall. intros c Hc. simpl.
        rewrite Forall_forall in Hline. rewrite (Hline c); [reflexivity|].
        rewrite Hmiddle. apply elem_of_app. left. exact Hc. }
      rewrite starLoop_first.
      2:{ intros taken rest' Htaken Heq _.
          destruct taken as [|t0 taken]; [congruence|].
          simpl in Heq. injection Heq as _ Hrest.
          rewrite run_Atom.
          destruct rest' as [|r0 rest']; [reflexivity|].
          assert (Hr0 : r0 ∈ final).
          { rewrite Hrest. apply elem_of_app. right. left. }
          unfold namePart in Wfinal. rewrite Forall_forall in Wfinal.
          pose proof (Wfinal r0 Hr0) as Hw.
          simpl. rewrite bool_decide_eq_false_2 by exact Hw. reflexivity. }
      change ([d2] ++ final) with (d2 :: final). rewrite run_Atom.
      assert (Hacc : accepts false (OneOf [quote; space]) d2 = true).
      { simpl. apply bool_decide_eq_true_2. exact Sd2. }
      rewrite Hacc.
      rewrite shorter by exact Hne.
      rewrite take_taken.
      rewrite <- (app_nil_r final) at 1.
      rewrite run_Seq.
      apply run_Group_Plus;
        [exact Hfinal|apply namePart_accepted; exact Wfinal|exact I|].
      rewrite run_Eol. reflexivity. }
  f_equal. f_equal.
  apply take_whole.
Qed.

(** Nothing of the pattern behind the first group matches the empty rest. *)
Lemma bits_rest_nil n caps k :
  run false n
    (Seq (Opt (Atom (OneOf [comma; semicolon])))
       (Seq (Opt (Group 2 (Seq (Star AnyChar) (Atom (OneOf [quote; space])))))
          (Seq (Group 3 (Plus (NoneOf [quote; space]))) Eol))) [] caps k = None.
Proof. reflexivity. Qed.

(** The bits of a full name of one part: the first group gives its last
    character back to the third. *)
Lemma bits_of_one_word w c :
  w <> [] -> namePart (w ++ [c]) ->
  matchOf false bitsExtractor (w ++ [c])
    = Some (w ++ [c], <[3%nat := [c]]> (<[1%nat := w]> ∅)).
Proof.
  intros Hw Wall. unfold namePart in Wall.
  apply Forall_app in Wall. destruct Wall as [Ww Wc].
  apply namePart_accepted in Ww. apply namePart_accepted in Wc.
  inversion Wc as [|? ? Hc _]; subst.
  destruct w as [|w0 w]; [congruence|].
  inversion Ww as [|? ? Hw0 Hmore]; subst.
  unfold matchOf.
  set (n := length ((w0 :: w) ++ [c])).
  erewrite searchFrom_here.
  2:{ unfold bitsExtractor. rewrite run_Seq, run_Bol by reflexivity.
      rewrite run_Seq. apply run_Opt_taken.
      rewrite run_Group.
      rewrite <- app_comm_cons, run_Plus, Hw0.
      apply starLoop_app_Some; [exact Hmore|].
      cbn [starLoop]. rewrite Hc.
      assert (Hlen : (length [c] =? length (w0 :: w ++ [c]))%nat = false).
      { apply Nat.eqb_neq. simpl. rewrite length_app. simpl. lia. }
      assert (Hlen0 : (length (@nil code) =? length (w0 :: w ++ [c]))%nat = false)
        by reflexivity.
      rewrite Hlen0, bits_rest_nil, Hlen.
      rewrite run_Seq, run_Opt_skipped.
      2:{ rewrite run_Atom.
          destruct (accepts false (OneOf [comma; semicolon]) c); reflexivity. }
      rewrite run_Seq, run_Opt_skipped.
      2:{ rewrite run_Group, run_Seq, run_Star. cbn [starLoop].
          assert (Hsep : accepts false (OneOf [quote; space]) c = false).
          { simpl in Hc |- *. destruct (bool_decide (c ∈ [quote; space]));
              [discriminate|reflexivity]. }
          rewrite !run_Atom, Hsep.
          destruct (accepts false AnyChar c); reflexivity. }
      rewrite run_Seq, run_Group, run_Plus, Hc. cbn [starLoop].
      rewrite run_Eol. reflexivity. }
  f_equal. f_equal.
  - apply take_whole.
  - change (w0 :: w ++ [c]) with ((w0 :: w) ++ [c]). rewrite take_taken. reflexivity.
Qed.

(** [lastNameFirst] matches exactly the texts with a comma or semicolon. *)
Lemma lastNameFirst_matches fullName :
  is_Some (matchOf false lastNameFirst fullName)
  <-> Exists (fun c => c ∈ [comma; semicolon]) fullName.
Proof.
  unfold matchOf. generalize (length fullName) as n. intros n.
  induction fullName as [|c fullName IH].
  - simpl. split; [intros [? [=]]|intros H; inversion H].
  - cbn [searchFrom]. unfold lastNameFirst at 1. rewrite run_Atom.
    change (accepts false (OneOf [comma; semicolon]) c)
      with (bool_decide (c ∈ [comma; semicolon])).
    case_bool_decide as Hc.
    + split; [intros _; left; exact Hc|intros _; eexists; reflexivity].
    + rewrite IH. split; [intros H; right; exact H|].
      intros H. inversion H; subst; [contradiction|assumption].
Qed.

(** Whatever [bitsExtractor] matches ends in a name part. *)
Lemma bits_sound fullName matched groups :
  matchOf false bitsExtractor fullName = Some (matched, groups) ->
  exists before c w, fullName = before ++ c :: w /\ namePart (c :: w).
Proof.
  unfold matchOf. intros H.
  destruct (searchFrom_sound _ _ _ _ _ _ H) as (before & start & rest1 & -> & Hrun).
  unfold bitsExtractor in Hrun. rewrite run_Seq in Hrun.
  destruct (run_sound _ _ _ _ _ _ _ Hrun) as (t1 & r1 & c1 & -> & H1). cbn beta in H1.
  rewrite run_Seq in H1.
  destruct (run_sound _ _ _ _ _ _ _ H1) as (t2 & r2 & c2 & -> & H2). cbn beta in H2.
  rewrite run_Seq in H2.
  destruct (run_sound _ _ _ _ _ _ _ H2) as (t3 & r3 & c3 & -> & H3). cbn beta in H3.
  rewrite run_Seq in H3.
  destruct (run_sound _ _ _ _ _ _ _ H3) as (t4 & r4 & c4 & -> & H4). cbn beta in H4.
  rewrite run_Seq, run_Group, run_Plus in H4.
  destruct r4 as [|c w]; [discriminate|].
  destruct (accepts false (NoneOf [quote; space]) c) eqn:Hc; [|discriminate].
  destruct (starLoop_sound _ _ _ _ _ _ H4) as (taken & rest' & -> & Htaken & Hk).
  rewrite run_Eol in Hk. destruct rest' as [|? ?]; [|discriminate].
  exists (before ++ t1 ++ t2 ++ t3 ++ t4), c, taken. split.
  - rewrite app_nil_r, <- !app_assoc. reflexivity.
  - assert (Hall : Forall (fun c => accepts false (NoneOf [quote; space]) c = true)
                     (c :: taken)) by (constructor; assumption).
    unfold namePart. eapply Forall_impl; [exact Hall|].
    intros d Hd. simpl in Hd. apply negb_true_iff in Hd.
    apply bool_decide_eq_false in Hd. exact Hd.
Qed.

(** The nickname in the first pair of quotation marks. *)
Lemma nickname_of_full_name before nick after :
  quote ∉ before -> nick <> [] -> quote ∉ nick ->
  exists matched,
    matchOf false nicknameExtractor (before ++ quote :: nick ++ quote :: after)
      = Some (matched, <[1%nat := nick]> ∅).
Proof.
  intros Hbefore Hnick Hquote. unfold matchOf.
  set (n := length (before ++ quote :: nick ++ quote :: after)).
  rewrite searchFrom_skip.
  2:{ intros taken more -> Hmore.
      destruct more as [|c more]; [congruence|].
      assert (Hc : (c =? quote)%N = false).
      { apply N.eqb_neq. intros ->. apply Hbefore.
        apply elem_of_app. right. left. }
      unfold nicknameExtractor. cbn [run]. rewrite <- app_comm_cons.
      cbn [accepts]. rewrite Hc. reflexivity. }
  assert (Hacc : Forall (fun c => accepts false (NoneOf [quote]) c = true) nick).
  { rewrite Forall_forall. intros c Hc. simpl.
    rewrite bool_decide_eq_false_2; [reflexivity|].
    intros Hin. apply Hquote. set_unfold. destruct Hin as [->|[]]. exact Hc. }
  erewrite searchFrom_here; [eexists; reflexivity|].
  unfold nicknameExtractor.
  assert (Hfirst :
    run false n
      (Seq (Atom (Chr quote)) (Seq (Group 1 (Plus (NoneOf [quote]))) (Atom (Chr quote))))
      (quote :: nick ++ quote :: after) ∅ (fun rest1 caps1 => Some (rest1, caps1))
    = Some (after, <[1%nat := nick]> ∅)).
  { rewrite run_Seq, run_Atom.
    change (accepts false (Chr quote) quote) with true. cbn match.
    rewrite run_Seq. apply run_Group_Plus; [exact Hnick|exact Hacc|reflexivity|].
    rewrite run_Atom. reflexivity. }
  change (run false n (Alt ?r1 ?r2) ?rest ?caps ?k)
    with (match run false n r1 rest caps k with
          | Some found => Some found
          | None => run false n r2 rest caps k
          end).
  rewrite Hfirst. reflexivity.
Qed.

(** The messages of the three checks, in their order. *)
Lemma errorMessages_cases (newHeaders : list text) :
  omap (fun v => v newHeaders) (headerValidations field)
  = (if has newHeaders (TITLE field) then []
     else [lit "missing '" ++ TITLE field ++ lit "' column."])
    ++ (if has newHeaders (EMAIL field) then []
        else [lit "missing '" ++ EMAIL field ++ lit "' column."])
    ++ (if has newHeaders (GIVEN_NAME field) || has newHeaders (FULL_NAME field) then []
        else [lit "you must provide either '" ++ FAMILY_NAME field ++ lit "', '"
              ++ FULL_NAME field ++ lit "', or both."]).
Proof.
  unfold headerValidations. cbn [omap list_omap].
  destruct (has newHeaders (TITLE field)), (has newHeaders (EMAIL field)),
    (has newHeaders (GIVEN_NAME field)), (has newHeaders (FULL_NAME field));
    reflexivity.
Qed.

(** X19. Headers are accepted exactly when the normalised headers hold the
    title, the email and one of given name and full name; the result is then
    the normalised headers, one for each header that came in. *)
Theorem headers_accepted fileName origHeaders newHeaders :
  validateAndNormalizeHeaders field fileName origHeaders = inr newHeaders
  <-> newHeaders = map (normalizeHeader field) origHeaders
      /\ TITLE field ∈ newHeaders
      /\ EMAIL field ∈ newHeaders
      /\ (GIVEN_NAME field ∈ newHeaders \/ FULL_NAME field ∈ newHeaders).
Proof.
  unfold validateAndNormalizeHeaders. cbv zeta. rewrite errorMessages_cases.
  generalize (map (normalizeHeader field) origHeaders) as new. intros new.
  unfold has.
  destruct (bool_decide (TITLE field ∈ new)) eqn:Htitle;
    destruct (bool_decide (EMAIL field ∈ new)) eqn:Hemail;
    destruct (bool_decide (GIVEN_NAME field ∈ new)) eqn:Hgiven;
    destruct (bool_decide (FULL_NAME field ∈ new)) eqn:Hfull;
    cbn [orb app];
    repeat match goal with
           | H : bool_decide _ = true |- _ => apply bool_decide_eq_true in H
           | H : bool_decide _ = false |- _ => apply bool_decide_eq_false in H
           end;
    (split; [intros Heq|intros (-> & Ht & He & Hn)]);
    try discriminate Heq;
    try (injection Heq as <-; repeat split; tauto);
    try reflexivity;
    try tauto.
Qed.

(** X20. Headers with neither a given name nor a full name are refused, and
    the message asks for the family name or the full name, whether or not a
    family name is among the headers. *)
Theorem headers_without_given_name_refused fileName origHeaders :
  GIVEN_NAME field ∉ map (normalizeHeader field) origHeaders ->
  FULL_NAME field ∉ map (normalizeHeader field) origHeaders ->
  exists before,
    validateAndNormalizeHeaders field fileName origHeaders
      = inl (lit "Error's processing '" ++ fileName ++ lit "': " ++ before
             ++ lit "you must provide either '" ++ FAMILY_NAME field ++ lit "', '"
             ++ FULL_NAME field ++ lit "', or both.").
Proof.
  unfold validateAndNormalizeHeaders. cbv zeta. rewrite errorMessages_cases.
  generalize (map (normalizeHeader field) origHeaders) as new. intros new Hgiven Hfull.
  unfold has.
  rewrite (bool_decide_eq_false_2 _ Hgiven), (bool_decide_eq_false_2 _ Hfull).
  generalize (lit "you must provide either '" ++ FAMILY_NAME field ++ lit "', '"
              ++ FULL_NAME field ++ lit "', or both.") as wanted.
  generalize (lit "missing '" ++ TITLE field ++ lit "' column.") as noTitle.
  generalize (lit "missing '" ++ EMAIL field ++ lit "' column.") as noEmail.
  generalize (lit "Error's processing '" ++ fileName ++ lit "': ") as opening.
  intros opening noEmail noTitle wanted.
  destruct (bool_decide (TITLE field ∈ new)), (bool_decide (EMAIL field ∈ new));
    cbn [orb app join].
  - exists []. reflexivity.
  - exists (bullet ++ noEmail ++ bullet). rewrite <- !app_assoc. reflexivity.
  - exists (bullet ++ noTitle ++ bullet). rewrite <- !app_assoc. reflexivity.
  - exists (bullet ++ noTitle ++ bullet ++ noEmail ++ bullet).
    rewrite <- !app_assoc. reflexivity.
Qed.

(** X21. A header that holds the word company, in any letter case, becomes the
    company field, whatever else it holds. *)
Theorem company_header before t after :
  map canonicalize t = map canonicalize (lit "company") ->
  normalizeHeader field (before ++ t ++ after) = COMPANY field.
Proof.
  intros Ht. unfold normalizeHeader, headerMatchers. cbn [List.find fst].
  rewrite bool_decide_eq_true_2; [reflexivity|].
  unfold matchOf. apply searchFrom_word; [discriminate|].
  apply spells_canonical. exact Ht.
Qed.

(** X22. A record without nickname whose full name holds a non-empty text
    between quotation marks gets the first such text as its nickname. *)
Theorem nickname_from_full_name rec before nick after :
  nonEmpty (get rec (NICKNAME field)) = false ->
  get rec (FULL_NAME field) = Some (before ++ quote :: nick ++ quote :: after) ->
  quote ∉ before -> nick <> [] -> quote ∉ nick ->
  normalizeNickname field rec = <[NICKNAME field := nick]> rec.
Proof.
  intros Hnone Hfull Hbefore Hnick Hquote. 
  unfold normalizeNickname. rewrite Hnone, Hfull.
  assert (Hpresent : nonEmpty (Some (before ++ quote :: nick ++ quote :: after)) = true)
    by (destruct before; reflexivity).
  rewrite Hpresent. cbn [negb andb from_option]. unfold id.
  destruct (nickname_of_full_name before nick after Hbefore Hnick Hquote) as [matched ->].
  rewrite group_set. unfold orElse.
  destruct nick as [|n0 nick]; [congruence|]. reflexivity.
Qed.

(** X23. From a full name of a first and a final part with separators between
    them, a record without given and family name gets the first part as given
    name and the final part as family name, and the other way round when the
    full name holds a comma or semicolon, which then stays in the name. *)
Theorem names_from_full_name rec first between final :
  get rec (GIVEN_NAME field) = None ->
  get rec (FAMILY_NAME field) = None ->
  get rec (FULL_NAME field) = Some (first ++ between ++ final) ->
  first <> [] -> final <> [] ->
  namePart first -> namePart final ->
  (exists d, head between = Some d /\ d ∈ [quote; space]) ->
  (exists d, last between = Some d /\ d ∈ [quote; space]) ->
  Forall (fun c => lineTerminator c = false) between ->
  normalizeNames field toLowerCase rec
    = inr (if bool_decide (Exists (fun c => c ∈ [comma; semicolon])
                             (first ++ between ++ final))
           then <[FAMILY_NAME field := first]> (<[GIVEN_NAME field := final]> rec)
           else <[FAMILY_NAME field := final]> (<[GIVEN_NAME field := first]> rec)).
Proof.
  intros Hgiven Hfamily Hfull Hfirst Hfinal Wfirst Wfinal Hhead Hlast Hline. 
  unfold normalizeNames. rewrite Hgiven, Hfamily, Hfull. cbn [nonEmpty negb orb].
  destruct (first ++ between ++ final) as [|c more] eqn:Hname.
  { destruct first; [congruence|discriminate]. }
  rewrite <- Hname.
  rewrite (bits_of_full_name first between final) by assumption.
  rewrite (bool_decide_ext _ _ (lastNameFirst_matches _)).
  rewrite group_set, !group_other, group_set by discriminate.
  unfold updateNames. rewrite Hgiven, Hfamily.
  destruct first as [|f0 first]; [congruence|].
  destruct final as [|l0 final]; [congruence|].
  case_bool_decide; reflexivity.
Qed.

(** X24. A full name of one part is cut before its last character: a record
    without given and family name gets all but the last character as given
    name and the last character as family name (the other way round when the
    part holds a comma or semicolon). *)
Theorem one_word_full_name rec w c :
  get rec (GIVEN_NAME field) = None ->
  get rec (FAMILY_NAME field) = None ->
  get rec (FULL_NAME field) = Some (w ++ [c]) ->
  w <> [] -> namePart (w ++ [c]) ->
  normalizeNames field toLowerCase rec
    = inr (if bool_decide (Exists (fun c => c ∈ [comma; semicolon]) (w ++ [c]))
           then <[FAMILY_NAME field := w]> (<[GIVEN_NAME field := [c]]> rec)
           else <[FAMILY_NAME field := [c]]> (<[GIVEN_NAME field := w]> rec)).
Proof.
  intros Hgiven Hfamily Hfull Hw Wall. 
  unfold normalizeNames. rewrite Hgiven, Hfamily, Hfull. cbn [nonEmpty negb orb].
  destruct (w ++ [c]) as [|c0 more] eqn:Hname.
  { destruct w; [congruence|discriminate]. }
  rewrite <- Hname in *.
  rewrite (bits_of_one_word w c) by assumption.
  rewrite (bool_decide_ext _ _ (lastNameFirst_matches _)).
  rewrite group_set, group_other, group_set by discriminate.
  unfold updateNames. rewrite Hgiven, Hfamily.
  destruct w as [|w0 w]; [congruence|].
  case_bool_decide; reflexivity.
Qed.

(** X25. A full name that ends in a space or a quotation mark is refused when
    the given name or the family name is missing. *)
Theorem full_name_ending_in_separator_refused rec fullName c :
  nonEmpty (get rec (GIVEN_NAME field)) = false \/ nonEmpty (get rec (FAMILY_NAME field)) = false ->
  get rec (FULL_NAME field) = Some fullName ->
  last fullName = Some c ->
  c ∈ [quote; space] ->
  normalizeNames field toLowerCase rec
    = inl (lit "Could not extract useful data from field '" ++ FULL_NAME field
           ++ lit "' with value '" ++ fullName ++ lit "'; is it empty?").
Proof.
  intros Hmissing Hfull Hlast Hc.
  unfold normalizeNames. rewrite Hfull.
  assert (Hcond : negb (nonEmpty (get rec (GIVEN_NAME field)))
                  || negb (nonEmpty (get rec (FAMILY_NAME field))) = true).
  { destruct Hmissing as [-> | ->]; [reflexivity|apply orb_true_r]. }
  rewrite Hcond.
  destruct fullName as [|c0 more] eqn:Hname; [discriminate|].
  rewrite <- Hname in *.
  destruct (matchOf false bitsExtractor fullName) as [[matched groups]|] eqn:Hbits.
  - exfalso. destruct (bits_sound _ _ _ Hbits) as (before & d & w & Heq & Hw).
    rewrite Heq in Hlast.
    assert (Hin : c ∈ d :: w).
    { apply last_Some in Hlast. destruct Hlast as [l' Hl'].
      destruct (last_Some (d :: w) (List.last (d :: w) d)) as [_ Hex].
      assert (Hdw : exists l2, d :: w = l2 ++ [List.last (d :: w) d]).
      { exists (removelast (d :: w)). apply app_removelast_last. discriminate. }
      destruct Hdw as [l2 Hl2]. rewrite Hl2 in Hl'.
      rewrite app_assoc in Hl'. apply app_inj_tail in Hl'. destruct Hl' as [_ Hlast'].
      rewrite Hl2, <- Hlast'. apply elem_of_app. right. left. }
    unfold namePart in Hw. rewrite Forall_forall in Hw. exact (Hw c Hin Hc).
  - unfold errorContext, apostrophe. rewrite <- !app_assoc. reflexivity.
Qed.

(** X26. When the family name of the record differs from the one the full name
    gives, the message shows the extracted given name as the surname and, for
    the specified surname, the given name of the record, which reads undefined
    when it is missing. *)
Theorem family_name_mismatch_message rec first between final family :
  get rec (GIVEN_NAME field) = None ->
  get rec (FAMILY_NAME field) = Some family ->
  family <> [] -> family <> final ->
  get rec (FULL_NAME field) = Some (first ++ between ++ final) ->
  first <> [] -> final <> [] ->
  namePart first -> namePart final ->
  (exists d, head between = Some d /\ d ∈ [quote; space]) ->
  (exists d, last between = Some d /\ d ∈ [quote; space]) ->
  Forall (fun c => lineTerminator c = false) between ->
  Forall (fun c => c ∉ [comma; semicolon]) (first ++ between ++ final) ->
  normalizeNames field toLowerCase rec
    = inl (lit "Extracted surname '" ++ first ++ lit "' from full name '"
           ++ (first ++ between ++ final)
           ++ lit "' but it does not match specified surname 'undefined'").
Proof.
  intros Hgiven Hfamily Hfam Hdiff Hfull Hfirst Hfinal Wfirst Wfinal Hhead Hlast Hline Hplain.
  unfold normalizeNames. rewrite Hgiven, Hfull. cbn [nonEmpty negb orb].
  destruct (first ++ between ++ final) as [|c more] eqn:Hname.
  { destruct first; [congruence|discriminate]. }
  rewrite <- Hname in *.
  rewrite (bits_of_full_name first between final) by assumption.
  rewrite bool_decide_eq_false_2.
  2:{ rewrite lastNameFirst_matches. rewrite Exists_exists.
      intros (x & Hin & Hx). rewrite Forall_forall in Hplain. exact (Hplain x Hin Hx). }
  rewrite group_set, !group_other, group_set by discriminate.
  unfold updateNames. rewrite Hgiven, Hfamily.
  destruct first as [|f0 first]; [congruence|].
  destruct family as [|m0 family]; [congruence|].
  cbn [nonEmpty negb andb from_option]. unfold id.
  rewrite bool_decide_eq_false_2 by congruence.
  cbn [negb andb]. unfold apostrophe. rewrite <- !app_assoc. reflexivity.
Qed.

(** X27. The records are normalised one by one, nickname first and names
    after; the result holds one record for each that came in, or is what the
    first record that fails throws. *)
Theorem records_normalized_in_order records :
  match validateAndNormalizeRecords field toLowerCase records with
  | inr normalized =>
      Forall2 (fun rec out =>
                 normalizeNames field toLowerCase (normalizeNickname field rec) = inr out)
        records normalized
  | inl thrown =>
      exists before rec after,
        records = before ++ rec :: after
        /\ Forall (fun r => exists out,
                     normalizeNames field toLowerCase (normalizeNickname field r) = inr out)
             before
        /\ normalizeNames field toLowerCase (normalizeNickname field rec) = inl thrown
  end.
Proof.
  induction records as [|rec records IH]; cbn [validateAndNormalizeRecords].
  - constructor.
  - destruct (normalizeNames field toLowerCase (normalizeNickname field rec))
      as [thrown|out] eqn:Hrec.
    + exists [], rec, records. repeat split; [constructor|exact Hrec].
    + destruct (validateAndNormalizeRecords field toLowerCase records) as [thrown|rest].
      * destruct IH as (before & rec' & after & -> & Hbefore & Hthrown).
        exists (rec :: before), rec', after. repeat split; [|exact Hthrown].
        constructor; [exists out; exact Hrec|exact Hbefore].
      * constructor; [exact Hrec|exact IH].
Qed.

End WithFields.

End StaffFacts.

Module MoreExamples.
Import Model ErrorPipeline Bootstrap Samples.
Import Registry RegistryFacts RegistryMore.
Import PipelineFacts PipelineRuns StripFacts PipelineMore.
Import BootstrapFacts BootstrapMore.
Import MoreSamples.

(** *** The registry *)


Lemma registry_holds_exactly_witness :
  exists root : jsobject nat,
    registerAll [(["work"; "list"], 1); (["work"], 2); ([], 3)] (Plain ∅) = Some root
    /\ forall q r,
         getParameters q root = Some r
         <-> (q, r) ∈ [(["work"; "list"], 1); (["work"], 2); ([], 3)].
Proof.
  eexists. split; [vm_compute; reflexivity|].
  apply registry_holds_exactly.
  - apply (bool_decide_unpack _). vm_compute. exact I.
  - repeat (match goal with |- Forall _ _ => constructor end; simpl);
      unfold ordinary; split;
      apply (bool_decide_unpack _); vm_compute; exact I.
  - vm_compute. reflexivity.
Defined.

Lemma registration_order_irrelevant_witness :
  registerAll [(["work"; "list"], 1); (["work"], 2); (["name"], 3)] (Plain ∅)
  = registerAll [(["work"], 2); (["work"; "list"], 1); (["name"], 3)] (Plain ∅).
Proof.
  apply (registration_order_irrelevant
           [(["work"; "list"], 1); (["work"], 2); (["name"], 3)]
           [(["work"], 2); (["work"; "list"], 1); (["name"], 3)]).
  - apply perm_swap.
  - apply (bool_decide_unpack _). vm_compute. exact I.
  - repeat (match goal with |- Forall _ _ => constructor end; simpl);
      unfold ordinary; split;
      apply (bool_decide_unpack _); vm_compute; exact I.
Defined.

(** *** The error pipeline *)

Lemma cycling_bound : forall k, cycling k < charactersLength.
Proof.
  intros k. unfold cycling. change charactersLength with 34%nat.
  pose proof (Nat.mod_upper_bound k 5). lia.
Qed.

Lemma listed_status_is_classified_witness :
  statusText 404 = Some "NotFound"
  /\ (400 <= 404 < 512)%Z
  /\ errorSource 404 = (if (404 <? 500)%Z then "Client" else "Server").
Proof.
  split; [reflexivity|].
  apply (listed_status_is_classified 404 "NotFound"). reflexivity.
Defined.

Lemma captureAll_log_witness :
  let w := runningWorld 999 in
  let incoming := [(1%Z, notFound); (2%Z, notFound); (3%Z, notFound)] in
  let all := (arrayAt (errorsEphemeral (ext w)) w
              ++ recordsOf cycling (randomCalls w) incoming)%list in
  ext (captureAll cycling incoming w) = ext w
  /\ arrayAt (errorsEphemeral (ext w)) (captureAll cycling incoming w)
     = drop (length all - 1000) all.
Proof.
  apply (captureAll_log cycling
           [(1%Z, notFound); (2%Z, notFound); (3%Z, notFound)] (runningWorld 999)).
  vm_compute. lia.
Defined.

Lemma makeID_length_witness :
  String.length (fst (makeID cycling 8 (runningWorld 0))) = 8
  /\ fromAlphabet (fst (makeID cycling 8 (runningWorld 0)))
  /\ randomCalls (snd (makeID cycling 8 (runningWorld 0)))
     = (randomCalls (runningWorld 0) + 8)%nat
  /\ ext (snd (makeID cycling 8 (runningWorld 0))) = ext (runningWorld 0)
  /\ arrays (snd (makeID cycling 8 (runningWorld 0))) = arrays (runningWorld 0).
Proof.
  apply (makeID_length cycling cycling_bound 8 (runningWorld 0)).
Defined.


(** *** The bootstrap *)

Lemma failed_bootstrap_writes_no_manifest_witness :
  let run := appInit readOnlyEnvironment 5 sampleOptions (diskWorld, []) in
  fst run = Abrupt "EACCES"
  /\ exists added,
       snd (snd run) = ([] ++ added)%list
       /\ (Forall (fun e => e <> Log "Registering API...") added
           \/ exists before reason,
                added = (before ++ [Log "Registering API..."])%list
                /\ Forall (fun e => e <> Log "Registering API...") before
                /\ fst run = Abrupt reason
                /\ (stringifyThrows readOnlyEnvironment (handlers (ext (fst (snd run))))
                    = Some reason
                    \/ writeFileRejects readOnlyEnvironment
                         (apiSpecFile sampleOptions (display (serverHome sampleOptions)))
                         (fst (snd run)) = Some reason)).
Proof.
  cbv zeta. split; [vm_compute; reflexivity|].
  apply (failed_bootstrap_writes_no_manifest readOnlyEnvironment 5 sampleOptions diskWorld []).
  intros v. vm_compute. discriminate.
Defined.

(** A bootstrap that fails earlier, in a pending handler: nothing of the
    manifest is in its events. *)
Example failed_in_pending_handler :
  appInit throwingEnvironment 5 sampleOptions (diskWorld, [])
  = (Abrupt "handler 12 failed",
     snd (appInit throwingEnvironment 5 sampleOptions (diskWorld, [])))
  /\ snd (snd (appInit throwingEnvironment 5 sampleOptions (diskWorld, [])))
     = [CallInitModel; Use JsonBody; Use UrlencodedBody; Use FileUpload;
        WriteFile "/home/liq/.liq/server-settings.yaml";
        Log "Loading core handlers..."; CallRegisterHandlers "core"; CallLoadPlugins;
        ReadFile "/plugins/a/package.json"; CallLoadPlugin "/plugins/a";
        CallPending 11; CallPending 12].
Proof. split; vm_compute; reflexivity. Qed.

Lemma manifest_holds_handlers_witness :
  files (fst (snd (appInit sampleEnvironment 5 sampleOptions (diskWorld, []))))
    !! apiSpecFile sampleOptions (display (serverHome sampleOptions))
  = Some (JArray (handlers (ext (fst (snd (appInit sampleEnvironment 5 sampleOptions
                                            (diskWorld, []))))))).
Proof.
  apply (manifest_holds_handlers sampleEnvironment 5 sampleOptions diskWorld []).
  - vm_compute. reflexivity.
  - reflexivity.
Defined.

Lemma flushPending_never_ends_witness :
  fst (flushPending deferringEnvironment 50 0 (pushPending [1] blankWorld, []))
  = Unfinished.
Proof.
  apply (flushPending_never_ends deferringEnvironment 50 0 (pushPending [1] blankWorld) []).
  - intros k w. eexists. split; [reflexivity|].
    simpl. rewrite length_app. simpl. lia.
  - simpl. lia.
Defined.

End MoreExamples.

Module LegacyExamples.
Import Bootstrap Legacy LegacyFacts MoreSamples.

Lemma sample_registrable :
  Forall (registrable sampleRuntime)
    (handlersIndex addHandler detailsHandler listHandler removeHandler [registryHandler]).
Proof.
  repeat (match goal with |- Forall _ _ => constructor end);
    (split; [reflexivity|eexists; reflexivity]).
Qed.

Lemma initialize_registers_in_order_witness :
  let handlers :=
    handlersIndex addHandler detailsHandler listHandler removeHandler [registryHandler] in
  let after := snd (initialize sampleRuntime handlers newApp) in
  fst (initialize sampleRuntime handlers newApp) = Normal tt
  /\ initialized after = true
  /\ routes after = (routes newApp ++ routesOf sampleRuntime handlers)%list
  /\ map (fun route => (fst (fst route), snd (fst route))) (routesOf sampleRuntime handlers)
     = map (fun handler => (verb handler, path handler)) handlers
  /\ reported after = (reported newApp ++ map (announcement sampleRuntime) handlers)%list.
Proof.
  apply (initialize_registers_in_order sampleRuntime
           (handlersIndex addHandler detailsHandler listHandler removeHandler
              [registryHandler]) newApp).
  exact sample_registrable.
Defined.

Lemma initialize_twice_doubles_witness :
  let handlers :=
    handlersIndex addHandler detailsHandler listHandler removeHandler [registryHandler] in
  let once := snd (initialize sampleRuntime handlers newApp) in
  let twice := snd (initialize sampleRuntime handlers once) in
  initialized once = true
  /\ fst (initialize sampleRuntime handlers once) = Normal tt
  /\ routes twice
     = (routes newApp ++ routesOf sampleRuntime handlers
        ++ routesOf sampleRuntime handlers)%list
  /\ length (routes twice) = length (routes newApp) + 2 * length handlers.
Proof.
  apply (initialize_twice_doubles sampleRuntime
           (handlersIndex addHandler detailsHandler listHandler removeHandler
              [registryHandler]) newApp).
  exact sample_registrable.
Defined.

Lemma initialize_stops_at_unknown_verb_witness :
  let result :=
    initialize sampleRuntime ([addHandler; detailsHandler] ++ misspeltHandler :: [listHandler])
      newApp in
  fst result = Abrupt "TypeError: app[handler.verb] is not a function"
  /\ routes (snd result)
     = (routes newApp ++ routesOf sampleRuntime [addHandler; detailsHandler])%list
  /\ initialized (snd result) = initialized newApp
  /\ reported (snd result)
     = (reported newApp ++ map (announcement sampleRuntime) [addHandler; detailsHandler]
        ++ [announcement sampleRuntime misspeltHandler])%list.
Proof.
  apply (initialize_stops_at_unknown_verb sampleRuntime [addHandler; detailsHandler]
           misspeltHandler [listHandler] newApp 106).
  - repeat (match goal with |- Forall _ _ => constructor end);
      (split; [reflexivity|eexists; reflexivity]).
  - reflexivity.
  - reflexivity.
Defined.

(** What the sample logs and registers. *)
Example sample_initialize :
  snd (initialize sampleRuntime [addHandler; detailsHandler] newApp)
  = mkApp [("post", "/projects", 101); ("get", "/projects/:name", 102)] true
      ["registering handler for path: POST:/projects";
       "registering handler for path: GET:/projects/:name"].
Proof. vm_compute. reflexivity. Qed.

End LegacyExamples.

Module StaffExamples.
Import Regex StaffImport RegexFacts StaffFacts MoreSamples.
#[local] Open Scope list_scope.

Ltac listed := apply (bool_decide_unpack _); vm_compute; exact I.

Lemma headers_without_given_name_refused_witness :
  FAMILY_NAME sampleFields
    ∈ map (normalizeHeader sampleFields) [lit "Title"; lit "E-Mail"; lit "Surname"]
  /\ exists before,
       validateAndNormalizeHeaders sampleFields (lit "staff.csv")
         [lit "Title"; lit "E-Mail"; lit "Surname"]
       = inl (lit "Error's processing '" ++ lit "staff.csv" ++ lit "': " ++ before
              ++ lit "you must provide either '" ++ FAMILY_NAME sampleFields ++ lit "', '"
              ++ FULL_NAME sampleFields ++ lit "', or both.").
Proof.
  split; [listed|].
  apply (headers_without_given_name_refused sampleFields (lit "staff.csv")
           [lit "Title"; lit "E-Mail"; lit "Surname"]); listed.
Defined.

Lemma company_header_witness :
  normalizeHeader sampleFields (lit "Parent " ++ lit "COMPANY" ++ lit " email")
  = COMPANY sampleFields.
Proof.
  apply (company_header sampleFields (lit "Parent ") (lit "COMPANY") (lit " email")).
  reflexivity.
Defined.

Lemma nickname_from_full_name_witness :
  normalizeNickname sampleFields
    (named (lit "John " ++ quote :: lit "Johnny" ++ quote :: lit " Smith"))
  = <[NICKNAME sampleFields := lit "Johnny"]>
      (named (lit "John " ++ quote :: lit "Johnny" ++ quote :: lit " Smith")).
Proof.
  apply (nickname_from_full_name sampleFields
           (named (lit "John " ++ quote :: lit "Johnny" ++ quote :: lit " Smith"))
           (lit "John ") (lit "Johnny") (lit " Smith")).
  - reflexivity.
  - reflexivity.
  - listed.
  - discriminate.
  - listed.
Defined.

Lemma names_from_full_name_witness :
  let first := lit "John" in
  let between := space :: quote :: lit "Johnny" ++ [quote; space] in
  let final := lit "Smith" in
  let rec := named (first ++ between ++ final) in
  normalizeNames sampleFields lowerASCII rec
  = inr (if bool_decide (Exists (fun c => c ∈ [comma; semicolon])
                           (first ++ between ++ final))
         then <[FAMILY_NAME sampleFields := first]>
                (<[GIVEN_NAME sampleFields := final]> rec)
         else <[FAMILY_NAME sampleFields := final]>
                (<[GIVEN_NAME sampleFields := first]> rec)).
Proof.
  apply (names_from_full_name sampleFields lowerASCII
           (named (lit "John" ++ (space :: quote :: lit "Johnny" ++ [quote; space])
                   ++ lit "Smith"))
           (lit "John") (space :: quote :: lit "Johnny" ++ [quote; space]) (lit "Smith")).
  - reflexivity.
  - reflexivity.
  - reflexivity.
  - discriminate.
  - discriminate.
  - unfold namePart. listed.
  - unfold namePart. listed.
  - exists space. split; [reflexivity|listed].
  - exists space. split; [reflexivity|listed].
  - repeat constructor.
Defined.

Lemma one_word_full_name_witness :
  let rec := named (lit "Madonn" ++ lit "a") in
  normalizeNames sampleFields lowerASCII rec
  = inr (if bool_decide (Exists (fun c => c ∈ [comma; semicolon]) (lit "Madonn" ++ lit "a"))
         then <[FAMILY_NAME sampleFields := lit "Madonn"]>
                (<[GIVEN_NAME sampleFields := lit "a"]> rec)
         else <[FAMILY_NAME sampleFields := lit "a"]>
                (<[GIVEN_NAME sampleFields := lit "Madonn"]> rec)).
Proof.
  apply (one_word_full_name sampleFields lowerASCII (named (lit "Madonn" ++ lit "a"))
           (lit "Madonn") 97%N).
  - reflexivity.
  - reflexivity.
  - reflexivity.
  - discriminate.
  - unfold namePart. listed.
Defined.

Lemma full_name_ending_in_separator_refused_witness :
  normalizeNames sampleFields lowerASCII (named (lit "Ada "))
  = inl (lit "Could not extract useful data from field '" ++ FULL_NAME sampleFields
         ++ lit "' with value '" ++ lit "Ada " ++ lit "'; is it empty?").
Proof.
  apply (full_name_ending_in_separator_refused sampleFields lowerASCII
           (named (lit "Ada ")) (lit "Ada ") space).
  - left. reflexivity.
  - reflexivity.
  - reflexivity.
  - listed.
Defined.

Lemma family_name_mismatch_message_witness :
  let rec := <[FAMILY_NAME sampleFields := lit "Byron"]>
               (named (lit "Ada" ++ [space] ++ lit "Lovelace")) in
  normalizeNames sampleFields lowerASCII rec
  = inl (lit "Extracted surname '" ++ lit "Ada" ++ lit "' from full name '"
         ++ (lit "Ada" ++ [space] ++ lit "Lovelace")
         ++ lit "' but it does not match specified surname 'undefined'").
Proof.
  apply (family_name_mismatch_message sampleFields lowerASCII
           (<[FAMILY_NAME sampleFields := lit "Byron"]>
              (named (lit "Ada" ++ [space] ++ lit "Lovelace")))
           (lit "Ada") [space] (lit "Lovelace") (lit "Byron")).
  - reflexivity.
  - reflexivity.
  - discriminate.
  - discriminate.
  - reflexivity.
  - discriminate.
  - discriminate.
  - unfold namePart. listed.
  - unfold namePart. listed.
  - exists space. split; [reflexivity|listed].
  - exists space. split; [reflexivity|listed].
  - repeat constructor.
  - listed.
Defined.

(** What the import makes of a sample record. *)
Example sample_record :
  validateAndNormalizeRecords sampleFields lowerASCII
    [named (lit "John " ++ quote :: lit "Johnny" ++ quote :: lit " Smith")]
  = inr [ <[lit "familyName" := lit "Smith"]>
            (<[lit "givenName" := lit "John"]>
               (<[lit "nickname" := lit "Johnny"]>
                  (named (lit "John " ++ quote :: lit "Johnny" ++ quote :: lit " Smith")))) ].
Proof. vm_compute. reflexivity. Qed.

(** A family name written first keeps its comma. *)
Example sample_comma :
  normalizeNames sampleFields lowerASCII (named (lit "Smith, John"))
  = inr (<[lit "familyName" := lit "Smith,"]>
           (<[lit "givenName" := lit "John"]> (named (lit "Smith, John")))).
Proof. vm_compute. reflexivity. Qed.

End StaffExamples.
